(** * DBC parsing engine of [dbc_excel.py]: a shallow embedding

    The development follows the Python source [src/dbc_excel.py]:

    - text is a [string] whose characters stand for code points below 256
      (the source reads UTF-8 text; code points from 256 on are outside
      this model);
    - the regular expressions of the source are terms of [regex], run by a
      backtracking matcher [rmatch] with the priorities of Python's [re]
      (greedy repetition tries the longest run first, lazy repetition the
      shortest, alternation its left branch first), and [finditer] scans the
      text for successive non-overlapping matches;
    - [DbcParser] is the record of the fields the extraction passes write,
      and every pass is a function from parser state to [option] parser
      state, [None] standing for an uncaught [ValueError] of [int()];
    - [int()] is [py_int], which reads literals of any length; CPython
      from 3.11 on raises [ValueError] on a literal of more than 4300
      digits, which is [int_cpython]. The two agree on every piece of a
      text that is [within_int_limit] ([int_limit_piece]), and every
      argument that the passes hand to [int()] is such a piece: a run of
      digits that a pattern captured, with a sign before it in the value
      pairs, or a word cut off by [split];
    - dictionaries are [gmap]s; lists that are appended to are lists.

    None of the patterns has an anchor, so the flag [re.MULTILINE] that the
    source passes changes nothing and is left out.

    The first part embeds the six passes that write messages, signals,
    value tables, comments and attribute assignments. The second part embeds
    the rest: the passes [_parse_nodes], [_parse_ba_defs],
    [_parse_extra_transmitters], [_parse_env_vars] and
    [_parse_signal_value_types], whose fields [Full.t] adds to [DbcParser],
    the whole of [parse] as [Full.parse], and the writer
    [create_excel_from_dbc] as the rows it hands to the sheets of the
    workbook. Reading the file, the workbook library (which refuses a cell
    that holds a control character, so that nothing is saved) and the
    command line are outside the model. *)

From Stdlib Require Import ZArith String Ascii DecimalString HexadecimalString
  DecimalZ HexadecimalN.
From stdpp Require Import gmap strings list fin_maps sorting.

Local Open Scope string_scope.
Local Open Scope Z_scope.

(** ** Characters *)

Definition code (c : ascii) : N := N_of_ascii c.

(** [str.isspace] on one character, which is also the class [\s] of [re] on
    [str] patterns: TAB, LF, VT, FF, CR, FS, GS, RS, US, space, NEL, NBSP. *)
Definition is_space (c : ascii) : bool :=
  let n := code c in
  ((9 <=? n) && (n <=? 13) || (28 <=? n) && (n <=? 32)
   || (n =? 133) || (n =? 160))%N.

(** The class [\d]: below 256 the only decimal digits are [0]..[9]. *)
Definition is_digit (c : ascii) : bool :=
  let n := code c in ((48 <=? n) && (n <=? 57))%N.

(** [str.isdigit] on one character also accepts the superscript digits
    (code points 178, 179 and 185). *)
Definition is_digit_char (c : ascii) : bool :=
  let n := code c in
  (is_digit c || (n =? 178) || (n =? 179) || (n =? 185))%N.

Definition ascii_eqb (a b : ascii) : bool := Ascii.eqb a b.

Definition quote : ascii := "034"%char.
Definition newline : ascii := "010"%char.

(** ** String methods of Python used by the parser *)

Fixpoint forallb_str (p : ascii → bool) (s : string) : bool :=
  match s with
  | "" => true
  | String c s' => p c && forallb_str p s'
  end.

Fixpoint lstrip_with (p : ascii → bool) (s : string) : string :=
  match s with
  | "" => ""
  | String c s' => if p c then lstrip_with p s' else s
  end.

Fixpoint rstrip_with (p : ascii → bool) (s : string) : string :=
  match s with
  | "" => ""
  | String c s' =>
      match rstrip_with p s' with
      | "" => if p c then "" else String c ""
      | r => String c r
      end
  end.

Definition strip_with (p : ascii → bool) (s : string) : string :=
  rstrip_with p (lstrip_with p s).

(** [s.strip()] *)
Definition strip (s : string) : string := strip_with is_space s.

(** [s.strip(q)] where [q] is the double-quote character *)
Definition strip_quotes (s : string) : string := strip_with (ascii_eqb quote) s.

(** [s.isdigit()]: non-empty and every character a digit character. *)
Definition isdigit (s : string) : bool :=
  match s with
  | "" => false
  | _ => forallb_str is_digit_char s
  end.

(** [s.startswith(t)]; [strip_prefix] also returns what follows [t]. *)
Fixpoint strip_prefix (t s : string) : option string :=
  match t, s with
  | "", _ => Some s
  | String a t', String b s' => if ascii_eqb a b then strip_prefix t' s' else None
  | String _ _, "" => None
  end.

Definition startswith (s t : string) : bool :=
  match strip_prefix t s with Some _ => true | None => false end.

(** [s.replace(a, b)] for one-character [a] and [b]. *)
Fixpoint replace_char (a b : ascii) (s : string) : string :=
  match s with
  | "" => ""
  | String c s' => String (if ascii_eqb a c then b else c) (replace_char a b s')
  end.

(** [sep.join(l)] *)
Fixpoint join (sep : string) (l : list string) : string :=
  match l with
  | [] => ""
  | [x] => x
  | x :: l' => x ++ sep ++ join sep l'
  end.

(** The run of characters outside the class [p] at the head of [s], and
    what follows it. *)
Fixpoint span_not (p : ascii → bool) (s : string) : string * string :=
  match s with
  | "" => ("", "")
  | String c s' =>
      if p c then ("", s)
      else let '(tok, rest) := span_not p s' in (String c tok, rest)
  end.

(** [s.split(None, maxsplit)], the loop of CPython's [split_whitespace]:
    at most [maxsplit] tokens are cut off, then what remains after the
    whitespace that follows them is kept whole (with its trailing
    whitespace). [fuel] bounds the number of tokens and is the length of
    the text at every call. *)
Fixpoint split_ws (fuel maxsplit : nat) (s : string) : list string :=
  let s1 := lstrip_with is_space s in
  match s1 with
  | "" => []
  | _ =>
      match maxsplit, fuel with
      | O, _ | _, O => [s1]
      | S m, S f =>
          let '(tok, rest) := span_not is_space s1 in
          tok :: split_ws f m rest
      end
  end.

(** [s.split(None, maxsplit)] *)
Definition split_max (maxsplit : nat) (s : string) : list string :=
  split_ws (String.length s) maxsplit s.

(** [s.split()] *)
Definition split (s : string) : list string :=
  split_ws (String.length s) (String.length s) s.

(** [s[:n]] for a non-negative [n] *)
Fixpoint take_str (n : nat) (s : string) : string :=
  match n, s with
  | O, _ => ""
  | S n', String c s' => String c (take_str n' s')
  | S _, "" => ""
  end.

(** ** Integers and text *)

Definition digit_val (c : ascii) : Z := Z.of_N (code c) - 48.

(** The digits of a decimal literal, where single underscores may separate
    digits. [after_digit] says that the previous character was a digit. *)
Fixpoint int_body (s : string) (acc : Z) (after_digit : bool) : option Z :=
  match s with
  | "" => if after_digit then Some acc else None
  | String c s' =>
      if is_digit c then int_body s' (10 * acc + digit_val c) true
      else if ascii_eqb c "_" && after_digit then int_body s' acc false
      else None
  end.

(** The whitespace that [int()] drops around a literal: TAB, LF, VT, FF,
    CR, space, NEL and NBSP (the separators FS, GS, RS and US are whitespace
    for [str.isspace] but not here). *)
Definition is_int_space (c : ascii) : bool :=
  let n := code c in
  ((9 <=? n) && (n <=? 13) || (n =? 32) || (n =? 133) || (n =? 160))%N.

(** [int(s)] in base 10: surrounding whitespace is dropped, a sign may
    come first; [None] stands for [ValueError]. The number of digits is not
    limited here; see [int_cpython] below. *)
Definition py_int (s : string) : option Z :=
  match strip_with is_int_space s with
  | String "-" b => Z.opp <$> int_body b 0 false
  | String "+" b => int_body b 0 false
  | b => int_body b 0 false
  end.

(** [sys.get_int_max_str_digits()], as CPython 3.11 and later set it when
    nothing changes it. *)
Definition int_max_str_digits : nat := 4300.

(** The number of digits of a text; signs, underscores and whitespace do
    not count. *)
Fixpoint digit_count (s : string) : nat :=
  match s with
  | "" => 0
  | String c s' => (if is_digit c then 1 else 0) + digit_count s'
  end.

(** [int(s)] with the limit: a literal of more than [int_max_str_digits]
    digits raises [ValueError] as well. *)
Definition int_cpython (s : string) : option Z :=
  if decide (digit_count s ≤ int_max_str_digits)%nat then py_int s else None.

(** The greatest number of digits in a word of [s], a word being a run of
    characters between whitespace; [cur] digits were seen in the word that
    the head of [s] continues. *)
Fixpoint word_digits (cur : nat) (s : string) : nat :=
  match s with
  | "" => cur
  | String c s' =>
      if is_space c then Nat.max cur (word_digits 0 s')
      else word_digits (cur + if is_digit c then 1 else 0) s'
  end.

(** A text none of whose words has more digits than [int()] takes. *)
Definition within_int_limit (content : string) : Prop :=
  (word_digits 0 content ≤ int_max_str_digits)%nat.

(** [u * n] *)
Fixpoint times (n : nat) (u : string) : string :=
  match n with
  | O => ""
  | S k => u ++ times k u
  end.

(** [str(n)] for an integer [n] *)
Definition py_str (n : Z) : string :=
  DecimalString.NilZero.string_of_int (Z.to_int n).

Definition upper_hex_digit (c : ascii) : ascii :=
  let n := code c in
  if ((97 <=? n) && (n <=? 102))%N then ascii_of_N (n - 32) else c.

Fixpoint map_str (f : ascii → ascii) (s : string) : string :=
  match s with
  | "" => ""
  | String c s' => String (f c) (map_str f s')
  end.

(** The format [{n:X}] of an f-string: upper-case hexadecimal *)
Definition py_hex (n : Z) : string :=
  let hex z :=
    map_str upper_hex_digit
      (HexadecimalString.NilZero.string_of_uint (N.to_hex_uint (Z.to_N z))) in
  if (n <? 0)%Z then "-" ++ hex (- n)%Z else hex n.

(** ** Regular expressions

    The fragment of Python's [re] syntax that the patterns of the source use.
    Repetition is only ever applied to a single character class there, so
    [Rep] takes a class; [Opt] is the greedy [?]. *)

Inductive cclass : Type :=
| CSpace                      (* \s *)
| CNonSpace                   (* \S *)
| CDigit                      (* \d *)
| CDot                        (* .   any character but the newline *)
| COneOf (l : list ascii)     (* [...]  *)
| CNoneOf (l : list ascii).   (* [^...] *)

Definition cmatch (cl : cclass) (c : ascii) : bool :=
  match cl with
  | CSpace => is_space c
  | CNonSpace => negb (is_space c)
  | CDigit => is_digit c
  | CDot => negb (ascii_eqb newline c)
  | COneOf l => existsb (ascii_eqb c) l
  | CNoneOf l => negb (existsb (ascii_eqb c) l)
  end.

Inductive regex : Type :=
| Eps
| Lit (t : string)
| Cls (cl : cclass)
| Rep (greedy : bool) (lo : nat) (cl : cclass)
| Opt (r : regex)
| Alt (r1 r2 : regex)
| Cat (r1 r2 : regex)
| Grp (n : nat) (r : regex).

Definition star (cl : cclass) : regex := Rep true 0 cl.        (* cl*  *)
Definition plus (cl : cclass) : regex := Rep true 1 cl.        (* cl+  *)
Definition plus_lazy (cl : cclass) : regex := Rep false 1 cl.  (* cl+? *)
Definition rseq (rs : list regex) : regex := foldr Cat Eps rs.

(** Captured groups: group number to captured text. *)
Abbreviation groups := (gmap nat string).

Section Matcher.
Context {R : Type}.

(** Greedy repetition of a class, at least [lo] times: the longest run is
    tried first, then shorter ones. *)
Fixpoint rep_greedy (cl : cclass) (lo : nat) (s : string)
    (k : string → option R) : option R :=
  let stop := match lo with O => k s | S _ => None end in
  match s with
  | String c s' =>
      if cmatch cl c then
        match rep_greedy cl (pred lo) s' k with
        | Some x => Some x
        | None => stop
        end
      else stop
  | "" => stop
  end.

(** Lazy repetition of a class, at least [lo] times: the shortest run is
    tried first, then longer ones. *)
Fixpoint rep_lazy (cl : cclass) (lo : nat) (s : string)
    (k : string → option R) : option R :=
  let more lo' :=
    match s with
    | String c s' => if cmatch cl c then rep_lazy cl lo' s' k else None
    | "" => None
    end in
  match lo with
  | S lo' => more lo'
  | O => match k s with
         | Some x => Some x
         | None => more O
         end
  end.

(** The text consumed between the input [s] and what is left of it. *)
Definition consumed (s rest : string) : string :=
  take_str (String.length s - String.length rest) s.

(** The backtracking matcher: [rmatch r s g k] matches [r] at the head of
    [s] with the groups [g] captured so far and hands what is left, with
    the groups, to the continuation [k]; when [k] fails the next
    alternative is tried. *)
Fixpoint rmatch (r : regex) (s : string) (g : groups)
    (k : string → groups → option R) : option R :=
  match r with
  | Eps => k s g
  | Lit t => match strip_prefix t s with
             | Some s' => k s' g
             | None => None
             end
  | Cls cl => match s with
              | String c s' => if cmatch cl c then k s' g else None
              | "" => None
              end
  | Rep true lo cl => rep_greedy cl lo s (λ s', k s' g)
  | Rep false lo cl => rep_lazy cl lo s (λ s', k s' g)
  | Opt r1 => match rmatch r1 s g k with
              | Some x => Some x
              | None => k s g
              end
  | Alt r1 r2 => match rmatch r1 s g k with
                 | Some x => Some x
                 | None => rmatch r2 s g k
                 end
  | Cat r1 r2 => rmatch r1 s g (λ s' g', rmatch r2 s' g' k)
  | Grp n r1 => rmatch r1 s g (λ s' g', k s' (<[n := consumed s s']> g'))
  end.
End Matcher.

(** A match object: [start()], [end()] and the captured groups. *)
Record Match : Type := { m_start : nat; m_end : nat; m_groups : groups }.

(** [m.group(n)] for a group that took part in the match; a group that did
    not take part reads as [None] in Python and is looked up with [!!]. *)
Definition group (m : Match) (n : nat) : string := default "" (m_groups m !! n).

(** [pattern.match] at the head of [s]: what is left and the groups. *)
Definition match_at (r : regex) (s : string) : option (string * groups) :=
  rmatch r s ∅ (λ s' g, Some (s', g)).

(** The scan of [re.finditer]: [pos] is the offset of [s] in the text and
    [skip] counts the characters of the previous match still to be stepped
    over. Every pattern of the source consumes at least one character, so
    the rule of [re] for empty matches never applies. *)
Fixpoint scan (r : regex) (skip pos : nat) (s : string) : list Match :=
  match s with
  | "" => []
  | String _ s' =>
      match skip with
      | S n => scan r n (S pos) s'
      | O =>
          match match_at r s with
          | Some (rest, g) =>
              let len := (String.length s - String.length rest)%nat in
              {| m_start := pos; m_end := pos + len; m_groups := g |}
                :: scan r (pred len) (S pos) s'
          | None => scan r 0 (S pos) s'
          end
      end
  end.

(** [re.finditer(pattern, s)] *)
Definition finditer (r : regex) (s : string) : list Match := scan r 0 0 s.

Definition dq : string := String quote "".

(** ** The patterns of the source

    In the comments [q] stands for the double-quote character, and a group
    that ends in a star is written with a blank before its closing
    parenthesis. *)

(** [BO_\s+(\d+)\s+(\S+):\s*(\d+)\s+(\S+)] *)
Definition msg_pattern : regex :=
  rseq [Lit "BO_"; plus CSpace; Grp 1 (plus CDigit); plus CSpace;
        Grp 2 (plus CNonSpace); Lit ":"; star CSpace; Grp 3 (plus CDigit);
       plus CSpace; Grp 4 (plus CNonSpace)].

(** [SG_\s+(\S+)\s*(M|m\d+M?)?\s*:\s*(\d+)\|(\d+)@([01])([+-])\s*]
    [\(([^,]+),([^)]+)\)\s*\[([^|]+)\|([^\]]+)\]\s*q( [^q]* )q\s*(.+)] *)
Definition sig_pattern : regex :=
  rseq [Lit "SG_"; plus CSpace; Grp 1 (plus CNonSpace); star CSpace;
        Opt (Grp 2 (Alt (Lit "M") (rseq [Lit "m"; plus CDigit; Opt (Lit "M")])));
       star CSpace; Lit ":"; star CSpace;
        Grp 3 (plus CDigit); Lit "|"; Grp 4 (plus CDigit); Lit "@";
        Grp 5 (Cls (COneOf ["0"; "1"]%char)); Grp 6 (Cls (COneOf ["+"; "-"]%char));
       star CSpace;
        Lit "("; Grp 7 (plus (CNoneOf [","]%char)); Lit ",";
        Grp 8 (plus (CNoneOf [")"]%char)); Lit ")"; star CSpace;
        Lit "["; Grp 9 (plus (CNoneOf ["|"]%char)); Lit "|";
        Grp 10 (plus (CNoneOf ["]"]%char)); Lit "]"; star CSpace;
        Lit dq; Grp 11 (star (CNoneOf [quote])); Lit dq; star CSpace;
        Grp 12 (plus CDot)].

(** [VAL_TABLE_\s+(\S+)\s+(.+?)\s*;] *)
Definition val_table_pattern : regex :=
  rseq [Lit "VAL_TABLE_"; plus CSpace; Grp 1 (plus CNonSpace); plus CSpace;
        Grp 2 (plus_lazy CDot); star CSpace; Lit ";"].

(** [(-?\d+)\s+q( [^q]* )q] *)
Definition value_pair_pattern : regex :=
  rseq [Grp 1 (rseq [Opt (Lit "-"); plus CDigit]); plus CSpace;
        Lit dq; Grp 2 (star (CNoneOf [quote])); Lit dq].

(** [VAL_\s+(\d+)\s+(\S+)\s+(.+?)\s*;] *)
Definition signal_val_pattern : regex :=
  rseq [Lit "VAL_"; plus CSpace; Grp 1 (plus CDigit); plus CSpace;
        Grp 2 (plus CNonSpace); plus CSpace; Grp 3 (plus_lazy CDot);
       star CSpace; Lit ";"].

(** [VAL_\s+(\S+)\s+(.+?)\s*;] *)
Definition env_val_pattern : regex :=
  rseq [Lit "VAL_"; plus CSpace; Grp 1 (plus CNonSpace); plus CSpace;
        Grp 2 (plus_lazy CDot); star CSpace; Lit ";"].

(** [CM_\s+BO_\s+(\d+)\s+q( [^q]* )q\s*;] *)
Definition cm_bo_pattern : regex :=
  rseq [Lit "CM_"; plus CSpace; Lit "BO_"; plus CSpace; Grp 1 (plus CDigit);
       plus CSpace; Lit dq; Grp 2 (star (CNoneOf [quote])); Lit dq;
       star CSpace; Lit ";"].

(** [CM_\s+SG_\s+(\d+)\s+(\S+)\s+q( [^q]* )q\s*;] *)
Definition cm_sg_pattern : regex :=
  rseq [Lit "CM_"; plus CSpace; Lit "SG_"; plus CSpace; Grp 1 (plus CDigit);
       plus CSpace; Grp 2 (plus CNonSpace); plus CSpace;
        Lit dq; Grp 3 (star (CNoneOf [quote])); Lit dq; star CSpace; Lit ";"].

(** [CM_\s+BU_\s+(\S+)\s+q( [^q]* )q\s*;] *)
Definition cm_bu_pattern : regex :=
  rseq [Lit "CM_"; plus CSpace; Lit "BU_"; plus CSpace; Grp 1 (plus CNonSpace);
       plus CSpace; Lit dq; Grp 2 (star (CNoneOf [quote])); Lit dq;
       star CSpace; Lit ";"].

(** [CM_\s+EV_\s+(\S+)\s+q( [^q]* )q\s*;] *)
Definition cm_ev_pattern : regex :=
  rseq [Lit "CM_"; plus CSpace; Lit "EV_"; plus CSpace; Grp 1 (plus CNonSpace);
       plus CSpace; Lit dq; Grp 2 (star (CNoneOf [quote])); Lit dq;
       star CSpace; Lit ";"].

(** [BA_\s+q([^q]+)q\s+([^;]+);] *)
Definition ba_pattern : regex :=
  rseq [Lit "BA_"; plus CSpace; Lit dq; Grp 1 (plus (CNoneOf [quote])); Lit dq;
       plus CSpace; Grp 2 (plus (CNoneOf [";"]%char)); Lit ";"].

(** ** The data model *)

Module Msg.
(** The dictionary built for every message declaration. *)
Record t : Type := mk {
  id : Z;
  id_hex : string;
  name : string;
  dlc : Z;
  transmitter : string;
  is_extended : bool;
  comment : string
}.
End Msg.

Module Sig.
(** The dictionary built for every signal that is attributed to a message. *)
Record t : Type := mk {
  msg_id : Z;
  name : string;
  start_bit : Z;
  length : Z;
  byte_order_sign : string;
  factor_offset : string;
  min_max : string;
  unit : string;
  receivers : string;
  multiplexing : string;
  comment : string;
  value_table : string
}.
End Sig.

(** A comment record [(type, scope, comment)] and an attribute assignment
    [(scope, scope_id, attr_name, value)]. *)
Definition comment_rec : Type := string * string * string.
Definition ba_rec : Type := string * string * string * string.

(** The fields of a [DbcParser] object that the passes below write. *)
Record DbcParser : Type := mkDbcParser {
  messages : list Msg.t;
  signals : gmap Z (list Sig.t);
  value_tables : gmap string (gmap Z string);
  signal_value_tables : gmap (Z * string) (gmap Z string);
  env_var_value_tables : gmap string (gmap Z string);
  comments : list comment_rec;
  ba_assignments : list ba_rec
}.

(** [DbcParser.__init__] *)
Definition init : DbcParser :=
  mkDbcParser [] ∅ ∅ ∅ ∅ [] [].

Definition with_messages (st : DbcParser) (v : list Msg.t) : DbcParser :=
  mkDbcParser v (signals st) (value_tables st) (signal_value_tables st)
    (env_var_value_tables st) (comments st) (ba_assignments st).
Definition with_signals (st : DbcParser) (v : gmap Z (list Sig.t)) : DbcParser :=
  mkDbcParser (messages st) v (value_tables st) (signal_value_tables st)
    (env_var_value_tables st) (comments st) (ba_assignments st).
Definition with_value_tables (st : DbcParser) (v : gmap string (gmap Z string)) : DbcParser :=
  mkDbcParser (messages st) (signals st) v (signal_value_tables st)
    (env_var_value_tables st) (comments st) (ba_assignments st).
Definition with_signal_value_tables (st : DbcParser)
    (v : gmap (Z * string) (gmap Z string)) : DbcParser :=
  mkDbcParser (messages st) (signals st) (value_tables st) v
    (env_var_value_tables st) (comments st) (ba_assignments st).
Definition with_env_var_value_tables (st : DbcParser)
    (v : gmap string (gmap Z string)) : DbcParser :=
  mkDbcParser (messages st) (signals st) (value_tables st)
    (signal_value_tables st) v (comments st) (ba_assignments st).
Definition with_comments (st : DbcParser) (v : list comment_rec) : DbcParser :=
  mkDbcParser (messages st) (signals st) (value_tables st)
    (signal_value_tables st) (env_var_value_tables st) v (ba_assignments st).
Definition with_ba_assignments (st : DbcParser) (v : list ba_rec) : DbcParser :=
  mkDbcParser (messages st) (signals st) (value_tables st)
    (signal_value_tables st) (env_var_value_tables st) (comments st) v.

(** A [for] loop whose body may raise: the first [None] aborts the loop. *)
Fixpoint for_each {A S : Type} (l : list A) (body : S → A → option S) (st : S)
    : option S :=
  match l with
  | [] => Some st
  | a :: l' => st' ← body st a; for_each l' body st'
  end.

(** ** Extended-ID normalisation

    The source writes the two expressions below in line wherever it reads
    a message identifier. *)

(** [msg_id_raw >= 0x80000000] *)
Definition is_extended_id (raw : Z) : bool := (0x80000000 <=? raw)%Z.

(** [msg_id_raw - 0x80000000 if msg_id_raw >= 0x80000000 else msg_id_raw] *)
Definition normalize_id (raw : Z) : Z :=
  if is_extended_id raw then (raw - 0x80000000)%Z else raw.

(** ** The extraction passes *)

(** The body of the loop of [_parse_value_dict]. *)
Definition value_dict_body (result : gmap Z string) (m : Match)
    : option (gmap Z string) :=
  key ← py_int (group m 1);
  let value := group m 2 in
  Some (<[key := value]> result).

(** [_parse_value_dict] *)
Definition _parse_value_dict (values_str : string) : option (gmap Z string) :=
  for_each (finditer value_pair_pattern values_str) value_dict_body ∅.

(** [_parse_value_tables] *)
Definition _parse_value_tables (content : string) (self : DbcParser)
    : option DbcParser :=
  for_each (finditer val_table_pattern content)
    (λ self m,
       let table_name := group m 1 in
       let values_str := group m 2 in
       d ← _parse_value_dict values_str;
       Some (with_value_tables self (<[table_name := d]> (value_tables self))))
    self.

(** The message dictionary built from one match of [msg_pattern]. *)
Definition message_of_match (m : Match) : option Msg.t :=
  msg_id_raw ← py_int (group m 1);
  let is_extended := is_extended_id msg_id_raw in
  let msg_id := normalize_id msg_id_raw in
  dlc ← py_int (group m 3);
  Some {| Msg.id := msg_id;
          Msg.id_hex := "0x" ++ py_hex msg_id;
          Msg.name := group m 2;
          Msg.dlc := dlc;
          Msg.transmitter := group m 4;
          Msg.is_extended := is_extended;
          Msg.comment := "" |}.

(** The body of the first loop of [_parse_messages_and_signals]. *)
Definition message_step (self : DbcParser) (m : Match) : option DbcParser :=
  msg ← message_of_match m;
  Some (with_signals (with_messages self (messages self ++ [msg])%list)
          (<[Msg.id msg := []]> (signals self))).

(** The backwards search of the second loop: the identifier of the last
    match of [msg_pattern] in [content[:sig_pos]], [None] when there is
    none. *)
Definition find_msg_id (content : string) (sig_pos : nat) : option (option Z) :=
  for_each (finditer msg_pattern (take_str sig_pos content))
    (λ _ msg_match,
       msg_id_raw ← py_int (group msg_match 1);
       Some (Some (normalize_id msg_id_raw)))
    None.

(** [[r.strip() for r in s.replace(',', ' ').split() if r.strip()]] *)
Definition name_list (s : string) : list string :=
  strip <$> filter (λ r, strip r ≠ "") (split (replace_char "," " " s)).

(** The signal dictionary built from one match of [sig_pattern], with the
    two integers already read, for the message [msg_id]. *)
Definition signal_of_match (m : Match) (start_bit length msg_id : Z) : Sig.t :=
  let sig_name := group m 1 in
  let mux := default "" (m_groups m !! 2%nat) in
  let byte_order := group m 5 in
  let sign := group m 6 in
  let factor := strip (group m 7) in
  let offset := strip (group m 8) in
  let minimum := strip (group m 9) in
  let maximum := strip (group m 10) in
  let unit := group m 11 in
  let receivers_str := strip (group m 12) in
  let receivers := name_list receivers_str in
  {| Sig.msg_id := msg_id;
     Sig.name := sig_name;
     Sig.start_bit := start_bit;
     Sig.length := length;
     Sig.byte_order_sign := "@" ++ byte_order ++ sign;
     Sig.factor_offset := "(" ++ factor ++ "," ++ offset ++ ")";
     Sig.min_max := "[" ++ minimum ++ "|" ++ maximum ++ "]";
     Sig.unit := unit;
     Sig.receivers := join "," receivers;
     Sig.multiplexing := mux;
     Sig.comment := "";
     Sig.value_table := "" |}.

(** The body of the second loop of [_parse_messages_and_signals]: the
    integers are read first, then the message is searched, and the signal is
    appended when a message was found and is a key of [signals]. *)
Definition signal_step (content : string) (self : DbcParser) (m : Match)
    : option DbcParser :=
  start_bit ← py_int (group m 3);
  length ← py_int (group m 4);
  found ← find_msg_id content (m_start m);
  match found with
  | Some msg_id =>
      match signals self !! msg_id with
      | Some sigs =>
          let signal := signal_of_match m start_bit length msg_id in
          Some (with_signals self
                  (<[msg_id := (sigs ++ [signal])%list]> (signals self)))
      | None => Some self
      end
  | None => Some self
  end.

(** [_parse_messages_and_signals] *)
Definition _parse_messages_and_signals (content : string) (self : DbcParser)
    : option DbcParser :=
  self ← for_each (finditer msg_pattern content) message_step self;
  for_each (finditer sig_pattern content) (signal_step content) self.

(** The body of the loop of [_parse_signal_val_entries]. *)
Definition signal_val_step (self : DbcParser) (m : Match) : option DbcParser :=
  msg_id_raw ← py_int (group m 1);
  let msg_id := normalize_id msg_id_raw in
  let sig_name := group m 2 in
  let values_str := group m 3 in
  d ← _parse_value_dict values_str;
  Some (with_signal_value_tables self
          (<[(msg_id, sig_name) := d]> (signal_value_tables self))).

(** [_parse_signal_val_entries] *)
Definition _parse_signal_val_entries (content : string) (self : DbcParser)
    : option DbcParser :=
  for_each (finditer signal_val_pattern content) signal_val_step self.

(** The body of the loop of [_parse_env_var_val_entries]. *)
Definition env_val_step (self : DbcParser) (m : Match) : option DbcParser :=
  let first_token := group m 1 in
  if negb (isdigit first_token) then
    let env_name := first_token in
    let values_str := group m 2 in
    d ← _parse_value_dict values_str;
    Some (with_env_var_value_tables self
            (<[env_name := d]> (env_var_value_tables self)))
  else Some self.

(** [_parse_env_var_val_entries] *)
Definition _parse_env_var_val_entries (content : string) (self : DbcParser)
    : option DbcParser :=
  for_each (finditer env_val_pattern content) env_val_step self.

Definition add_comment (self : DbcParser) (c : comment_rec) : DbcParser :=
  with_comments self (comments self ++ [c])%list.

(** [_parse_comments]: message, signal, node and environment-variable
    comments, in this order. *)
Definition _parse_comments (content : string) (self : DbcParser)
    : option DbcParser :=
  self ← for_each (finditer cm_bo_pattern content)
    (λ self m,
       msg_id_raw ← py_int (group m 1);
       let msg_id := normalize_id msg_id_raw in
       let comment := group m 2 in
       Some (add_comment self ("BO", py_str msg_id, comment)))
    self;
  self ← for_each (finditer cm_sg_pattern content)
    (λ self m,
       msg_id_raw ← py_int (group m 1);
       let msg_id := normalize_id msg_id_raw in
       let sig_name := group m 2 in
       let comment := group m 3 in
       Some (add_comment self ("SG", py_str msg_id ++ ":" ++ sig_name, comment)))
    self;
  self ← for_each (finditer cm_bu_pattern content)
    (λ self m,
       let node := group m 1 in
       let comment := group m 2 in
       Some (add_comment self ("BU", node, comment)))
    self;
  for_each (finditer cm_ev_pattern content)
    (λ self m,
       let env := group m 1 in
       let comment := group m 2 in
       Some (add_comment self ("EV", env, comment)))
    self.

(** [parts[i] if len(parts) > i else ''] *)
Definition part (parts : list string) (i : nat) : string :=
  default "" (parts !! i).

(** The scope, scope identifier and raw value of one attribute assignment,
    from the text [rest] that follows the attribute name. *)
Definition ba_scope (rest : string) : option (string * string * string) :=
  if startswith rest "BU_" then
    let parts := split_max 2 rest in
    Some ("BU", part parts 1, part parts 2)
  else if startswith rest "BO_" then
    let parts := split_max 2 rest in
    Some ("BO", part parts 1, part parts 2)
  else if startswith rest "SG_" then
    let parts := split_max 3 rest in
    let msg_id := part parts 1 in
    let sig_name := part parts 2 in
    msg_id_int ← py_int msg_id;
    let msg_id_int := normalize_id msg_id_int in
    Some ("SG", py_str msg_id_int ++ ":" ++ sig_name, part parts 3)
  else if startswith rest "EV_" then
    let parts := split_max 2 rest in
    Some ("EV", part parts 1, part parts 2)
  else
    Some ("GLOBAL", "", rest).

(** The body of the loop of [_parse_ba_assignments]. *)
Definition ba_step (self : DbcParser) (m : Match) : option DbcParser :=
  let attr_name := group m 1 in
  let rest := strip (group m 2) in
  '(scope, scope_id, value) ← ba_scope rest;
  let value := strip_quotes (strip value) in
  Some (with_ba_assignments self
          (ba_assignments self ++ [(scope, scope_id, attr_name, value)])%list).

(** [_parse_ba_assignments] *)
Definition _parse_ba_assignments (content : string) (self : DbcParser)
    : option DbcParser :=
  for_each (finditer ba_pattern content) ba_step self.

(** [DbcParser.parse] on the text [content] of the file, restricted to the
    six passes above, in the order of the source; [Full.parse] below runs
    all eleven. *)
Definition parse (content : string) (self : DbcParser) : option DbcParser :=
  self ← _parse_value_tables content self;
  self ← _parse_messages_and_signals content self;
  self ← _parse_signal_val_entries content self;
  self ← _parse_env_var_val_entries content self;
  self ← _parse_comments content self;
  _parse_ba_assignments content self.

(** The order of [sorted] on the items of a dictionary: the keys of a
    dictionary are distinct, so the order on items is the order on keys. *)
Definition item_le (a b : Z * string) : Prop := (a.1 ≤ b.1)%Z.

#[global] Instance item_le_dec : RelDecision item_le.
Proof. intros a b. unfold item_le. apply _. Defined.

(** One item written as [k:qvq], with [q] the double quote. *)
Definition format_pair (kv : Z * string) : string :=
  py_str kv.1 ++ ":" ++ dq ++ kv.2 ++ dq.

(** The pair formatter of [create_excel_from_dbc]: the items of a value
    dictionary, sorted, each written by [format_pair], joined by blanks. *)
Definition format_pairs (values : gmap Z string) : string :=
  join " " (format_pair <$> merge_sort item_le (map_to_list values)).

(** ** A declarative reading of the matcher

    [Matches r s g s' g'] says that [r] can match a prefix of [s], leaving
    [s'], and turn the groups [g] into [g']. It lists every way [r] can
    match; which one the matcher takes is decided by its priorities. *)

Inductive Matches : regex → string → groups → string → groups → Prop :=
| M_Eps s g : Matches Eps s g s g
| M_Lit t s g : Matches (Lit t) (t ++ s) g s g
| M_Cls cl c s g :
    cmatch cl c = true → Matches (Cls cl) (String c s) g s g
| M_Rep gr lo cl w s g :
    forallb_str (cmatch cl) w = true → (lo ≤ String.length w)%nat →
    Matches (Rep gr lo cl) (w ++ s) g s g
| M_OptY r s g s' g' : Matches r s g s' g' → Matches (Opt r) s g s' g'
| M_OptN r s g : Matches (Opt r) s g s g
| M_AltL r1 r2 s g s' g' : Matches r1 s g s' g' → Matches (Alt r1 r2) s g s' g'
| M_AltR r1 r2 s g s' g' : Matches r2 s g s' g' → Matches (Alt r1 r2) s g s' g'
| M_Cat r1 r2 s g s1 g1 s2 g2 :
    Matches r1 s g s1 g1 → Matches r2 s1 g1 s2 g2 →
    Matches (Cat r1 r2) s g s2 g2
| M_Grp n r s g s' g' :
    Matches r s g s' g' →
    Matches (Grp n r) s g s' (<[n := consumed s s']> g').

(** [s[n:]] for a non-negative [n] *)
Fixpoint drop_str (n : nat) (s : string) : string :=
  match n, s with
  | O, _ => s
  | S n', String _ s' => drop_str n' s'
  | S _, "" => ""
  end.

(** * Vocabulary of the statements *)

(** ** Captured groups *)

(** [captures_ok P r]: whatever a group [n] of [r] captures satisfies
    [P n]. *)
Fixpoint captures_ok (P : nat → string → Prop) (r : regex) : Prop :=
  match r with
  | Grp n r1 =>
      (∀ s g s' g', Matches r1 s g s' g' → P n (consumed s s')) ∧ captures_ok P r1
  | Cat r1 r2 | Alt r1 r2 => captures_ok P r1 ∧ captures_ok P r2
  | Opt r1 => captures_ok P r1
  | _ => True
  end.

(** [sets n r]: every match of [r] captures group [n]. *)
Fixpoint sets (n : nat) (r : regex) : bool :=
  match r with
  | Grp n' r1 => bool_decide (n = n') || sets n r1
  | Cat r1 r2 => sets n r1 || sets n r2
  | Alt r1 r2 => sets n r1 && sets n r2
  | _ => false
  end.

(** [min_len r]: the least number of characters that a match of [r]
    consumes. *)
Fixpoint min_len (r : regex) : nat :=
  match r with
  | Eps => 0
  | Lit t => String.length t
  | Cls _ => 1
  | Rep _ lo _ => lo
  | Opt _ => 0
  | Alt r1 r2 => min_len r1 `min` min_len r2
  | Cat r1 r2 => (min_len r1 + min_len r2)%nat
  | Grp _ r1 => min_len r1
  end.

(** The patterns of the source. *)
Definition patterns : list regex :=
  [msg_pattern; sig_pattern; val_table_pattern; value_pair_pattern;
   signal_val_pattern; env_val_pattern; cm_bo_pattern; cm_sg_pattern;
   cm_bu_pattern; cm_ev_pattern; ba_pattern].

(** ** Runs of a character class *)

(** A non-empty run of characters of the class [p]. *)
Definition run (p : ascii → bool) (w : string) : Prop :=
  w ≠ "" ∧ forallb_str p w = true.

(** What [\d+] can capture. *)
Definition digits (w : string) : Prop := run is_digit w.

(** [stops p s]: [s] does not start with a character of the class [p]. *)
Definition stops (p : ascii → bool) (s : string) : Prop :=
  match s with
  | "" => True
  | String c _ => p c = false
  end.

Definition nonspace (c : ascii) : bool := negb (is_space c).

(** ** Value dictionaries *)

(** The value that the last pair with key [k] gives, if any pair has it. *)
Fixpoint last_value (k : Z) (ms : list Match) : option string :=
  match ms with
  | [] => None
  | m :: ms' =>
      match last_value k ms' with
      | Some v => Some v
      | None => if decide (py_int (group m 1) = Some k) then Some (group m 2) else None
      end
  end.

(** ** Messages and signals *)

(** What the backwards search from offset [pos] finds: the identifier of
    the last match of the message pattern within [content[:pos]]. A match
    of the whole text that starts before [pos] and ends after it is not
    among them. *)
Definition last_msg_id (content : string) (pos : nat) : option Z :=
  mm ← last (finditer msg_pattern (take_str pos content));
  normalize_id <$> py_int (group mm 1).

(** The set of identifiers of a list of messages. *)
Definition msg_ids (msgs : list Msg.t) : gset Z := list_to_set (Msg.id <$> msgs).

(** [attributed content k s]: the signal [s] was built from a signal
    declaration of [content] for which the backwards search finds the
    message identifier [k]. *)
Definition attributed (content : string) (k : Z) (s : Sig.t) : Prop :=
  ∃ m start_bit length,
    m ∈ finditer sig_pattern content ∧
    last_msg_id content (m_start m) = Some k ∧
    s = signal_of_match m start_bit length k.

(** Every signal stored under [k] is attributed to [k]. *)
Definition well_keyed (content : string) (sg : gmap Z (list Sig.t)) : Prop :=
  ∀ k sigs s, sg !! k = Some sigs → s ∈ sigs → attributed content k s.

(** What [raw], read from a message declaration, must have become in the
    message dictionary. *)
Definition normalized (raw : Z) (msg : Msg.t) : Prop :=
  (0x80000000 ≤ raw → Msg.id msg = raw - 0x80000000 ∧ Msg.is_extended msg = true) ∧
  (raw < 0x80000000 → Msg.id msg = raw ∧ Msg.is_extended msg = false).

(** The message built from a match of the scan. *)
Definition recorded (m : Match) (msg : Msg.t) : Prop :=
  ∃ raw, py_int (group m 1) = Some raw ∧ message_of_match m = Some msg ∧
         Msg.id msg = normalize_id raw ∧ Msg.is_extended msg = is_extended_id raw.

(** [grows a b]: the parser [b] is [a] with signals appended to the lists
    that [a] has; nothing else differs. *)
Definition grows (a b : DbcParser) : Prop :=
  messages b = messages a ∧
  dom (signals b) = dom (signals a) ∧
  (∀ k sigs, signals a !! k = Some sigs →
             ∃ more, signals b !! k = Some (sigs ++ more)%list) ∧
  value_tables b = value_tables a ∧
  signal_value_tables b = signal_value_tables a ∧
  env_var_value_tables b = env_var_value_tables a ∧
  comments b = comments a ∧
  ba_assignments b = ba_assignments a.

(** ** The shape of a message declaration *)

(** The pieces of the text that [msg_pattern] matches. *)
Record msg_decl : Type := {
  ws1 : string; id_text : string; ws2 : string; name_text : string;
  ws3 : string; dlc_text : string; ws4 : string; tx_text : string
}.

(** The text of a declaration, followed by [rest]. *)
Definition msg_then (p : msg_decl) (rest : string) : string :=
  "BO_" ++ ws1 p ++ id_text p ++ ws2 p ++ name_text p ++ ":" ++ ws3 p
    ++ dlc_text p ++ ws4 p ++ tx_text p ++ rest.

(** The text of a declaration after its keyword. *)
Definition msg_body (p : msg_decl) : string :=
  ws1 p ++ id_text p ++ ws2 p ++ name_text p ++ ":" ++ ws3 p
    ++ dlc_text p ++ ws4 p ++ tx_text p.

Definition msg_ok (p : msg_decl) : Prop :=
  run is_space (ws1 p) ∧ run is_digit (id_text p) ∧ run is_space (ws2 p) ∧
  run nonspace (name_text p) ∧ forallb_str is_space (ws3 p) = true ∧
  run is_digit (dlc_text p) ∧ run is_space (ws4 p) ∧ run nonspace (tx_text p).

(** An underscore directly followed by whitespace occurs in the text. *)
Fixpoint us_sp (s : string) : bool :=
  match s with
  | String a s' =>
      match s' with
      | String b _ => ascii_eqb a "_" && is_space b || us_sp s'
      | "" => false
      end
  | "" => false
  end.

Definition not_us (c : ascii) : bool := negb (ascii_eqb c "_").

(** [reframe f st]: the messages and signals of [st] with the other fields
    of [f]. *)
Definition reframe (f st : DbcParser) : DbcParser :=
  mkDbcParser (messages st) (signals st) (value_tables f) (signal_value_tables f)
    (env_var_value_tables f) (comments f) (ba_assignments f).

(** ** Comments *)

(** [int()] of a text that [\d+] captured. *)
Definition int_of (w : string) : Z := default 0 (py_int w).

(** The record that each of the four loops of [_parse_comments] builds from
    a match. *)
Definition bo_comment (m : Match) : comment_rec :=
  ("BO", py_str (normalize_id (int_of (group m 1))), group m 2).
Definition sg_comment (m : Match) : comment_rec :=
  ("SG", py_str (normalize_id (int_of (group m 1))) ++ ":" ++ group m 2, group m 3).
Definition bu_comment (m : Match) : comment_rec := ("BU", group m 1, group m 2).
Definition ev_comment (m : Match) : comment_rec := ("EV", group m 1, group m 2).

(** The comment records of a text, in the order of [_parse_comments]. *)
Definition comment_records (content : string) : list comment_rec :=
  ((bo_comment <$> finditer cm_bo_pattern content)
   ++ (sg_comment <$> finditer cm_sg_pattern content)
   ++ (bu_comment <$> finditer cm_bu_pattern content)
   ++ (ev_comment <$> finditer cm_ev_pattern content))%list.

(** ** Sample texts *)

Definition nl : string := String newline "".

(** [BO_ 100 Msg1: 8 ECU1] *)
Definition msg100_line : string := "BO_ 100 Msg1: 8 ECU1".
(** [BO_ 200 Msg2: 8 ECU2] *)
Definition msg200_line : string := "BO_ 200 Msg2: 8 ECU2".
(** [BO_ 2147483748 MsgX: 8 ECU1], an extended identifier *)
Definition msgext_line : string := "BO_ 2147483748 MsgX: 8 ECU1".
(** [ SG_ SigA : 0|8@1+ (1,0) [0|255] qq ECU1] *)
Definition sigA_line : string :=
  " SG_ SigA : 0|8@1+ (1,0) [0|255] " ++ dq ++ dq ++ " ECU1".
(** [VAL_TABLE_ Tbl 0 qOffq 1 qOnq ;] *)
Definition val_table_line : string :=
  "VAL_TABLE_ Tbl 0 " ++ dq ++ "Off" ++ dq ++ " 1 " ++ dq ++ "On" ++ dq ++ " ;".
(** [CM_ BO_ 100 qhelloq;] *)
Definition cm_line : string := "CM_ BO_ 100 " ++ dq ++ "hello" ++ dq ++ ";".
(** [BA_ qPropq SG_ 2147483748 SigA 5;] *)
Definition ba_sg_line : string :=
  "BA_ " ++ dq ++ "Prop" ++ dq ++ " SG_ 2147483748 SigA 5;".
(** [BA_ qPropq SG_ 2147483652 SigA 5;], the raw identifier 0x80000004 *)
Definition ba_sg4_line : string :=
  "BA_ " ++ dq ++ "Prop" ++ dq ++ " SG_ 2147483652 SigA 5;".
(** [BA_ qXq SG_ foo SigA 5;] *)
Definition ba_foo_line : string := "BA_ " ++ dq ++ "X" ++ dq ++ " SG_ foo SigA 5;".
(** [BA_ qXq SG_;] *)
Definition ba_noid_line : string := "BA_ " ++ dq ++ "X" ++ dq ++ " SG_;".
(** [-5 qNegq 3 qaq 3 qbq] *)
Definition pairs_text : string :=
  "-5 " ++ dq ++ "Neg" ++ dq ++ " 3 " ++ dq ++ "a" ++ dq ++ " 3 " ++ dq ++ "b" ++ dq.

(** A signal declared before any message, then a message. *)
Definition orphan_text : string := sigA_line ++ nl ++ msg100_line ++ nl.

(** Messages 100 and 200, then a signal. *)
Definition two_msgs_text : string :=
  msg100_line ++ nl ++ msg200_line ++ nl ++ sigA_line ++ nl.


(** [BO_ 200 Msg2: 8], a message declaration without its transmitter *)
Definition msg200_cut_line : string := "BO_ 200 Msg2: 8".

(** Message 100, then message 200 without a transmitter, then a signal. *)
Definition cut_msg_text : string :=
  msg100_line ++ nl ++ msg200_cut_line ++ nl ++ sigA_line ++ nl.

(** [VAL_ Env VAL_ 100 SigA 0 qOffq ;]: an entry of a signal within the
    text that the general pattern takes for the values of [Env]. *)
Definition overlap_val_line : string :=
  "VAL_ Env VAL_ 100 SigA 0 " ++ dq ++ "Off" ++ dq ++ " ;".

Definition orphan_match : Match :=
  default (Build_Match 0 0 ∅) (head (finditer sig_pattern orphan_text)).

Definition two_msgs_sig : Match :=
  default (Build_Match 0 0 ∅) (head (finditer sig_pattern two_msgs_text)).

Definition two_msgs_last : Match :=
  default (Build_Match 0 0 ∅)
    (last (finditer msg_pattern (take_str (m_start two_msgs_sig) two_msgs_text))).

(** The last message declaration of [two_msgs_text]. *)
Definition two_msgs_latest : Match :=
  default (Build_Match 0 0 ∅) (last (finditer msg_pattern two_msgs_text)).

(** The signal dictionary of [sigA_line] under the message [k]. *)
Definition sigA (k : Z) : Sig.t :=
  Sig.mk k "SigA" 0 8 "@1+" "(1,0)" "[0|255]" "" "ECU1" "" "" "".

(** * The rest of the parser, and the writer *)

(** ** More of Python's strings and dictionaries *)

(** [re.search(pattern, s)]: the first match of the scan, if any. *)
Definition search (r : regex) (s : string) : option Match := head (finditer r s).

(** [len(match.groups())]: the number of groups of the pattern. *)
Fixpoint group_count (r : regex) : nat :=
  match r with
  | Grp _ r1 => S (group_count r1)
  | Opt r1 => group_count r1
  | Alt r1 r2 | Cat r1 r2 => (group_count r1 + group_count r2)%nat
  | _ => 0%nat
  end.

(** [[x.strip() for x in l if x.strip()]] *)
Definition stripped (l : list string) : list string :=
  strip <$> filter (λ x, strip x ≠ "") l.

(** Text whose characters may lie beyond code point 255, as the list of
    its code points. *)
Definition utext : Type := list N.

Definition codes (s : string) : utext := code <$> list_ascii_of_string s.

(** [c.upper()] for one character: the letters [a]..[z] and the accented
    letters of Latin-1 move down by 32; the sharp s becomes [SS], the micro
    sign the Greek capital mu (924) and the y with diaeresis its capital
    (376). *)
Definition upper_char (c : ascii) : utext :=
  let n := code c in
  if ((97 <=? n) && (n <=? 122))%N then [(n - 32)%N]
  else if (n =? 181)%N then [924%N]
  else if (n =? 223)%N then [83%N; 83%N]
  else if ((224 <=? n) && (n <=? 254) && negb (n =? 247))%N then [(n - 32)%N]
  else if (n =? 255)%N then [376%N]
  else [n].

(** [s.upper()] *)
Definition upper (s : string) : utext :=
  mjoin (upper_char <$> list_ascii_of_string s).

(** The keys of a dictionary are iterated in the order of their first
    insertion; [note_key k keys] is what the assignment [d[k] = v] does to
    that order. *)
Definition note_key {K : Type} `{EqDecision K} (k : K) (keys : list K) : list K :=
  if decide (k ∈ keys) then keys else (keys ++ [k])%list.

(** [d.items()] for the dictionary with the mapping [d] and the keys in the
    order [keys]. *)
Definition items {K V : Type} `{Countable K} (d : gmap K V) (keys : list K)
    : list (K * V) :=
  omap (λ k, (λ v, (k, v)) <$> d !! k) keys.

(** ** The patterns of the remaining passes *)

(** [BU_:\s*(.+)] *)
Definition nodes_pattern : regex :=
  rseq [Lit "BU_:"; star CSpace; Grp 1 (plus CDot)].

(** [BA_DEF_\s+(BU_|BO_|SG_|EV_)?\s*q([^q]+)q\s+(\S+)\s*( [^;]* );] *)
Definition ba_def_pattern : regex :=
  rseq [Lit "BA_DEF_"; plus CSpace;
        Opt (Grp 1 (Alt (Lit "BU_") (Alt (Lit "BO_") (Alt (Lit "SG_") (Lit "EV_")))));
       star CSpace; Lit dq; Grp 2 (plus (CNoneOf [quote])); Lit dq; plus CSpace;
        Grp 3 (plus CNonSpace); star CSpace; Grp 4 (star (CNoneOf [";"]%char));
       Lit ";"].

(** [BO_TX_BU_\s+(\d+)\s*:\s*([^;]+);] *)
Definition extra_tx_pattern : regex :=
  rseq [Lit "BO_TX_BU_"; plus CSpace; Grp 1 (plus CDigit); star CSpace; Lit ":";
       star CSpace; Grp 2 (plus (CNoneOf [";"]%char)); Lit ";"].

(** [EV_\s+(\S+)\s*:\s*(\d+)\s*\[([^|]+)\|([^\]]+)\]\s*q( [^q]* )q\s+(\S+)]
    [\s+(\d+)\s+(\S+)\s+(.+?);] *)
Definition env_var_pattern : regex :=
  rseq [Lit "EV_"; plus CSpace; Grp 1 (plus CNonSpace); star CSpace; Lit ":";
       star CSpace; Grp 2 (plus CDigit); star CSpace;
        Lit "["; Grp 3 (plus (CNoneOf ["|"]%char)); Lit "|";
        Grp 4 (plus (CNoneOf ["]"]%char)); Lit "]"; star CSpace;
        Lit dq; Grp 5 (star (CNoneOf [quote])); Lit dq; plus CSpace;
        Grp 6 (plus CNonSpace); plus CSpace; Grp 7 (plus CDigit); plus CSpace;
        Grp 8 (plus CNonSpace); plus CSpace; Grp 9 (plus_lazy CDot); Lit ";"].

(** [SIG_VALTYPE_\s+(\d+)\s+(\S+)\s*:\s*(\d+)\s*;] *)
Definition sig_valtype_pattern : regex :=
  rseq [Lit "SIG_VALTYPE_"; plus CSpace; Grp 1 (plus CDigit); plus CSpace;
        Grp 2 (plus CNonSpace); star CSpace; Lit ":"; star CSpace;
        Grp 3 (plus CDigit); star CSpace; Lit ";"].

(** ** The whole parser state *)

Module EnvVar.
(** The dictionary built for every environment variable. *)
Record t : Type := mk {
  name : string;
  type : string;
  min : string;
  max : string;
  unit : string;
  default : string;
  access : string;
  nodes : string;
  comment : string
}.
End EnvVar.

(** An attribute definition
    [(scope, name, type_str, min_val, max_val, enum_vals)]. *)
Definition ba_def_rec : Type := utext * string * utext * string * string * string.

Module Full.

(** All the fields of a [DbcParser] object: [core] holds the fields of the
    six passes above; the dictionaries [value_tables] and
    [extra_transmitters], whose items the writer iterates, come with the
    order of their keys. *)
Record t : Type := mk {
  core : DbcParser;
  value_tables_keys : list string;
  nodes : list string;
  ba_defs : list ba_def_rec;
  extra_transmitters : gmap Z (list string);
  extra_transmitters_keys : list Z;
  env_vars : list EnvVar.t;
  signal_value_types : gmap (Z * string) Z
}.

(** [DbcParser.__init__] *)
Definition init : t := mk init [] [] [] ∅ [] [] ∅.

Definition with_core (self : t) (v : DbcParser) : t :=
  mk v (value_tables_keys self) (nodes self) (ba_defs self)
    (extra_transmitters self) (extra_transmitters_keys self) (env_vars self)
    (signal_value_types self).

(** A pass that only touches the fields of [core]. *)
Definition lift (pass : DbcParser → option DbcParser) (self : t) : option t :=
  with_core self <$> pass (core self).

(** [_parse_nodes] *)
Definition _parse_nodes (content : string) (self : t) : option t :=
  match search nodes_pattern content with
  | Some m =>
      let nodes_str := strip (group m 1) in
      if decide (nodes_str ≠ "") then
        Some (mk (core self) (value_tables_keys self) (stripped (split nodes_str))
                (ba_defs self) (extra_transmitters self)
                (extra_transmitters_keys self) (env_vars self)
                (signal_value_types self))
      else Some self
  | None => Some self
  end.

(** [self.value_tables[table_name] = d] *)
Definition set_value_table (table_name : string) (d : gmap Z string) (self : t) : t :=
  mk (with_value_tables (core self) (<[table_name := d]> (value_tables (core self))))
    (note_key table_name (value_tables_keys self)) (nodes self) (ba_defs self)
    (extra_transmitters self) (extra_transmitters_keys self) (env_vars self)
    (signal_value_types self).

(** [_parse_value_tables], keeping the order of the keys. *)
Definition _parse_value_tables (content : string) (self : t) : option t :=
  for_each (finditer val_table_pattern content)
    (λ self m,
       let table_name := group m 1 in
       let values_str := group m 2 in
       d ← _parse_value_dict values_str;
       Some (set_value_table table_name d self))
    self.

(** The scope of an attribute definition from the optional first group. *)
Definition ba_def_scope (scope_raw : string) : utext :=
  let scope :=
    if decide (scope_raw ≠ "") then upper (strip_with (ascii_eqb "_") scope_raw)
    else codes "GLOBAL" in
  if decide (scope = codes "BO") then codes "MESSAGE"
  else if decide (scope = codes "BU") then codes "NODE"
  else if decide (scope = codes "SG") then codes "SIGNAL"
  else if decide (scope = codes "EV") then codes "ENV"
  else scope.

(** The record built from one match of [ba_def_pattern]. *)
Definition ba_def_of_match (m : Match) : ba_def_rec :=
  let scope_raw := default "" (m_groups m !! 1%nat) in
  let scope := ba_def_scope scope_raw in
  let name := group m 2 in
  let type_str := upper (group m 3) in
  let params := strip (group m 4) in
  let '(min_val, max_val, enum_vals) :=
    if decide (type_str ∈ [codes "INT"; codes "HEX"; codes "FLOAT"]) then
      let parts := split params in
      if decide (2 ≤ length parts)%nat then (part parts 0, part parts 1, "")
      else ("", "", "")
    else if decide (type_str = codes "ENUM") then ("", "", params)
    else ("", "", "") in
  (scope, name, type_str, min_val, max_val, enum_vals).

(** [_parse_ba_defs] *)
Definition _parse_ba_defs (content : string) (self : t) : option t :=
  for_each (finditer ba_def_pattern content)
    (λ self m,
       Some (mk (core self) (value_tables_keys self) (nodes self)
               (ba_defs self ++ [ba_def_of_match m])%list
               (extra_transmitters self) (extra_transmitters_keys self)
               (env_vars self) (signal_value_types self)))
    self.

(** The body of the loop of [_parse_extra_transmitters]. *)
Definition extra_tx_step (self : t) (m : Match) : option t :=
  msg_id_raw ← py_int (group m 1);
  let msg_id := normalize_id msg_id_raw in
  let transmitters_str := strip (group m 2) in
  let transmitters := name_list transmitters_str in
  Some (mk (core self) (value_tables_keys self) (nodes self) (ba_defs self)
          (<[msg_id := transmitters]> (extra_transmitters self))
          (note_key msg_id (extra_transmitters_keys self))
          (env_vars self) (signal_value_types self)).

(** [_parse_extra_transmitters] *)
Definition _parse_extra_transmitters (content : string) (self : t) : option t :=
  for_each (finditer extra_tx_pattern content) extra_tx_step self.

(** The dictionary built from one match of [env_var_pattern]. *)
Definition env_var_of_match (m : Match) : EnvVar.t :=
  {| EnvVar.name := group m 1;
     EnvVar.type := group m 2;
     EnvVar.min := strip (group m 3);
     EnvVar.max := strip (group m 4);
     EnvVar.unit := group m 5;
     EnvVar.default := group m 6;
     EnvVar.access := group m 7;
     EnvVar.nodes :=
       if decide (8 < group_count env_var_pattern)%nat then strip (group m 9)
       else "";
     EnvVar.comment := "" |}.

(** [_parse_env_vars] *)
Definition _parse_env_vars (content : string) (self : t) : option t :=
  for_each (finditer env_var_pattern content)
    (λ self m,
       Some (mk (core self) (value_tables_keys self) (nodes self) (ba_defs self)
               (extra_transmitters self) (extra_transmitters_keys self)
               (env_vars self ++ [env_var_of_match m])%list
               (signal_value_types self)))
    self.

(** The body of the loop of [_parse_signal_value_types]. *)
Definition sig_valtype_step (self : t) (m : Match) : option t :=
  msg_id_raw ← py_int (group m 1);
  let msg_id := normalize_id msg_id_raw in
  let sig_name := group m 2 in
  val_type ← py_int (group m 3);
  Some (mk (core self) (value_tables_keys self) (nodes self) (ba_defs self)
          (extra_transmitters self) (extra_transmitters_keys self)
          (env_vars self)
          (<[(msg_id, sig_name) := val_type]> (signal_value_types self))).

(** [_parse_signal_value_types] *)
Definition _parse_signal_value_types (content : string) (self : t) : option t :=
  for_each (finditer sig_valtype_pattern content) sig_valtype_step self.

(** [DbcParser.parse] on the text [content] of the file: the eleven passes
    in the order of the source. *)
Definition parse (content : string) (self : t) : option t :=
  self ← _parse_nodes content self;
  self ← _parse_value_tables content self;
  self ← lift (_parse_messages_and_signals content) self;
  self ← lift (_parse_signal_val_entries content) self;
  self ← lift (_parse_env_var_val_entries content) self;
  self ← lift (_parse_comments content) self;
  self ← _parse_ba_defs content self;
  self ← lift (_parse_ba_assignments content) self;
  self ← _parse_extra_transmitters content self;
  self ← _parse_env_vars content self;
  _parse_signal_value_types content self.

End Full.

(** ** The writer

    [create_excel_from_dbc] hands rows of cells to the sheets of a workbook;
    the model is the rows handed to each sheet, in order. What the workbook
    library does with them, the styling of the header cells and the summary
    that is printed are not modelled. *)

Inductive cell : Type :=
| Text (s : string)
| UText (u : utext)
| Int (n : Z).

Definition row : Type := list cell.
Definition sheet : Type := list row.
Definition workbook : Type := list (string * sheet).

Definition nodes_sheet (parser : Full.t) : sheet :=
  [Text "NodeName"] :: ((λ node, [Text node]) <$> Full.nodes parser).

Definition value_tables_sheet (parser : Full.t) : sheet :=
  [Text "TableName";
   Text ("Values (format: key:" ++ dq ++ "value" ++ dq ++ " key:" ++ dq ++ "value"
         ++ dq ++ ")")]
  :: ((λ '(table_name, values), [Text table_name; Text (format_pairs values)])
      <$> items (value_tables (Full.core parser)) (Full.value_tables_keys parser)).

Definition message_row (msg : Msg.t) : row :=
  [Text (Msg.id_hex msg); Text (Msg.name msg); Int (Msg.dlc msg);
   Text (Msg.transmitter msg);
   Text (if Msg.is_extended msg then "TRUE" else "FALSE"); Text ""].

Definition messages_sheet (parser : Full.t) : sheet :=
  [Text "MessageID"; Text "MessageName"; Text "DLC"; Text "Transmitter";
   Text "IsExtended"; Text "Comment"]
  :: (message_row <$> messages (Full.core parser)).

Definition signal_row (parser : Full.t) (msg_id : Z) (sig : Sig.t) : row :=
  let value_table_name :=
    match signal_value_tables (Full.core parser) !! (msg_id, Sig.name sig) with
    | Some vtable => format_pairs vtable
    | None => ""
    end in
  [Text ("0x" ++ py_hex msg_id); Text (Sig.name sig); Int (Sig.start_bit sig);
   Int (Sig.length sig); Text (Sig.byte_order_sign sig);
   Text (Sig.factor_offset sig); Text (Sig.min_max sig); Text (Sig.unit sig);
   Text (Sig.receivers sig); Text ""; Text ""; Text ""; Text "";
   Text (Sig.multiplexing sig); Text value_table_name].

(** [sorted(parser.signals.keys())] *)
Definition sorted_keys (sg : gmap Z (list Sig.t)) : list Z :=
  merge_sort Z.le (elements (dom sg)).

Definition signal_rows (parser : Full.t) : list row :=
  msg_id ← sorted_keys (signals (Full.core parser));
  signal_row parser msg_id <$> default [] (signals (Full.core parser) !! msg_id).

Definition signals_sheet (parser : Full.t) : sheet :=
  [Text "MessageID"; Text "SignalName"; Text "StartBit"; Text "Length";
   Text "ByteOrder@Sign"; Text "Factor,Offset"; Text "Min|Max"; Text "Unit";
   Text "Receivers"; Text "Comment"; Text "InitialValue"; Text "ValueType";
   Text "SendType"; Text "Multiplexing"; Text "ValueTable"]
  :: signal_rows parser.

Definition extra_transmitters_sheet (parser : Full.t) : sheet :=
  [Text "MessageID"; Text "AdditionalTransmitters"]
  :: ((λ '(msg_id, transmitters), [Text ("0x" ++ py_hex msg_id); Text (join "," transmitters)])
      <$> items (Full.extra_transmitters parser) (Full.extra_transmitters_keys parser)).

(** [{'0': 'INT', '1': 'FLOAT', '2': 'STRING'}] *)
Definition env_types : gmap string string :=
  {[ "0" := "INT"; "1" := "FLOAT"; "2" := "STRING" ]}.

Definition env_var_row (env : EnvVar.t) : row :=
  let env_type := default "INT" (env_types !! EnvVar.type env) in
  [Text (EnvVar.name env); Text env_type; Text (EnvVar.min env);
   Text (EnvVar.max env); Text (EnvVar.default env); Text (EnvVar.unit env);
   Text (EnvVar.nodes env); Text ""; Text ""].

Definition env_vars_sheet (parser : Full.t) : sheet :=
  [Text "Name"; Text "Type"; Text "Min"; Text "Max"; Text "Default"; Text "Unit";
   Text "Nodes"; Text "DataLength"; Text "Comment"]
  :: (env_var_row <$> Full.env_vars parser).

Definition ba_def_sheet (parser : Full.t) : sheet :=
  [Text "Scope"; Text "PropertyName"; Text "Type"; Text "Min"; Text "Max";
   Text "EnumValues"]
  :: ((λ '(scope, name, type_str, min_val, max_val, enum_vals),
        [UText scope; Text name; UText type_str; Text min_val; Text max_val;
         Text enum_vals])
      <$> Full.ba_defs parser).

Definition ba_sheet (parser : Full.t) : sheet :=
  [Text "Scope"; Text "ScopeIdentifier"; Text "AttributeName"; Text "Value"]
  :: ((λ '(scope, scope_id, attr_name, value),
        [Text scope; Text scope_id; Text attr_name; Text value])
      <$> ba_assignments (Full.core parser)).

Definition comments_sheet (parser : Full.t) : sheet :=
  [Text "Type"; Text "Scope"; Text "Comment"]
  :: ((λ '(comment_type, scope, comment),
        [Text comment_type; Text scope; Text comment])
      <$> comments (Full.core parser)).

(** The sheets of the workbook, in the order of their creation; the last
    five are created only for a collection that is not empty. *)
Definition sheets (parser : Full.t) : workbook :=
  ([("Nodes", nodes_sheet parser);
    ("ValueTables", value_tables_sheet parser);
    ("Messages", messages_sheet parser);
    ("Signals", signals_sheet parser)]
   ++ (if decide (Full.extra_transmitters parser = ∅) then []
       else [("ExtraTransmitters", extra_transmitters_sheet parser)])
   ++ (if decide (Full.env_vars parser = []) then []
       else [("EnvironmentVariables", env_vars_sheet parser)])
   ++ (if decide (Full.ba_defs parser = []) then []
       else [("BA_DEF", ba_def_sheet parser)])
   ++ (if decide (ba_assignments (Full.core parser) = []) then []
       else [("BA", ba_sheet parser)])
   ++ (if decide (comments (Full.core parser) = []) then []
       else [("Comments", comments_sheet parser)]))%list.

(** [create_excel_from_dbc] on the text [content] of the file: the sheets
    and rows that the function hands to the workbook library, in order, or
    [None] when the parser raises. The library checks every cell it is
    handed and raises on a text with a control character; nothing is saved
    then. That check and the saving are not modelled. *)
Definition create_excel_from_dbc (content : string) : option workbook :=
  sheets <$> Full.parse content Full.init.

(** * Vocabulary of the further properties *)

(** ** What each pass computes from the text *)

(** The value dictionary of a text ([_parse_value_dict] never raises). *)
Definition dict_of (values_str : string) : gmap Z string :=
  default ∅ (_parse_value_dict values_str).

(** The list without the later occurrences of its elements. *)
Fixpoint nub {K : Type} `{EqDecision K} (l : list K) : list K :=
  match l with
  | [] => []
  | x :: l' => x :: filter (λ y, y ≠ x) (nub l')
  end.

(** The dictionary that assigning [val a] to [key a] for every [a] of [l],
    in order, makes of [d]. *)
Definition assign_all {A K V : Type} `{Countable K} (key : A → K) (val : A → V)
    (l : list A) (d : gmap K V) : gmap K V :=
  foldl (λ d a, <[key a := val a]> d) d l.

Definition note_all {A K : Type} `{EqDecision K} (key : A → K)
    (l : list A) (keys : list K) : list K :=
  foldl (λ keys a, note_key (key a) keys) keys l.

Definition nodes_of (content : string) : list string :=
  match search nodes_pattern content with
  | Some m => stripped (split (strip (group m 1)))
  | None => []
  end.

Definition table_name_of (m : Match) : string := group m 1.
Definition table_of (m : Match) : gmap Z string := dict_of (group m 2).

Definition value_tables_of (content : string) : gmap string (gmap Z string) :=
  assign_all table_name_of table_of (finditer val_table_pattern content) ∅.

Definition signal_key_of (m : Match) : Z * string :=
  (normalize_id (int_of (group m 1)), group m 2).

Definition signal_value_tables_of (content : string)
    : gmap (Z * string) (gmap Z string) :=
  assign_all signal_key_of (λ m, dict_of (group m 3))
    (finditer signal_val_pattern content) ∅.

Definition env_var_value_tables_of (content : string) : gmap string (gmap Z string) :=
  assign_all table_name_of table_of
    (filter (λ m, isdigit (group m 1) = false) (finditer env_val_pattern content)) ∅.

(** The record of one attribute assignment, [None] when [int()] raises. *)
Definition ba_rec_of (m : Match) : option ba_rec :=
  '(scope, scope_id, value) ← ba_scope (strip (group m 2));
  Some (scope, scope_id, group m 1, strip_quotes (strip value)).

Definition tx_id_of (m : Match) : Z := normalize_id (int_of (group m 1)).
Definition tx_names_of (m : Match) : list string := name_list (strip (group m 2)).

(** The parser that [parse] returns on the text [content], field by
    field. *)
Definition parsed (content : string) : option Full.t :=
  recs ← mapM ba_rec_of (finditer ba_pattern content);
  let st0 := default init (_parse_messages_and_signals content init) in
  Some (Full.mk
          (mkDbcParser (messages st0) (signals st0) (value_tables_of content)
             (signal_value_tables_of content) (env_var_value_tables_of content)
             (comment_records content) recs)
          (nub (table_name_of <$> finditer val_table_pattern content))
          (nodes_of content)
          (Full.ba_def_of_match <$> finditer ba_def_pattern content)
          (assign_all tx_id_of tx_names_of (finditer extra_tx_pattern content) ∅)
          (nub (tx_id_of <$> finditer extra_tx_pattern content))
          (Full.env_var_of_match <$> finditer env_var_pattern content)
          (assign_all signal_key_of (λ m, int_of (group m 3))
             (finditer sig_valtype_pattern content) ∅)).

(** ** Words of a text *)

(** [s] does not start with a character that is not whitespace. *)
Definition at_gap (s : string) : bool :=
  match s with
  | String d _ => is_space d
  | "" => true
  end.

(** The maximal runs of characters that are not whitespace, by recursion
    on the text: what [s.split()] returns. *)
Fixpoint words (s : string) : list string :=
  match s with
  | "" => []
  | String c s' =>
      if is_space c then words s'
      else if at_gap s' then String c "" :: words s'
      else match words s' with
           | t :: ts => String c t :: ts
           | [] => [String c ""]
           end
  end.

(** A character of a name in a comma-separated list. *)
Definition name_char (c : ascii) : bool := nonspace c && negb (ascii_eqb "," c).

(** ** Signals by message *)

(** The signal dictionary of a declaration under the message [k]. *)
Definition signal_of (k : Z) (m : Match) : Sig.t :=
  signal_of_match m (int_of (group m 3)) (int_of (group m 4)) k.

(** The signal declarations for which the backwards search finds [k], in
    the order of the text. *)
Definition declared_under (content : string) (k : Z) : list Match :=
  filter (λ m, last_msg_id content (m_start m) = Some k) (finditer sig_pattern content).

(** ** A sample file *)

(** A text with one declaration of every kind:
    [BU_: ECU1 ECU2]
    [VAL_TABLE_ Tbl 0 qOffq 1 qOnq ;]
    [BO_ 100 Msg1: 8 ECU1]
    [ SG_ SigA : 0|8@1+ (1,0) [0|255] qq ECU1, ECU2]
    [BO_ 2147483848 Msg2: 8 ECU2]
    [ SG_ SigB : 8|8@1+ (1,0) [0|255] qq ECU1]
    [CM_ BO_ 100 qhelloq;]
    [BA_DEF_ BO_ qCycleq INT 0 100;]
    [BA_ qCycleq BO_ 100 q50q;]
    [BO_TX_BU_ 100 : ECU2,ECU1;]
    [EV_ Env1: 0 [0|1] qq 0 1 DUMMY_NODE_VECTOR0 Vector__XXX;]
    [VAL_ 100 SigA 0 qOffq 1 qOnq ;]
    [SIG_VALTYPE_ 100 SigA : 1;] *)
Definition sample_dbc : string :=
  "BU_: ECU1 ECU2" ++ nl
  ++ val_table_line ++ nl
  ++ msg100_line ++ nl
  ++ sigA_line ++ ", ECU2" ++ nl
  ++ "BO_ 2147483848 Msg2: 8 ECU2" ++ nl
  ++ " SG_ SigB : 8|8@1+ (1,0) [0|255] " ++ dq ++ dq ++ " ECU1" ++ nl
  ++ cm_line ++ nl
  ++ "BA_DEF_ BO_ " ++ dq ++ "Cycle" ++ dq ++ " INT 0 100;" ++ nl
  ++ "BA_ " ++ dq ++ "Cycle" ++ dq ++ " BO_ 100 " ++ dq ++ "50" ++ dq ++ ";" ++ nl
  ++ "BO_TX_BU_ 100 : ECU2,ECU1;" ++ nl
  ++ "EV_ Env1: 0 [0|1] " ++ dq ++ dq ++ " 0 1 DUMMY_NODE_VECTOR0 Vector__XXX;" ++ nl
  ++ "VAL_ 100 SigA 0 " ++ dq ++ "Off" ++ dq ++ " 1 " ++ dq ++ "On" ++ dq ++ " ;" ++ nl
  ++ "SIG_VALTYPE_ 100 SigA : 1;" ++ nl.

(** The parser that [parse] returns on the sample. *)
Definition sample_parser : Full.t :=
  default Full.init (Full.parse sample_dbc Full.init).

(** The signal dictionary of the first signal of the sample. *)
Definition sample_signal : Sig.t :=
  signal_of 100 (default (Build_Match 0 0 ∅) (head (finditer sig_pattern sample_dbc))).

(** ** Decimal numerals *)

(** The value of a decimal numeral read after the digits of value [acc]. *)
Fixpoint uint_acc (d : Decimal.uint) (acc : Z) : Z :=
  match d with
  | Decimal.Nil => acc
  | Decimal.D0 l => uint_acc l (10 * acc)
  | Decimal.D1 l => uint_acc l (10 * acc + 1)
  | Decimal.D2 l => uint_acc l (10 * acc + 2)
  | Decimal.D3 l => uint_acc l (10 * acc + 3)
  | Decimal.D4 l => uint_acc l (10 * acc + 4)
  | Decimal.D5 l => uint_acc l (10 * acc + 5)
  | Decimal.D6 l => uint_acc l (10 * acc + 6)
  | Decimal.D7 l => uint_acc l (10 * acc + 7)
  | Decimal.D8 l => uint_acc l (10 * acc + 8)
  | Decimal.D9 l => uint_acc l (10 * acc + 9)
  end.

(** ** The last assignment to a key *)

(** The last element of [l] with the key [k]. *)
Definition last_with {A K : Type} `{EqDecision K} (key : A → K) (l : list A) (k : K)
    : option A :=
  last (filter (λ a, key a = k) l).

(** The value table of the last [VAL_TABLE_] declaration with the name
    [name]. *)
Definition last_table (content : string) (name : string) : gmap Z string :=
  default ∅ (table_of <$> last_with table_name_of (finditer val_table_pattern content) name).

(** The names of the last [BO_TX_BU_] entry for the identifier [k]. *)
Definition last_transmitters (content : string) (k : Z) : list string :=
  default [] (tx_names_of <$> last_with tx_id_of (finditer extra_tx_pattern content) k).

(** ** Messages *)

(** The message dictionary of a declaration. *)
Definition message_of (m : Match) : Msg.t :=
  let raw := int_of (group m 1) in
  {| Msg.id := normalize_id raw;
     Msg.id_hex := "0x" ++ py_hex (normalize_id raw);
     Msg.name := group m 2;
     Msg.dlc := int_of (group m 3);
     Msg.transmitter := group m 4;
     Msg.is_extended := is_extended_id raw;
     Msg.comment := "" |}.

(** ** Lines *)

(** The first line of [s]: the text before its first newline. *)
Definition first_line (s : string) : string := (span_not (ascii_eqb newline) s).1.

(** [BU_:] with an empty node list, a blank line, then a message:
    the nodes are taken from the message declaration. *)
Definition empty_nodes_dbc : string := "BU_:" ++ nl ++ nl ++ msg100_line ++ nl.

(** The second message of the sample. *)
Definition sample_message : Msg.t := Msg.mk 200 "0xC8" "Msg2" 8 "ECU2" true "".

(** * Properties *)

#[local] Set Warnings "-clear-no-such-hyp".

(** ** Strings *)

#[local] Arguments String.append !_ _ / : simpl nomatch.

Section StringFacts.
Implicit Types s t w : string.

Lemma str_app_nil_r s : s ++ "" = s.
Proof. induction s as [|c s IH]; simpl; [done | by rewrite IH]. Qed.

Lemma str_app_assoc s t w : (s ++ t) ++ w = s ++ t ++ w.
Proof. induction s as [|c s IH]; simpl; [done | by rewrite IH]. Qed.

Lemma str_length_app s t :
  String.length (s ++ t) = (String.length s + String.length t)%nat.
Proof. induction s as [|c s IH]; simpl; [done | by rewrite IH]. Qed.

Lemma take_app_length w s : take_str (String.length w) (w ++ s) = w.
Proof. induction w as [|c w IH]; simpl; [done | by rewrite IH]. Qed.

Lemma take_drop n s : take_str n s ++ drop_str n s = s.
Proof.
  revert s; induction n as [|n IH]; intros [|c s]; simpl; try done.
  by rewrite IH.
Qed.

Lemma consumed_app w s : consumed (w ++ s) s = w.
Proof.
  unfold consumed. rewrite str_length_app.
  replace (String.length w + String.length s - String.length s)%nat
    with (String.length w) by lia.
  apply take_app_length.
Qed.

Lemma ascii_eqb_eq a b : ascii_eqb a b = true ↔ a = b.
Proof. apply Ascii.eqb_eq. Qed.

Lemma strip_prefix_Some t s s' : strip_prefix t s = Some s' ↔ s = t ++ s'.
Proof.
  revert s; induction t as [|a t IH]; intros s; simpl.
  - split; [by intros [= ->] | by intros ->].
  - destruct s as [|b s]; [split; discriminate |].
    destruct (ascii_eqb a b) eqn:E.
    + apply ascii_eqb_eq in E as ->. rewrite IH. split; [by intros -> | by intros [= ->]].
    + split; [discriminate |]. intros [= -> _].
      unfold ascii_eqb in E. by rewrite Ascii.eqb_refl in E.
Qed.

Lemma strip_prefix_app t s : strip_prefix t (t ++ s) = Some s.
Proof. by apply strip_prefix_Some. Qed.

Lemma forallb_str_app p s t :
  forallb_str p (s ++ t) = forallb_str p s && forallb_str p t.
Proof.
  induction s as [|c s IH]; simpl; [done |].
  by rewrite IH, andb_assoc.
Qed.

Lemma str_app_inv_head w s t : w ++ s = w ++ t → s = t.
Proof. induction w as [|c w IH]; simpl; [done | intros [= ?]; auto]. Qed.

Lemma str_app_length_inv s1 t1 s2 t2 :
  s1 ++ t1 = s2 ++ t2 → String.length s1 = String.length s2 →
  s1 = s2 ∧ t1 = t2.
Proof.
  revert s2; induction s1 as [|c s1 IH]; intros [|d s2]; simpl; try done.
  intros [= -> H] [= Hl]. destruct (IH _ H Hl) as [-> ->]. done.
Qed.

Lemma str_app_inv_tail s s' t : s ++ t = s' ++ t → s = s'.
Proof.
  intros H. apply (str_app_length_inv _ _ _ _ H).
  apply (f_equal String.length) in H. rewrite !str_length_app in H. lia.
Qed.
End StringFacts.

(** ** The matcher against its declarative reading *)

Section MatcherFacts.
Context {R : Type}.
Implicit Types (k : string → option R) (x : R).

Lemma rep_greedy_sound cl lo s k x :
  rep_greedy cl lo s k = Some x →
  ∃ w s', s = w ++ s' ∧ forallb_str (cmatch cl) w = true ∧
          (lo ≤ String.length w)%nat ∧ k s' = Some x.
Proof.
  revert lo; induction s as [|c s IH]; intros lo; simpl.
  - destruct lo; [|done]. intros H. by exists "", "".
  - assert (Hstop : match lo with O => k (String c s) | S _ => None end = Some x →
      ∃ w s', String c s = w ++ s' ∧ forallb_str (cmatch cl) w = true ∧
              (lo ≤ String.length w)%nat ∧ k s' = Some x).
    { destruct lo; [|done]. intros H. by exists "", (String c s). }
    destruct (cmatch cl c) eqn:Hc; [|done].
    destruct (rep_greedy cl (pred lo) s k) as [y|] eqn:Hrec; [|done].
    intros [= ->]. destruct (IH _ Hrec) as (w & s' & -> & Hw & Hlo & Hk).
    exists (String c w), s'. simpl. rewrite Hc, Hw. repeat split; [lia | done].
Qed.

Lemma rep_lazy_sound cl lo s k x :
  rep_lazy cl lo s k = Some x →
  ∃ w s', s = w ++ s' ∧ forallb_str (cmatch cl) w = true ∧
          (lo ≤ String.length w)%nat ∧ k s' = Some x.
Proof.
  revert lo; induction s as [|c s IH]; intros lo.
  - destruct lo; simpl; [|done].
    destruct (k "") eqn:Hk; [|done]. intros [= ->]. by exists "", "".
  - assert (Hmore : ∀ lo', (lo' ≤ lo)%nat → (lo ≤ S lo')%nat →
      (if cmatch cl c then rep_lazy cl lo' s k else None) = Some x →
      ∃ w s', String c s = w ++ s' ∧ forallb_str (cmatch cl) w = true ∧
              (lo ≤ String.length w)%nat ∧ k s' = Some x).
    { intros lo' ? ?. destruct (cmatch cl c) eqn:Hc; [|done]. intros Hrec.
      destruct (IH _ Hrec) as (w & s' & -> & Hw & Hlo & Hk).
      exists (String c w), s'. simpl. rewrite Hc, Hw. repeat split; [lia | done]. }
    destruct lo as [|lo']; simpl.
    + destruct (k (String c s)) eqn:Hk.
      * intros [= ->]. by exists "", (String c s).
      * apply Hmore; lia.
    + apply Hmore; lia.
Qed.

Lemma rep_greedy_complete cl lo w s k :
  forallb_str (cmatch cl) w = true → (lo ≤ String.length w)%nat →
  is_Some (k s) → is_Some (rep_greedy cl lo (w ++ s) k).
Proof.
  revert lo; induction w as [|c w IH]; intros lo Hw Hlo Hk; simpl in *.
  - assert (lo = O) as -> by lia.
    destruct s as [|c s]; simpl; [done |].
    destruct (cmatch cl c); [|done].
    by destruct (rep_greedy cl 0 s k).
  - apply andb_true_iff in Hw as [Hc Hw]. rewrite Hc.
    destruct (IH (pred lo) Hw ltac:(lia) Hk) as [y ->]. done.
Qed.

Lemma rep_lazy_complete cl lo w s k :
  forallb_str (cmatch cl) w = true → (lo ≤ String.length w)%nat →
  is_Some (k s) → is_Some (rep_lazy cl lo (w ++ s) k).
Proof.
  revert lo; induction w as [|c w IH]; intros lo Hw Hlo Hk; simpl in *.
  - assert (lo = O) as -> by lia.
    destruct Hk as [y Hy]. destruct s; simpl; by rewrite Hy.
  - apply andb_true_iff in Hw as [Hc Hw]. rewrite Hc.
    destruct lo as [|lo'].
    + destruct (k (String c (w ++ s))); [done |]. apply IH; [done | lia | done].
    + apply IH; [done | lia | done].
Qed.
End MatcherFacts.

Section RmatchFacts.
Context {R : Type}.
Implicit Types (k : string → groups → option R) (x : R).

(** Whatever the matcher answers was reached through one of the ways the
    pattern can match. *)
Lemma rmatch_sound r s g k x :
  rmatch r s g k = Some x →
  ∃ s' g', Matches r s g s' g' ∧ k s' g' = Some x.
Proof.
  revert s g k. induction r as [|t|cl|gr lo cl|r IH|r1 IH1 r2 IH2|r1 IH1 r2 IH2|n r IH];
    intros s g k; simpl.
  - intros H. exists s, g. split; [constructor | done].
  - destruct (strip_prefix t s) as [s'|] eqn:E; [|done].
    apply strip_prefix_Some in E as ->. intros H.
    exists s', g. split; [constructor | done].
  - destruct s as [|c s]; [done |].
    destruct (cmatch cl c) eqn:Hc; [|done]. intros H.
    exists s, g. split; [by constructor | done].
  - destruct gr; intros H.
    + apply rep_greedy_sound in H as (w & s' & -> & Hw & Hlo & Hk).
      exists s', g. split; [by constructor | done].
    + apply rep_lazy_sound in H as (w & s' & -> & Hw & Hlo & Hk).
      exists s', g. split; [by constructor | done].
  - destruct (rmatch r s g k) as [y|] eqn:E.
    + intros [= ->]. destruct (IH _ _ _ E) as (s' & g' & HM & Hk).
      exists s', g'. split; [by apply M_OptY | done].
    + intros H. exists s, g. split; [apply M_OptN | done].
  - destruct (rmatch r1 s g k) as [y|] eqn:E.
    + intros [= ->]. destruct (IH1 _ _ _ E) as (s' & g' & HM & Hk).
      exists s', g'. split; [by apply M_AltL | done].
    + intros H. destruct (IH2 _ _ _ H) as (s' & g' & HM & Hk).
      exists s', g'. split; [by apply M_AltR | done].
  - intros H. destruct (IH1 _ _ _ H) as (s1 & g1 & HM1 & H1).
    destruct (IH2 _ _ _ H1) as (s2 & g2 & HM2 & H2).
    exists s2, g2. split; [by eapply M_Cat | done].
  - intros H. destruct (IH _ _ _ H) as (s' & g' & HM & Hk).
    eexists _, _. split; [by apply M_Grp | done].
Qed.

(** When the pattern can match in a way its continuation accepts, the
    matcher answers. *)
Lemma rmatch_complete r s g s' g' k :
  Matches r s g s' g' → is_Some (k s' g') → is_Some (rmatch r s g k).
Proof.
  intros HM. revert k.
  induction HM as [s g|t s g|cl c s g Hc|gr lo cl w s g Hw Hlo
                  |r s g s' g' HM IH|r s g
                  |r1 r2 s g s' g' HM IH|r1 r2 s g s' g' HM IH
                  |r1 r2 s g s1 g1 s2 g2 HM1 IH1 HM2 IH2
                  |n r s g s' g' HM IH]; intros k Hk; simpl.
  - done.
  - by rewrite strip_prefix_app.
  - by rewrite Hc.
  - destruct gr; [by apply rep_greedy_complete | by apply rep_lazy_complete].
  - by destruct (IH k Hk) as [y ->].
  - by destruct (rmatch r s g k).
  - by destruct (IH k Hk) as [y ->].
  - destruct (rmatch r1 s g k); [done | by apply IH].
  - apply IH1. by apply IH2.
  - by apply IH.
Qed.
End RmatchFacts.

(** What is left after a match is a suffix of the input. *)
Lemma Matches_suffix r s g s' g' :
  Matches r s g s' g' → ∃ w, s = w ++ s'.
Proof.
  induction 1 as [s g|t s g|cl c s g Hc|gr lo cl w s g Hw Hlo
                 |r s g s' g' HM IH|r s g
                 |r1 r2 s g s' g' HM IH|r1 r2 s g s' g' HM IH
                 |r1 r2 s g s1 g1 s2 g2 HM1 IH1 HM2 IH2
                 |n r s g s' g' HM IH];
    try done; try (by exists ""); try (by eexists).
  - by exists (String c "").
  - destruct IH1 as [w1 ->], IH2 as [w2 ->]. exists (w1 ++ w2). by rewrite str_app_assoc.
Qed.

(** A match is not disturbed by text appended to the input. *)
Lemma Matches_app r s g s' g' t :
  Matches r s g s' g' → Matches r (s ++ t) g (s' ++ t) g'.
Proof.
  induction 1 as [s g|u s g|cl c s g Hc|gr lo cl w s g Hw Hlo
                 |r s g s' g' HM IH|r s g
                 |r1 r2 s g s' g' HM IH|r1 r2 s g s' g' HM IH
                 |r1 r2 s g s1 g1 s2 g2 HM1 IH1 HM2 IH2
                 |n r s g s' g' HM IH].
  - constructor.
  - rewrite str_app_assoc. constructor.
  - simpl. by constructor.
  - rewrite str_app_assoc. by constructor.
  - by apply M_OptY.
  - apply M_OptN.
  - by apply M_AltL.
  - by apply M_AltR.
  - by eapply M_Cat.
  - destruct (Matches_suffix _ _ _ _ _ HM) as [w ->].
    rewrite consumed_app.
    replace w with (consumed ((w ++ s') ++ t) (s' ++ t)) at 2
      by (rewrite str_app_assoc; apply consumed_app).
    by apply M_Grp.
Qed.

(** A match that leaves the appended text [t] untouched is a match of the
    text before [t]. *)
Lemma Matches_trunc r u g u' g' :
  Matches r u g u' g' →
  ∀ s s' t, u = s ++ t → u' = s' ++ t → Matches r s g s' g'.
Proof.
  induction 1 as [s0 g|v s0 g|cl c s0 g Hc|gr lo cl w s0 g Hw Hlo
                 |r s0 g s0' g' HM IH|r s0 g
                 |r1 r2 s0 g s0' g' HM IH|r1 r2 s0 g s0' g' HM IH
                 |r1 r2 s0 g s1 g1 s2 g2 HM1 IH1 HM2 IH2
                 |n r s0 g s0' g' HM IH]; intros s s' t Hs Hs'.
  - subst. apply str_app_inv_tail in Hs' as ->. constructor.
  - subst. rewrite <- str_app_assoc in Hs. apply str_app_inv_tail in Hs as <-. constructor.
  - subst. change (String c (s' ++ t)) with (String c s' ++ t) in Hs.
    apply str_app_inv_tail in Hs as <-. by constructor.
  - subst. rewrite <- str_app_assoc in Hs. apply str_app_inv_tail in Hs as <-.
    by constructor.
  - apply M_OptY. by eapply IH.
  - subst. apply str_app_inv_tail in Hs' as ->. apply M_OptN.
  - apply M_AltL. by eapply IH.
  - apply M_AltR. by eapply IH.
  - destruct (Matches_suffix _ _ _ _ _ HM2) as [w2 Hw2].
    subst s0 s2 s1. apply (M_Cat _ _ _ _ (w2 ++ s') g1).
    + apply (IH1 _ _ t); [done | by rewrite str_app_assoc].
    + apply (IH2 _ _ t); [by rewrite str_app_assoc | done].
  - destruct (Matches_suffix _ _ _ _ _ HM) as [w Hw]. subst.
    rewrite <- str_app_assoc in Hw. apply str_app_inv_tail in Hw as ->.
    rewrite str_app_assoc, consumed_app.
    replace w with (consumed (w ++ s') s') at 2 by apply consumed_app.
    apply M_Grp. eapply IH; [|done]. by rewrite str_app_assoc.
Qed.

Lemma Matches_min_len r s g s' g' :
  Matches r s g s' g' → (String.length s' + min_len r ≤ String.length s)%nat.
Proof.
  induction 1; simpl; rewrite ?str_length_app; lia.
Qed.

(** No pattern of the source matches the empty text: the scan never meets
    an empty match. *)
Lemma patterns_consume r s rest g :
  r ∈ patterns → match_at r s = Some (rest, g) →
  (String.length rest < String.length s)%nat.
Proof.
  intros Hr H.
  destruct (rmatch_sound _ _ _ _ _ H) as (s' & g' & HM & [= -> ->]).
  apply Matches_min_len in HM.
  assert (0 < min_len r)%nat; [|lia].
  unfold patterns in Hr. repeat (apply elem_of_cons in Hr as [->|Hr]; [vm_compute; lia |]).
  by apply elem_of_nil in Hr.
Qed.

(** ** Matches found by the scan *)

Lemma drop_str_cons j c s : drop_str (S j) (String c s) = drop_str j s.
Proof. done. Qed.

(** Every match reported by the scan is the answer of the matcher at some
    offset of the text, past the characters to skip. *)
Lemma scan_elem r skip pos s m :
  m ∈ scan r skip pos s →
  ∃ j rest, (skip ≤ j < String.length s)%nat ∧
    match_at r (drop_str j s) = Some (rest, m_groups m) ∧
    m_start m = (pos + j)%nat ∧
    m_end m = (pos + j + (String.length (drop_str j s) - String.length rest))%nat.
Proof.
  revert skip pos. induction s as [|c s IH]; intros skip pos; simpl.
  - by intros ?%elem_of_nil.
  - destruct skip as [|skip].
    + destruct (match_at r (String c s)) as [[rest g]|] eqn:E.
      * intros [->|Hin]%elem_of_cons.
        -- exists O, rest. simpl. rewrite E. repeat split; lia.
        -- destruct (IH _ _ Hin) as (j & rest' & Hj & Hm & Hs & He).
           exists (S j), rest'. rewrite drop_str_cons. repeat split; simpl; try lia; done.
      * intros Hin. destruct (IH _ _ Hin) as (j & rest' & Hj & Hm & Hs & He).
        exists (S j), rest'. rewrite drop_str_cons. repeat split; simpl; try lia; done.
    + intros Hin. destruct (IH _ _ Hin) as (j & rest' & Hj & Hm & Hs & He).
      exists (S j), rest'. rewrite drop_str_cons. repeat split; simpl; try lia; done.
Qed.

(** Every match of [finditer] is one of the ways the pattern matches. *)
Lemma finditer_Matches r s m :
  m ∈ finditer r s →
  ∃ j rest, (j < String.length s)%nat ∧ m_start m = j ∧
    Matches r (drop_str j s) ∅ rest (m_groups m).
Proof.
  intros (j & rest & Hj & Hm & Hs & _)%scan_elem.
  apply rmatch_sound in Hm as (s' & g' & HM & [= <- <-]).
  exists j, s'. repeat split; [lia | done | done].
Qed.

(** ** Captured groups *)

Lemma Matches_captures P r s g s' g' :
  captures_ok P r → Matches r s g s' g' →
  (∀ n w, g !! n = Some w → P n w) → ∀ n w, g' !! n = Some w → P n w.
Proof.
  intros Hok HM. revert Hok.
  induction HM as [s g|t s g|cl c s g Hc|gr lo cl w s g Hw Hlo
                  |r s g s' g' HM IH|r s g
                  |r1 r2 s g s' g' HM IH|r1 r2 s g s' g' HM IH
                  |r1 r2 s g s1 g1 s2 g2 HM1 IH1 HM2 IH2
                  |n r s g s' g' HM IH]; simpl; intros Hok Hg; try done.
  - by apply IH.
  - apply IH; [by destruct Hok | done].
  - apply IH; [by destruct Hok | done].
  - destruct Hok as [Hok1 Hok2]. apply IH2; [done |]. by apply IH1.
  - destruct Hok as [Hn Hok]. intros n' w.
    destruct (decide (n = n')) as [<-|Hne].
    + rewrite lookup_insert_eq. intros [= <-]. by eapply Hn.
    + rewrite lookup_insert_ne by done. by apply IH.
Qed.

Lemma Matches_keeps r s g s' g' n :
  Matches r s g s' g' → is_Some (g !! n) → is_Some (g' !! n).
Proof.
  induction 1; try done; auto.
  intros Hg. destruct (decide (n0 = n)) as [->|Hne].
  - rewrite lookup_insert_eq. by eexists.
  - rewrite lookup_insert_ne by done. auto.
Qed.

Lemma Matches_sets r s g s' g' n :
  Matches r s g s' g' → sets n r = true → is_Some (g' !! n).
Proof.
  induction 1 as [s g|t s g|cl c s g Hc|gr lo cl w s g Hw Hlo
                 |r s g s' g' HM IH|r s g
                 |r1 r2 s g s' g' HM IH|r1 r2 s g s' g' HM IH
                 |r1 r2 s g s1 g1 s2 g2 HM1 IH1 HM2 IH2
                 |n' r s g s' g' HM IH]; simpl; try done.
  - intros [? _]%andb_true_iff. auto.
  - intros [_ ?]%andb_true_iff. auto.
  - intros [?|?]%orb_true_iff; [|auto].
    eapply Matches_keeps; [done | auto].
  - intros [Hn|?]%orb_true_iff.
    + apply bool_decide_eq_true in Hn as <-. rewrite lookup_insert_eq. by eexists.
    + destruct (decide (n' = n)) as [->|Hne].
      * rewrite lookup_insert_eq. by eexists.
      * rewrite lookup_insert_ne by done. auto.
Qed.

(** A group that every match captures, and whose captures satisfy [Q],
    reads as a text satisfying [Q] on every match of [finditer]. *)
Lemma finditer_group (Q : string → Prop) n r s m :
  captures_ok (λ n' w, n' = n → Q w) r → sets n r = true →
  m ∈ finditer r s → Q (group m n).
Proof.
  intros Hok Hsets (j & rest & _ & _ & HM)%finditer_Matches.
  destruct (Matches_sets _ _ _ _ _ n HM Hsets) as [w Hw].
  unfold group. rewrite Hw. simpl.
  eapply (Matches_captures _ _ _ _ _ _ Hok HM); [|done..].
  intros n' w'. by rewrite lookup_empty.
Qed.

(** ** Reading integers *)

Lemma digit_not_space c : is_digit c = true → is_space c = false.
Proof. destruct c as [[] [] [] [] [] [] [] []]; done. Qed.

Lemma digit_val_nonneg c : is_digit c = true → 0 ≤ digit_val c.
Proof. destruct c as [[] [] [] [] [] [] [] []]; done. Qed.

Lemma lstrip_with_head p c s : p c = false → lstrip_with p (String c s) = String c s.
Proof. intros H. simpl. by rewrite H. Qed.

Lemma rstrip_with_none p s :
  forallb_str (λ c, negb (p c)) s = true → rstrip_with p s = s.
Proof.
  induction s as [|c s IH]; simpl; [done |].
  intros [Hc Hs]%andb_true_iff. rewrite (IH Hs).
  apply negb_true_iff in Hc. rewrite Hc. by destruct s.
Qed.

Lemma forallb_str_impl (p q : ascii → bool) s :
  (∀ c, p c = true → q c = true) →
  forallb_str p s = true → forallb_str q s = true.
Proof.
  intros Hpq. induction s as [|c s IH]; simpl; [done |].
  intros [Hc Hs]%andb_true_iff. by rewrite (Hpq _ Hc), IH.
Qed.

Lemma digit_not_int_space c : is_digit c = true → is_int_space c = false.
Proof. destruct c as [[] [] [] [] [] [] [] []]; done. Qed.

Lemma strip_digits w :
  forallb_str is_digit w = true → strip_with is_int_space w = w.
Proof.
  intros Hw. unfold strip_with.
  assert (lstrip_with is_int_space w = w) as ->.
  { destruct w as [|c w]; [done |]. simpl in Hw.
    apply andb_true_iff in Hw as [Hc _].
    by apply lstrip_with_head, digit_not_int_space. }
  apply rstrip_with_none. revert Hw. apply forallb_str_impl.
  intros c Hc. by rewrite (digit_not_int_space _ Hc).
Qed.

Lemma int_body_digits w acc b :
  forallb_str is_digit w = true → w ≠ "" ∨ b = true → 0 ≤ acc →
  ∃ z, int_body w acc b = Some z ∧ 0 ≤ z.
Proof.
  revert acc b. induction w as [|c w IH]; intros acc b Hw Hne Hacc; simpl in *.
  - destruct Hne as [?| ->]; [done |]. by exists acc.
  - apply andb_true_iff in Hw as [Hc Hw]. rewrite Hc.
    apply IH; [done | by right |]. pose proof (digit_val_nonneg _ Hc). lia.
Qed.

(** [int()] of the text captured by [\d+] never raises and is not negative. *)
Lemma py_int_digits w : digits w → ∃ z, py_int w = Some z ∧ 0 ≤ z.
Proof.
  intros [Hne Hw]. unfold py_int. rewrite (strip_digits _ Hw).
  destruct (int_body_digits w 0 false Hw (or_introl Hne)) as (z & Hz & Hz0); [done |].
  exists z. split; [|done].
  destruct w as [|c w]; [done |]. simpl in Hw.
  apply andb_true_iff in Hw as [Hc _].
  destruct c as [[] [] [] [] [] [] [] []]; try done.
Qed.

(** The same for the text captured by [-?\d+]. *)
Lemma py_int_signed_digits w :
  digits w ∨ (∃ d, w = "-" ++ d ∧ digits d) → is_Some (py_int w).
Proof.
  intros [Hw|(d & -> & Hne & Hd)].
  - destruct (py_int_digits _ Hw) as (z & -> & _). done.
  - unfold py_int.
    assert (strip_with is_int_space ("-" ++ d) = "-" ++ d) as ->.
    { change (strip_with is_int_space ("-" ++ d))
        with (rstrip_with is_int_space ("-" ++ d)).
      apply rstrip_with_none. change ("-" ++ d) with (String "-" d).
      cbn [forallb_str]. apply andb_true_iff. split; [done |].
      revert Hd. apply forallb_str_impl.
      intros c Hc. by rewrite (digit_not_int_space _ Hc). }
    simpl. destruct (int_body_digits d 0 false Hd (or_introl Hne)) as (z & -> & _); done.
Qed.

(** What [\d+] matches is a non-empty run of digits. *)
Lemma Matches_plus_digit s g s' g' :
  Matches (plus CDigit) s g s' g' → digits (consumed s s').
Proof.
  inversion 1 as [| | |gr lo cl w s0 g0 Hw Hlo| | | | | |]; subst.
  rewrite consumed_app. split; [|done]. destruct w; simpl in *; [lia | done].
Qed.

Lemma Matches_signed_digit s g s' g' :
  Matches (rseq [Opt (Lit "-"); plus CDigit]) s g s' g' →
  digits (consumed s s') ∨ ∃ d, consumed s s' = "-" ++ d ∧ digits d.
Proof.
  simpl. inversion 1 as [| | | | | | | |r1 r2 s0 g0 s1 g1 s2 g2 HM1 HM2|]; subst.
  inversion HM2 as [| | | | | | | |r1 r2 s0 g0 s3 g3 s4 g4 HM3 HM4|]; subst.
  inversion HM4; subst.
  pose proof (Matches_plus_digit _ _ _ _ HM3) as Hd.
  destruct (Matches_suffix _ _ _ _ _ HM3) as [w ->].
  rewrite consumed_app in Hd.
  inversion HM1 as [| | | |r s0 g0 s5 g5 HM5| | | | |]; subst.
  - inversion HM5; subst. right. exists w. split; [|done].
    change ("-" ++ w ++ s') with (("-" ++ w) ++ s'). apply consumed_app.
  - left. by rewrite consumed_app.
Qed.

(** ** The limit of [int()]

    Within a text that is [within_int_limit], [int()] with the limit reads
    every piece without whitespace as [py_int] does. *)

Lemma word_digits_ge cur s : (cur ≤ word_digits cur s)%nat.
Proof.
  revert cur. induction s as [|c s IH]; intros cur; simpl; [lia|].
  destruct (is_space c); [lia|].
  specialize (IH (cur + if is_digit c then 1 else 0)%nat). lia.
Qed.

Lemma word_digits_mono s x y :
  (x ≤ y)%nat → (word_digits x s ≤ word_digits y s)%nat.
Proof.
  revert x y. induction s as [|c s IH]; intros x y Hxy; simpl; [done|].
  destruct (is_space c); [lia|]. apply IH. lia.
Qed.

Lemma word_digits_piece cur t b :
  forallb_str nonspace t = true →
  (cur + digit_count t ≤ word_digits cur (t ++ b))%nat.
Proof.
  revert cur. induction t as [|c t IH]; intros cur Ht; simpl.
  - pose proof (word_digits_ge cur b). lia.
  - simpl in Ht. apply andb_true_iff in Ht as [Hc Ht]. unfold nonspace in Hc.
    destruct (is_space c); [done|].
    specialize (IH (cur + if is_digit c then 1 else 0)%nat Ht). lia.
Qed.

Lemma word_digits_skip cur a s :
  (word_digits 0 s ≤ word_digits cur (a ++ s))%nat.
Proof.
  revert cur. induction a as [|c a IH]; intros cur; simpl.
  - apply word_digits_mono. lia.
  - destruct (is_space c); [specialize (IH 0%nat); lia|]. apply IH.
Qed.

Lemma int_limit_piece a t b :
  within_int_limit (a ++ t ++ b) → forallb_str nonspace t = true →
  int_cpython t = py_int t.
Proof.
  unfold within_int_limit, int_cpython. intros Hlim Ht.
  pose proof (word_digits_skip 0 a (t ++ b)).
  pose proof (word_digits_piece 0 t b Ht).
  destruct (decide _) as [|Hn]; [done|]. lia.
Qed.

Lemma int_cpython_limit s :
  (int_max_str_digits < digit_count s)%nat → int_cpython s = None.
Proof. unfold int_cpython. intros H. destruct (decide _); [lia|done]. Qed.

(** A numeral of 4300 digits is read; one of 4301 digits raises, where
    [py_int] answers; and a text with such a numeral is outside
    [within_int_limit]. *)
Example int_limit_ex :
  bool_decide (is_Some (int_cpython (times 4300 "1"))) = true ∧
  int_cpython (times 4301 "1") = None ∧
  bool_decide (is_Some (py_int (times 4301 "1"))) = true ∧
  word_digits 0 ("BO_ " ++ times 4301 "1" ++ " Msg1: 8 ECU1") = 4301%nat.
Proof. split_and!; vm_compute; reflexivity. Qed.

(** ** Loops *)

Lemma for_each_app {A S : Type} (l1 l2 : list A) (body : S → A → option S) st :
  for_each (l1 ++ l2)%list body st = for_each l1 body st ≫= for_each l2 body.
Proof.
  revert st. induction l1 as [|a l1 IH]; intros st; simpl; [done |].
  destruct (body st a); simpl; [apply IH | done].
Qed.

(** ** The integer groups of the patterns *)

Ltac unfold_pattern :=
  cbv [captures_ok msg_pattern sig_pattern value_pair_pattern val_table_pattern
       signal_val_pattern env_val_pattern cm_bo_pattern cm_sg_pattern
       cm_bu_pattern cm_ev_pattern ba_pattern rseq foldr plus star plus_lazy].

Ltac split_captures :=
  unfold_pattern;
  repeat match goal with
         | |- _ ∧ _ => split
         | |- True => exact I
         end.

Ltac solve_captures :=
  split_captures; intros ? ? ? ? HM Hn;
  first [ discriminate Hn
        | by eapply Matches_plus_digit
        | by eapply Matches_signed_digit ].

Lemma msg_group_digits content m :
  m ∈ finditer msg_pattern content → digits (group m 1) ∧ digits (group m 3).
Proof.
  intros Hm. split.
  - apply (finditer_group digits 1 msg_pattern content); [solve_captures | done..].
  - apply (finditer_group digits 3 msg_pattern content); [solve_captures | done..].
Qed.

Lemma sig_group_digits content m :
  m ∈ finditer sig_pattern content → digits (group m 3) ∧ digits (group m 4).
Proof.
  intros Hm. split.
  - apply (finditer_group digits 3 sig_pattern content); [solve_captures | done..].
  - apply (finditer_group digits 4 sig_pattern content); [solve_captures | done..].
Qed.

Lemma value_pair_group_int values_str m :
  m ∈ finditer value_pair_pattern values_str → is_Some (py_int (group m 1)).
Proof.
  intros Hm.
  apply (finditer_group (λ w, is_Some (py_int w)) 1 value_pair_pattern values_str);
    [|done..].
  split_captures; intros ? ? ? ? HM Hn; try discriminate Hn.
  apply py_int_signed_digits. eapply Matches_signed_digit. exact HM.
Qed.

Lemma signal_val_group_digits content m :
  m ∈ finditer signal_val_pattern content → digits (group m 1).
Proof.
  intros Hm.
  apply (finditer_group digits 1 signal_val_pattern content); [solve_captures | done..].
Qed.

Lemma cm_bo_group_digits content m :
  m ∈ finditer cm_bo_pattern content → digits (group m 1).
Proof.
  intros Hm.
  apply (finditer_group digits 1 cm_bo_pattern content); [solve_captures | done..].
Qed.

Lemma cm_sg_group_digits content m :
  m ∈ finditer cm_sg_pattern content → digits (group m 1).
Proof.
  intros Hm.
  apply (finditer_group digits 1 cm_sg_pattern content); [solve_captures | done..].
Qed.

(** ** Value dictionaries *)

Lemma value_dict_loop ms (result : gmap Z string) :
  (∀ m, m ∈ ms → is_Some (py_int (group m 1))) →
  ∃ d, for_each ms value_dict_body result = Some d ∧
       ∀ k, d !! k = match last_value k ms with Some v => Some v | None => result !! k end.
Proof.
  revert result. induction ms as [|m ms IH]; intros result Hint; cbn [for_each last_value].
  - by exists result.
  - destruct (Hint m) as [key Hkey]; [by left |].
    assert (value_dict_body result m = Some (<[key := group m 2]> result)) as ->.
    { unfold value_dict_body. by rewrite Hkey. }
    cbn [mbind option_bind].
    destruct (IH (<[key := group m 2]> result)) as (d & -> & Hd).
    { intros m' Hm'. apply Hint. by right. }
    exists d. split; [done |]. intros k. rewrite Hd.
    destruct (last_value k ms); [done |]. rewrite Hkey.
    destruct (decide (Some key = Some k)) as [[= ->]|Hne].
    + by rewrite lookup_insert_eq.
    + rewrite lookup_insert_ne; [done | congruence].
Qed.

(** [_parse_value_dict] never raises, and a key reads as the value of the
    last pair that has it. *)
Lemma _parse_value_dict_spec values_str :
  ∃ d, _parse_value_dict values_str = Some d ∧
       ∀ k, d !! k = last_value k (finditer value_pair_pattern values_str).
Proof.
  destruct (value_dict_loop (finditer value_pair_pattern values_str) ∅)
    as (d & Hd & Hk).
  { intros m. apply value_pair_group_int. }
  exists d. split; [exact Hd |]. intros k. rewrite Hk.
  destruct (last_value k _); [done | apply lookup_empty].
Qed.

(** ** Messages and signals *)

Lemma find_msg_id_loop ms acc :
  (∀ mm, mm ∈ ms → digits (group mm 1)) →
  for_each ms
    (λ (_ : option Z) mm, raw ← py_int (group mm 1); Some (Some (normalize_id raw)))
    acc
  = Some (match last ms with
          | Some mm => normalize_id <$> py_int (group mm 1)
          | None => acc
          end).
Proof.
  revert acc. induction ms as [|mm ms IH]; intros acc Hd; cbn [for_each]; [done |].
  destruct (py_int_digits (group mm 1)) as (raw & Hraw & _); [apply Hd; by left |].
  rewrite Hraw. cbn [mbind option_bind]. rewrite IH by (intros; apply Hd; by right).
  destruct ms as [|mm' ms]; [simpl; by rewrite Hraw |].
  change (last (mm :: mm' :: ms)) with (last (mm' :: ms)).
  destruct (last (mm' :: ms)) eqn:E; [done |]. by apply last_None in E.
Qed.

(** The backwards search never raises and finds the last declaration. *)
Lemma find_msg_id_spec content pos :
  find_msg_id content pos = Some (last_msg_id content pos).
Proof.
  unfold find_msg_id, last_msg_id.
  rewrite find_msg_id_loop by (intros mm Hmm; eapply msg_group_digits, Hmm).
  by destruct (last _).
Qed.

Lemma last_msg_id_None content pos :
  finditer msg_pattern (take_str pos content) = [] → last_msg_id content pos = None.
Proof. unfold last_msg_id. by intros ->. Qed.

Lemma last_msg_id_Some content pos mm :
  last (finditer msg_pattern (take_str pos content)) = Some mm →
  ∃ raw, py_int (group mm 1) = Some raw ∧ 0 ≤ raw ∧
         last_msg_id content pos = Some (normalize_id raw).
Proof.
  intros Hlast. unfold last_msg_id. rewrite Hlast. cbn [mbind option_bind].
  destruct (py_int_digits (group mm 1)) as (raw & Hraw & H0).
  { eapply msg_group_digits, last_Some_elem_of, Hlast. }
  exists raw. by rewrite Hraw.
Qed.

(** One turn of the signal loop, for a match of the scan: it never raises;
    the signal is appended under the identifier the search finds when that
    identifier is a key, and nothing changes otherwise. *)
Lemma signal_step_spec content self m :
  m ∈ finditer sig_pattern content →
  ∃ start_bit length,
    py_int (group m 3) = Some start_bit ∧ py_int (group m 4) = Some length ∧
    signal_step content self m =
      Some (match last_msg_id content (m_start m) with
            | Some msg_id =>
                match signals self !! msg_id with
                | Some sigs =>
                    with_signals self
                      (<[msg_id := (sigs ++ [signal_of_match m start_bit length msg_id])%list]>
                         (signals self))
                | None => self
                end
            | None => self
            end).
Proof.
  intros [H3 H4]%sig_group_digits.
  destruct (py_int_digits _ H3) as (sb & Hsb & _).
  destruct (py_int_digits _ H4) as (len & Hlen & _).
  exists sb, len. split; [done |]. split; [done |].
  unfold signal_step. rewrite Hsb, Hlen, find_msg_id_spec. cbn [mbind option_bind].
  destruct (last_msg_id content (m_start m)) as [msg_id|]; [|done].
  by destruct (signals self !! msg_id).
Qed.

(** One turn of the message loop, for a match of the scan. *)
Lemma message_step_spec content self m :
  m ∈ finditer msg_pattern content →
  ∃ raw msg,
    py_int (group m 1) = Some raw ∧ 0 ≤ raw ∧
    message_of_match m = Some msg ∧
    Msg.id msg = normalize_id raw ∧ Msg.is_extended msg = is_extended_id raw ∧
    message_step self m =
      Some (with_signals (with_messages self (messages self ++ [msg])%list)
              (<[Msg.id msg := []]> (signals self))).
Proof.
  intros [H1 H3]%msg_group_digits.
  destruct (py_int_digits _ H1) as (raw & Hraw & Hraw0).
  destruct (py_int_digits _ H3) as (dlc & Hdlc & _).
  eexists raw, _. unfold message_step, message_of_match.
  rewrite Hraw, Hdlc. cbn [mbind option_bind]. done.
Qed.

Lemma normalize_id_spec raw msg :
  Msg.id msg = normalize_id raw → Msg.is_extended msg = is_extended_id raw →
  normalized raw msg.
Proof.
  unfold normalized, normalize_id, is_extended_id. intros -> ->.
  destruct (Z.leb_spec 0x80000000 raw); split; intros; (done || lia).
Qed.

Lemma message_loop content l self :
  (∀ m, m ∈ l → m ∈ finditer msg_pattern content) →
  ∃ self' msgs,
    for_each l message_step self = Some self' ∧
    Forall2 recorded l msgs ∧
    messages self' = (messages self ++ msgs)%list ∧
    dom (signals self') = dom (signals self) ∪ msg_ids msgs ∧
    (∀ k, k ∈ msg_ids msgs → signals self' !! k = Some []) ∧
    (∀ k, k ∉ msg_ids msgs → signals self' !! k = signals self !! k) ∧
    value_tables self' = value_tables self ∧
    signal_value_tables self' = signal_value_tables self ∧
    env_var_value_tables self' = env_var_value_tables self ∧
    comments self' = comments self ∧
    ba_assignments self' = ba_assignments self.
Proof.
  revert self. induction l as [|m l IH]; intros self Hl; cbn [for_each].
  - exists self, []. rewrite List.app_nil_r. unfold msg_ids. simpl.
    split_and!; try done; set_solver.
  - destruct (message_step_spec content self m) as (raw & msg & Hraw & _ & Hmsg & Hid & Hext & ->).
    { apply Hl. by left. }
    cbn [mbind option_bind].
    destruct (IH (with_signals (with_messages self (messages self ++ [msg])%list)
                    (<[Msg.id msg := []]> (signals self))))
      as (self' & msgs & -> & HF & Hm & Hdom & Hin & Hout & ? & ? & ? & ? & ?).
    { intros m' Hm'. apply Hl. by right. }
    exists self', (msg :: msgs). simpl in *.
    split; [done |]. split.
    { constructor; [|done]. by exists raw. }
    split; [by rewrite Hm, <- List.app_assoc |].
    unfold msg_ids in *. simpl.
    split; [rewrite Hdom, dom_insert_L; set_solver |].
    split.
    { intros k Hk. destruct (decide (k ∈ (list_to_set (Msg.id <$> msgs) : gset Z))) as [?|Hn];
        [by apply Hin |].
      rewrite Hout by done. assert (k = Msg.id msg) as -> by set_solver.
      apply lookup_insert_eq. }
    split; [|done].
    intros k Hk. rewrite Hout by set_solver. apply lookup_insert_ne. set_solver.
Qed.

Lemma grows_refl a : grows a a.
Proof.
  unfold grows. split_and!; try done.
  intros k sigs ->. exists []. by rewrite List.app_nil_r.
Qed.

Lemma grows_trans a b c : grows a b → grows b c → grows a c.
Proof.
  intros (? & ? & Hab & ? & ? & ? & ? & ?) (? & ? & Hbc & ? & ? & ? & ? & ?).
  unfold grows. split_and!; try congruence.
  intros k sigs Ha. destruct (Hab _ _ Ha) as [m1 Hb].
  destruct (Hbc _ _ Hb) as [m2 Hc]. exists (m1 ++ m2)%list.
  by rewrite Hc, <- List.app_assoc.
Qed.

Lemma grows_append self msg_id sigs sig :
  signals self !! msg_id = Some sigs →
  grows self (with_signals self (<[msg_id := (sigs ++ [sig])%list]> (signals self))).
Proof.
  intros Hk. unfold grows. simpl. split_and!; try done.
  - rewrite dom_insert_L. apply elem_of_dom_2 in Hk. set_solver.
  - intros k sigs' Hk'. destruct (decide (k = msg_id)) as [->|Hne].
    + rewrite lookup_insert_eq. exists [sig]. congruence.
    + rewrite lookup_insert_ne by done. exists []. by rewrite List.app_nil_r.
Qed.

Lemma well_keyed_append content sg msg_id sigs sig :
  well_keyed content sg → sg !! msg_id = Some sigs → attributed content msg_id sig →
  well_keyed content (<[msg_id := (sigs ++ [sig])%list]> sg).
Proof.
  intros Hwk Hk Hsig k sigs' s. destruct (decide (k = msg_id)) as [->|Hne].
  - rewrite lookup_insert_eq. intros [= <-] [Hs| ->%list_elem_of_singleton]%elem_of_app;
      [by eapply Hwk | done].
  - rewrite lookup_insert_ne by done. apply Hwk.
Qed.

(** One turn of the signal loop keeps the parser well keyed and only
    appends. *)
Lemma signal_step_grows content self m :
  m ∈ finditer sig_pattern content → well_keyed content (signals self) →
  ∃ self', signal_step content self m = Some self' ∧
           grows self self' ∧ well_keyed content (signals self').
Proof.
  intros Hm Hwk.
  destruct (signal_step_spec content self m Hm) as (sb & len & _ & _ & ->).
  eexists. split; [done |].
  destruct (last_msg_id content (m_start m)) as [msg_id|] eqn:Hlast;
    [|split; [apply grows_refl | done]].
  destruct (signals self !! msg_id) as [sigs|] eqn:Hk; [|split; [apply grows_refl | done]].
  split; [by apply grows_append |].
  apply well_keyed_append; [done | done |]. by exists m, sb, len.
Qed.

Lemma signal_loop content l self :
  (∀ m, m ∈ l → m ∈ finditer sig_pattern content) →
  well_keyed content (signals self) →
  ∃ self', for_each l (signal_step content) self = Some self' ∧
           grows self self' ∧ well_keyed content (signals self').
Proof.
  revert self. induction l as [|m l IH]; intros self Hl Hwk; cbn [for_each].
  - exists self. split; [done |]. split; [apply grows_refl | done].
  - destruct (signal_step_grows content self m) as (s1 & -> & Hg1 & Hwk1);
      [apply Hl; by left | done |].
    cbn [mbind option_bind].
    destruct (IH s1) as (s2 & -> & Hg2 & Hwk2); [intros; apply Hl; by right | done |].
    exists s2. split; [done |]. split; [by eapply grows_trans | done].
Qed.

(** [_parse_messages_and_signals] on a fresh parser never raises; the
    messages are those of the scan, in order; the keys of [signals] are the
    identifiers of the messages; every stored signal is attributed to the
    key it is stored under. *)
Lemma _parse_messages_and_signals_spec content :
  ∃ self',
    _parse_messages_and_signals content init = Some self' ∧
    Forall2 recorded (finditer msg_pattern content) (messages self') ∧
    dom (signals self') = msg_ids (messages self') ∧
    well_keyed content (signals self').
Proof.
  destruct (message_loop content (finditer msg_pattern content) init)
    as (s1 & msgs & H1 & HF & Hm & Hdom & Hin & _); [done |].
  assert (Hwk1 : well_keyed content (signals s1)).
  { intros k sigs s Hk Hs.
    assert (k ∈ msg_ids msgs) as Hkin.
    { apply elem_of_dom_2 in Hk. rewrite Hdom in Hk. set_solver. }
    rewrite (Hin _ Hkin) in Hk. injection Hk as <-. by apply elem_of_nil in Hs. }
  destruct (signal_loop content (finditer sig_pattern content) s1)
    as (s2 & H2 & (Hm2 & Hdom2 & _) & Hwk2); [done | done |].
  exists s2. unfold _parse_messages_and_signals. rewrite H1. cbn [mbind option_bind].
  split; [done |]. simpl in Hm. rewrite Hm2, Hm.
  split; [done |]. split; [|done].
  rewrite Hdom2, Hdom. simpl. set_solver.
Qed.

(** ** The shape of a message declaration *)

Lemma run_of_length p w :
  forallb_str p w = true → (1 ≤ String.length w)%nat → run p w.
Proof. intros Hw Hl. split; [|done]. intros ->. simpl in Hl. lia. Qed.

(** A greedy repetition whose continuation always answers takes the whole
    run. *)
Lemma rep_greedy_max {R : Type} cl lo s (k : string → option R) x :
  (∀ s', is_Some (k s')) →
  rep_greedy cl lo s k = Some x →
  ∃ w s', s = w ++ s' ∧ forallb_str (cmatch cl) w = true ∧
          (lo ≤ String.length w)%nat ∧ stops (cmatch cl) s' ∧ k s' = Some x.
Proof.
  intros Hk. revert lo. induction s as [|c s IH]; intros lo; simpl.
  - destruct lo; [|done]. intros H. by exists "", "".
  - destruct (cmatch cl c) eqn:Hc.
    + destruct (rep_greedy cl (pred lo) s k) as [y|] eqn:Hrec.
      * intros [= ->]. destruct (IH _ Hrec) as (w & s' & -> & Hw & Hlo & Hst & Hx).
        exists (String c w), s'. simpl. rewrite Hc, Hw. split_and!; try done. lia.
      * destruct lo; [|done].
        destruct (rep_greedy_complete cl 0 "" s k) as [y Hy]; [done | simpl; lia | done |].
        change ("" ++ s) with s in Hy. change (pred 0) with O in Hrec. congruence.
    + destruct lo; [|done]. intros H. exists "", (String c s). by simpl.
Qed.

(** What the matcher answers for [msg_pattern]: the text has the shape of a
    declaration, the transmitter name runs up to the next whitespace or the
    end, and group 1 is the identifier. *)
Lemma msg_match_at_shape s rest g :
  match_at msg_pattern s = Some (rest, g) →
  ∃ p, msg_ok p ∧ s = msg_then p rest ∧ stops nonspace rest ∧
       g !! 1%nat = Some (id_text p).
Proof.
  unfold match_at, msg_pattern, rseq, plus, star. cbn [foldr rmatch].
  destruct (strip_prefix "BO_" s) as [s0|] eqn:E; [|done].
  apply strip_prefix_Some in E as ->.
  intros (w1 & s1 & -> & Hw1 & Hl1 & H)%rep_greedy_sound.
  apply rep_greedy_sound in H as (d1 & s2 & -> & Hd1 & Hl2 & H).
  apply rep_greedy_sound in H as (w2 & s3 & -> & Hw2 & Hl3 & H).
  apply rep_greedy_sound in H as (n & s4 & -> & Hn & Hl4 & H).
  destruct (strip_prefix ":" s4) as [s5|] eqn:E; [|done].
  apply strip_prefix_Some in E as ->.
  apply rep_greedy_sound in H as (w3 & s6 & -> & Hw3 & _ & H).
  apply rep_greedy_sound in H as (d2 & s7 & -> & Hd2 & Hl6 & H).
  apply rep_greedy_sound in H as (w4 & s8 & -> & Hw4 & Hl7 & H).
  apply rep_greedy_max in H as (t & s9 & -> & Ht & Hl8 & Hst & H); [|by eexists].
  injection H as <- <-.
  exists {| ws1 := w1; id_text := d1; ws2 := w2; name_text := n;
            ws3 := w3; dlc_text := d2; ws4 := w4; tx_text := t |}.
  split; [|split; [done | split; [done |]]].
  - unfold msg_ok. simpl. split_and!; try done; by apply run_of_length.
  - rewrite !lookup_insert_ne by done. rewrite lookup_insert_eq.
    by rewrite consumed_app.
Qed.

(** A run of a class that is followed by something outside the class is
    determined by the text. *)
Lemma span_eq p x x' a b :
  x ++ a = x' ++ b →
  forallb_str p x = true → forallb_str p x' = true → stops p a → stops p b →
  x = x' ∧ a = b.
Proof.
  revert x'. induction x as [|c x IH]; intros [|c' x']; simpl.
  - done.
  - intros -> _ [Hc _]%andb_true_iff Ha _. simpl in Ha. congruence.
  - intros <- [Hc _]%andb_true_iff _ _ Hb. simpl in Hb. congruence.
  - intros [= -> H] [_ Hx]%andb_true_iff [_ Hx']%andb_true_iff Ha Hb.
    destruct (IH _ H Hx Hx' Ha Hb) as [-> ->]. done.
Qed.

(** The same from the right: a run that follows a character outside its
    class. *)
Lemma suffix_unique p c x x' d d' :
  x ++ String c d = x' ++ String c d' →
  forallb_str p d = true → forallb_str p d' = true → p c = false →
  x = x' ∧ d = d'.
Proof.
  intros H Hd Hd' Hc. revert x' H. induction x as [|a x IH]; intros [|a' x']; simpl.
  - by intros [= ->].
  - intros [= <- ->]. rewrite forallb_str_app in Hd. simpl in Hd.
    rewrite Hc in Hd. apply andb_true_iff in Hd as [_ Hd]. done.
  - intros [= -> <-]. rewrite forallb_str_app in Hd'. simpl in Hd'.
    rewrite Hc in Hd'. apply andb_true_iff in Hd' as [_ Hd']. done.
  - intros [= -> H]. destruct (IH _ H) as [-> ->]. done.
Qed.

Lemma stops_run (p q : ascii → bool) w y :
  run q w → (∀ c, q c = true → p c = false) → stops p (w ++ y).
Proof.
  intros [Hne Hw] Hqp. destruct w as [|c w]; [done |]. simpl in *.
  apply andb_true_iff in Hw as [Hc _]. auto.
Qed.

Lemma space_not_digit c : is_space c = true → is_digit c = false.
Proof. destruct c as [[] [] [] [] [] [] [] []]; done. Qed.

Lemma space_not_nonspace c : is_space c = true → nonspace c = false.
Proof. unfold nonspace. by intros ->. Qed.

Lemma nonspace_not_space c : nonspace c = true → is_space c = false.
Proof. unfold nonspace. by intros ?%negb_true_iff. Qed.

Lemma digit_nonspace c : is_digit c = true → nonspace c = true.
Proof. unfold nonspace. by intros ->%digit_not_space. Qed.

Lemma stops_nonspace_space s : stops nonspace s → ∀ t, s ≠ "" → stops nonspace (s ++ t).
Proof. destruct s; done. Qed.

(** Two declarations read at the head of the same text have the same
    identifier. *)
Lemma msg_unique_id p q r r' :
  msg_ok p → msg_ok q → msg_then p r = msg_then q r' →
  ws1 p = ws1 q ∧ id_text p = id_text q ∧ ws2 p = ws2 q ∧
  name_text p ++ ":" ++ ws3 p ++ dlc_text p ++ ws4 p ++ tx_text p ++ r
  = name_text q ++ ":" ++ ws3 q ++ dlc_text q ++ ws4 q ++ tx_text q ++ r'.
Proof.
  intros (Hw1 & Hd1 & Hw2 & Hn & _) (Hw1' & Hd1' & Hw2' & Hn' & _).
  unfold msg_then. intros H. apply (str_app_inv_head "BO_") in H.
  apply (span_eq is_space) in H as [E1 H];
    [|apply Hw1 | apply Hw1'
     |eapply stops_run; [exact Hd1 | apply digit_not_space]
     |eapply stops_run; [exact Hd1' | apply digit_not_space]].
  apply (span_eq is_digit) in H as [E2 H];
    [|apply Hd1 | apply Hd1'
     |eapply stops_run; [exact Hw2 | apply space_not_digit]
     |eapply stops_run; [exact Hw2' | apply space_not_digit]].
  apply (span_eq is_space) in H as [E3 H];
    [|apply Hw2 | apply Hw2'
     |eapply stops_run; [exact Hn | apply nonspace_not_space]
     |eapply stops_run; [exact Hn' | apply nonspace_not_space]].
  done.
Qed.

(** From the name on, a declaration starts with one token: the name, the
    colon, and the length when no whitespace separates it from the colon. *)
Lemma msg_first_token p r :
  msg_ok p →
  ∃ K Z,
    name_text p ++ ":" ++ ws3 p ++ dlc_text p ++ ws4 p ++ tx_text p ++ r = K ++ Z ∧
    forallb_str nonspace K = true ∧ stops nonspace Z ∧
    ((ws3 p = "" ∧ K = name_text p ++ ":" ++ dlc_text p ∧
        Z = ws4 p ++ tx_text p ++ r) ∨
     (ws3 p ≠ "" ∧ K = name_text p ++ ":" ∧
        Z = ws3 p ++ dlc_text p ++ ws4 p ++ tx_text p ++ r)).
Proof.
  intros (_ & _ & _ & [_ Hn] & Hw3 & [_ Hd2] & Hw4 & _).
  destruct (decide (ws3 p = "")) as [E|E].
  - exists (name_text p ++ ":" ++ dlc_text p), (ws4 p ++ tx_text p ++ r).
    split; [rewrite E; simpl; by rewrite !str_app_assoc |].
    split; [|split; [|by left]].
    + rewrite forallb_str_app, Hn. simpl.
      eapply forallb_str_impl; [apply digit_nonspace | done].
    + eapply stops_run; [exact Hw4 | apply space_not_nonspace].
  - exists (name_text p ++ ":"), (ws3 p ++ dlc_text p ++ ws4 p ++ tx_text p ++ r).
    split; [by rewrite !str_app_assoc |].
    split; [|split; [|by right]].
    + by rewrite forallb_str_app, Hn.
    + eapply stops_run; [by split | apply space_not_nonspace].
Qed.

(** Two declarations read at the head of the same text, each with its
    transmitter name running up to whitespace or the end, end at the same
    place. *)
Lemma msg_unique_rest p q r r' :
  msg_ok p → msg_ok q → msg_then p r = msg_then q r' →
  stops nonspace r → stops nonspace r' → r = r'.
Proof.
  intros Hp Hq H Hr Hr'.
  destruct (msg_unique_id p q r r' Hp Hq H) as (_ & _ & _ & HY).
  destruct (msg_first_token p r Hp) as (K & Z & HK & HKn & HZ & Hcase).
  destruct (msg_first_token q r' Hq) as (K' & Z' & HK' & HKn' & HZ' & Hcase').
  rewrite HK, HK' in HY.
  apply (span_eq nonspace) in HY as [EK EZ]; [|done..].
  destruct Hp as (_ & _ & _ & _ & Hw3 & Hd2 & Hw4 & Ht).
  destruct Hq as (_ & _ & _ & _ & Hw3' & Hd2' & Hw4' & Ht').
  assert (Htail : ∀ a b, a ++ tx_text p ++ r = b ++ tx_text q ++ r' →
            run is_space a → run is_space b → r = r').
  { intros a b Hab Ha Hb.
    apply (span_eq is_space) in Hab as [_ Hab];
      [|apply Ha | apply Hb
       |eapply stops_run; [exact Ht | apply nonspace_not_space]
       |eapply stops_run; [exact Ht' | apply nonspace_not_space]].
    apply (span_eq nonspace) in Hab as [_ Hab]; [done | apply Ht | apply Ht' | done..]. }
  destruct Hcase as [(E3 & -> & ->)|(E3 & -> & ->)],
           Hcase' as [(E3' & -> & ->)|(E3' & -> & ->)].
  - by eapply Htail.
  - exfalso. change (name_text q ++ ":") with (name_text q ++ String ":" "") in EK.
    apply (suffix_unique is_digit) in EK as [_ EK]; [|apply Hd2 | done..].
    destruct Hd2 as [Hne _]. done.
  - exfalso. change (name_text p ++ ":") with (name_text p ++ String ":" "") in EK.
    apply (suffix_unique is_digit) in EK as [_ EK]; [|done | apply Hd2' | done].
    destruct Hd2' as [Hne _]. done.
  - apply (span_eq is_space) in EZ as [_ EZ];
      [|done | done
       |eapply stops_run; [exact Hd2 | apply digit_not_space]
       |eapply stops_run; [exact Hd2' | apply digit_not_space]].
    apply (span_eq is_digit) in EZ as [_ EZ];
      [|apply Hd2 | apply Hd2'
       |eapply stops_run; [exact Hw4 | apply space_not_digit]
       |eapply stops_run; [exact Hw4' | apply space_not_digit]].
    by eapply Htail.
Qed.

Lemma msg_then_app p r t : msg_then p r ++ t = msg_then p (r ++ t).
Proof. unfold msg_then. by rewrite !str_app_assoc. Qed.

(** A match of [msg_pattern] at the head of a text is, when text is
    appended, a match with the same identifier; and with the same end
    unless it reached the end of the text. *)
Lemma msg_match_extend s t rest g :
  match_at msg_pattern s = Some (rest, g) →
  ∃ rest' g', match_at msg_pattern (s ++ t) = Some (rest', g') ∧
              g' !! 1%nat = g !! 1%nat ∧ (rest ≠ "" → rest' = rest ++ t).
Proof.
  intros H.
  destruct (rmatch_sound _ _ _ _ _ H) as (s' & g'' & HM & [= -> ->]).
  apply (Matches_app _ _ _ _ _ t) in HM.
  destruct (rmatch_complete _ _ _ _ _ (λ s' g, Some (s', g)) HM) as [[rest' g'] H'];
    [done |].
  exists rest', g'. split; [exact H' |].
  apply msg_match_at_shape in H as (p & Hp & -> & Hst & Hg).
  apply msg_match_at_shape in H' as (q & Hq & Hs & Hst' & Hg').
  rewrite msg_then_app in Hs.
  split.
  - rewrite Hg, Hg'. f_equal.
    by destruct (msg_unique_id p q _ _ Hp Hq Hs) as (_ & -> & _).
  - intros Hne. symmetry. eapply msg_unique_rest; [exact Hp | exact Hq | exact Hs | | done].
    by apply stops_nonspace_space.
Qed.

Lemma space_not_us c : is_space c = true → not_us c = true.
Proof. destruct c as [[] [] [] [] [] [] [] []]; done. Qed.

Lemma digit_not_us c : is_digit c = true → not_us c = true.
Proof. destruct c as [[] [] [] [] [] [] [] []]; done. Qed.

Lemma us_sp_app_not_us x y : forallb_str not_us x = true → us_sp (x ++ y) = us_sp y.
Proof.
  induction x as [|c x IH]; [done |]. simpl.
  intros [Hc Hx]%andb_true_iff. rewrite <- (IH Hx).
  unfold not_us in Hc. apply negb_true_iff in Hc. rewrite Hc. simpl.
  by destruct (x ++ y).
Qed.

Lemma us_sp_app_nonspace x y :
  forallb_str nonspace x = true → stops is_space y → us_sp (x ++ y) = us_sp y.
Proof.
  intros Hx Hy. induction x as [|c x IH]; [done |]. simpl in *.
  apply andb_true_iff in Hx as [_ Hx]. rewrite <- (IH Hx).
  destruct (x ++ y) as [|b z] eqn:E; [done |].
  assert (is_space b = false) as ->; [|by rewrite andb_false_r].
  destruct x as [|b' x']; simpl in *.
  - subst y. exact Hy.
  - injection E as -> _. apply andb_true_iff in Hx as [Hb _].
    by apply nonspace_not_space.
Qed.

Lemma us_sp_at i x y a b z :
  drop_str i (x ++ y) = String a (String b z) → (i + 2 ≤ String.length x)%nat →
  a = "_"%char → is_space b = true → us_sp x = true.
Proof.
  intros H Hl -> Hb. revert x H Hl. induction i as [|i IH]; intros x H Hl.
  - destruct x as [|a' [|b' x]]; simpl in *; try lia.
    injection H as -> -> _. by rewrite Hb.
  - destruct x as [|c x]; simpl in *; [lia |].
    assert (Hx : us_sp x = true) by (apply IH; [done | lia]).
    destruct x; [done |]. rewrite Hx. apply orb_true_r.
Qed.

Lemma msg_then_body p r : msg_then p r = "BO_" ++ msg_body p ++ r.
Proof. unfold msg_then, msg_body. by rewrite !str_app_assoc. Qed.

(** After its keyword, a declaration has no underscore directly followed
    by whitespace. *)
Lemma msg_body_no_us_sp p : msg_ok p → us_sp (msg_body p) = false.
Proof.
  intros ([_ Hw1] & [_ Hd1] & [_ Hw2] & [_ Hn] & Hw3 & [_ Hd2] & [_ Hw4] & [_ Ht]).
  unfold msg_body.
  rewrite us_sp_app_not_us by (eapply forallb_str_impl; [apply space_not_us | done]).
  rewrite us_sp_app_not_us by (eapply forallb_str_impl; [apply digit_not_us | done]).
  rewrite us_sp_app_not_us by (eapply forallb_str_impl; [apply space_not_us | done]).
  rewrite us_sp_app_nonspace by done.
  rewrite (us_sp_app_not_us ":") by done.
  rewrite us_sp_app_not_us by (eapply forallb_str_impl; [apply space_not_us | done]).
  rewrite us_sp_app_not_us by (eapply forallb_str_impl; [apply digit_not_us | done]).
  rewrite us_sp_app_not_us by (eapply forallb_str_impl; [apply space_not_us | done]).
  rewrite <- (str_app_nil_r (tx_text p)). by rewrite us_sp_app_nonspace.
Qed.

Lemma drop_str_app j s t :
  (j ≤ String.length s)%nat → drop_str j (s ++ t) = drop_str j s ++ t.
Proof.
  revert s. induction j as [|j IH]; intros [|c s]; simpl; try done; try lia.
  intros. apply IH. lia.
Qed.

Lemma drop_str_add i k s : drop_str (i + k) s = drop_str k (drop_str i s).
Proof.
  revert s. induction i as [|i IH]; intros s; [done |].
  destruct s as [|c s]; simpl; [by destruct k | apply IH].
Qed.

Lemma length_drop_str j s : String.length (drop_str j s) = (String.length s - j)%nat.
Proof. revert s. induction j as [|j IH]; intros [|c s]; simpl; done. Qed.

Lemma suffix_split u r s t :
  u ++ r = s ++ t → (String.length t ≤ String.length r)%nat →
  ∃ r0, r = r0 ++ t ∧ s = u ++ r0.
Proof.
  revert s. induction u as [|c u IH]; intros s; simpl.
  - intros -> _. by exists s.
  - destruct s as [|c' s]; simpl.
    + intros <-. simpl. rewrite str_length_app. lia.
    + intros [= -> H] Hl. destruct (IH _ H Hl) as (r0 & -> & ->). by exists r0.
Qed.

(** A match of [msg_pattern] that exists only once text is appended
    reaches into the appended text, and no match starts inside the part of
    it that lies in the text before. *)
Lemma msg_match_cover s t rest' g' j r2 g2 :
  match_at msg_pattern s = None →
  match_at msg_pattern (s ++ t) = Some (rest', g') →
  (1 ≤ j)%nat → match_at msg_pattern (drop_str j s) = Some (r2, g2) → False.
Proof.
  intros Hnone Hfull Hj Hin.
  destruct (rmatch_sound _ _ _ _ _ Hfull) as (s' & g'' & HM & [= -> ->]).
  apply msg_match_at_shape in Hfull as (q & Hq & Hs & _ & _).
  rewrite msg_then_body in Hs.
  assert (Hlen : (String.length rest' < String.length t)%nat).
  { destruct (decide (String.length t ≤ String.length rest')%nat) as [Hle|]; [|lia].
    exfalso. rewrite <- str_app_assoc in Hs. symmetry in Hs.
    destruct (suffix_split _ _ _ _ Hs Hle) as (r0 & -> & _).
    pose proof (Matches_trunc _ _ _ _ _ HM s r0 t eq_refl eq_refl) as HM'.
    destruct (rmatch_complete _ _ _ _ _ (λ s' g, Some (s', g)) HM') as [x Hx]; [done |].
    unfold match_at in Hnone. congruence. }
  apply msg_match_at_shape in Hin as (p & Hp & Hd & _ & _).
  pose proof Hp as ([Hne1 Hsp1] & _).
  unfold msg_then in Hd. destruct (ws1 p) as [|c w] eqn:Ew; [done |].
  simpl in Hsp1. apply andb_true_iff in Hsp1 as [Hc _].
  assert (Hl4 : (j + 4 ≤ String.length s)%nat).
  { apply (f_equal String.length) in Hd. rewrite length_drop_str in Hd.
    simpl in Hd. lia. }
  assert (Hl : (String.length s < 3 + String.length (msg_body q))%nat).
  { apply (f_equal String.length) in Hs. rewrite !str_length_app in Hs.
    simpl in Hs. lia. }
  assert (Hdrop : drop_str j (s ++ t) = drop_str j s ++ t)
    by (apply drop_str_app; lia).
  rewrite Hs, Hd in Hdrop.
  destruct j as [|[|[|i]]]; [lia | done | done |].
  change (drop_str (S (S (S i))) ("BO_" ++ msg_body q ++ rest'))
    with (drop_str i (msg_body q ++ rest')) in Hdrop.
  apply (f_equal (drop_str 2)) in Hdrop. rewrite <- drop_str_add in Hdrop.
  simpl in Hdrop.
  eapply us_sp_at in Hdrop; [|lia | done | done].
  by rewrite msg_body_no_us_sp in Hdrop.
Qed.

Lemma scan_skip_all r skip pos s :
  (String.length s ≤ skip)%nat → scan r skip pos s = [].
Proof.
  revert skip pos. induction s as [|c s IH]; intros skip pos Hl; simpl in *; [done |].
  destruct skip as [|n]; [lia |]. apply IH. lia.
Qed.

(** Every message declaration that the scan finds in a text is found, at
    the same offset and with the same identifier, by the scan of the text
    with more text appended. *)
Lemma scan_msg_extend s t skip pos m :
  m ∈ scan msg_pattern skip pos s →
  ∃ m', m' ∈ scan msg_pattern skip pos (s ++ t) ∧
        m_start m' = m_start m ∧ group m' 1 = group m 1.
Proof.
  revert skip pos. induction s as [|c s IH]; intros skip pos.
  - by intros ?%elem_of_nil.
  - change (String c s ++ t) with (String c (s ++ t)). cbn [scan].
    destruct skip as [|n]; [|apply IH].
    change (String c (s ++ t)) with (String c s ++ t).
    destruct (match_at msg_pattern (String c s)) as [[rest g]|] eqn:E.
    + destruct (msg_match_extend _ t _ _ E) as (rest' & g' & -> & Hg & Hrest).
      intros [->|Hin]%elem_of_cons.
      * eexists. split; [by left |]. split; [done |]. unfold group. simpl. by rewrite Hg.
      * destruct (decide (rest = "")) as [->|Hne].
        { rewrite scan_skip_all in Hin by (simpl; lia). by apply elem_of_nil in Hin. }
        rewrite (Hrest Hne).
        destruct (IH _ _ Hin) as (m' & Hm' & Hgm).
        exists m'. split; [|done]. right.
        replace (String.length (String c s ++ t) - String.length (rest ++ t))%nat
          with (String.length (String c s) - String.length rest)%nat; [done |].
        rewrite !str_length_app. lia.
    + intros Hin.
      destruct (match_at msg_pattern (String c s ++ t)) as [[rest' g']|] eqn:E'.
      * exfalso. apply scan_elem in Hin as (j & rest2 & _ & Hj & _).
        eapply (msg_match_cover (String c s) t rest' g' (S j)); [done | done | lia |].
        rewrite drop_str_cons. exact Hj.
      * apply IH, Hin.
Qed.

Lemma length_take_str n s : (String.length (take_str n s) ≤ n)%nat.
Proof.
  revert s. induction n as [|n IH]; intros [|c s]; simpl; try lia.
  specialize (IH s). lia.
Qed.

(** The message found by the backwards search from any offset is one of
    the messages of the whole text, declared at the same place, before the
    offset. *)
Lemma prefix_msg_in_text content pos mm :
  mm ∈ finditer msg_pattern (take_str pos content) →
  (m_start mm < pos)%nat ∧
  ∃ m', m' ∈ finditer msg_pattern content ∧
        m_start m' = m_start mm ∧ group m' 1 = group mm 1.
Proof.
  intros Hin. split.
  - apply scan_elem in Hin as (j & rest & Hj & _ & -> & _).
    pose proof (length_take_str pos content). lia.
  - pose proof (scan_msg_extend _ (drop_str pos content) _ _ _ Hin) as H.
    by rewrite take_drop in H.
Qed.

(** The identifier that the backwards search finds is a key of [signals]
    once the message loop has run. *)
Lemma found_msg_id_is_key content pos mm raw msgs :
  mm ∈ finditer msg_pattern (take_str pos content) →
  py_int (group mm 1) = Some raw →
  Forall2 recorded (finditer msg_pattern content) msgs →
  normalize_id raw ∈ msg_ids msgs.
Proof.
  intros Hmm Hraw HF.
  destruct (prefix_msg_in_text _ _ _ Hmm) as (_ & m' & Hm' & _ & Hg).
  apply list_elem_of_lookup in Hm' as [i Hi].
  destruct (Forall2_lookup_l _ _ _ _ _ HF Hi) as (msg & Hmsg & raw' & Hraw' & _ & Hid & _).
  rewrite Hg, Hraw in Hraw'. injection Hraw' as <-.
  unfold msg_ids. apply elem_of_list_to_set, list_elem_of_fmap.
  exists msg. split; [done |]. by eapply list_elem_of_lookup_2.
Qed.

(** ** Value entries of signals and of environment variables *)





(** ** Comments *)

(** A loop that appends one comment record per match. *)
Lemma comment_loop (body : DbcParser → Match → option DbcParser)
    (f : Match → comment_rec) l :
  (∀ self m, m ∈ l → body self m = Some (add_comment self (f m))) →
  ∀ self, for_each l body self
          = Some (with_comments self (comments self ++ (f <$> l))%list).
Proof.
  induction l as [|m l IH]; intros Hbody self; cbn [for_each].
  - simpl. rewrite List.app_nil_r. by destruct self.
  - rewrite Hbody by (by left). cbn [mbind option_bind].
    rewrite IH by (intros; apply Hbody; by right).
    unfold add_comment. simpl. by rewrite <- List.app_assoc.
Qed.

(** [_parse_comments] never raises, and the records it appends are a
    function of the text alone. *)
Lemma _parse_comments_spec content self :
  _parse_comments content self
  = Some (with_comments self (comments self ++ comment_records content)%list).
Proof.
  unfold _parse_comments, comment_records.
  rewrite (comment_loop _ bo_comment (finditer cm_bo_pattern content)); cycle 1.
  { intros st m Hm.
    destruct (py_int_digits _ (cm_bo_group_digits _ _ Hm)) as (raw & Hraw & _).
    unfold bo_comment, int_of. by rewrite Hraw. }
  cbn [mbind option_bind].
  rewrite (comment_loop _ sg_comment (finditer cm_sg_pattern content)); cycle 1.
  { intros st m Hm.
    destruct (py_int_digits _ (cm_sg_group_digits _ _ Hm)) as (raw & Hraw & _).
    unfold sg_comment, int_of. by rewrite Hraw. }
  cbn [mbind option_bind].
  rewrite (comment_loop _ bu_comment (finditer cm_bu_pattern content)); cycle 1.
  { by intros st m Hm. }
  cbn [mbind option_bind].
  rewrite (comment_loop _ ev_comment (finditer cm_ev_pattern content)); cycle 1.
  { by intros st m Hm. }
  simpl. by rewrite <- !List.app_assoc.
Qed.

(** ** The passes within [parse] *)

Lemma for_each_fmap {A S : Type} (φ : S → S) (body : S → A → option S) l st :
  (∀ st a, body (φ st) a = φ <$> body st a) →
  for_each l body (φ st) = φ <$> for_each l body st.
Proof.
  intros Hbody. revert st. induction l as [|a l IH]; intros st; cbn [for_each]; [done |].
  rewrite Hbody. destruct (body st a); simpl; [apply IH | done].
Qed.

Lemma for_each_keeps {A S X : Type} (P : S → X) (body : S → A → option S) l st st' :
  (∀ st a st', body st a = Some st' → P st' = P st) →
  for_each l body st = Some st' → P st' = P st.
Proof.
  intros Hbody. revert st. induction l as [|a l IH]; intros st; cbn [for_each].
  - by intros [= ->].
  - destruct (body st a) as [st1|] eqn:E; [|done]. simpl.
    intros H. rewrite (IH _ H). by eapply Hbody.
Qed.

(** Message-and-signal extraction reads and writes the messages and the
    signals only. *)
Lemma _parse_messages_and_signals_reframe f content st :
  _parse_messages_and_signals content (reframe f st)
  = reframe f <$> _parse_messages_and_signals content st.
Proof.
  unfold _parse_messages_and_signals.
  rewrite (for_each_fmap (reframe f)).
  2:{ intros st0 m. unfold message_step. by destruct (message_of_match m). }
  destruct (for_each _ message_step st) as [st1|]; [|done]. simpl.
  apply for_each_fmap. intros st0 m. unfold signal_step.
  destruct (py_int (group m 3)); [|done]. destruct (py_int (group m 4)); [|done].
  simpl. destruct (find_msg_id content (m_start m)) as [[msg_id|]|]; try done.
  simpl. by destruct (signals st0 !! msg_id).
Qed.

(** The messages and the signals of the model that [parse] builds are
    those of the extraction on a fresh parser. *)
Lemma parse_messages_and_signals content st :
  parse content init = Some st →
  ∃ st0, _parse_messages_and_signals content init = Some st0 ∧
         messages st = messages st0 ∧ signals st = signals st0.
Proof.
  unfold parse. set (P := λ st : DbcParser, (messages st, signals st)).
  destruct (_parse_value_tables content init) as [s1|] eqn:E1; [|done].
  assert (H1 : P s1 = P init).
  { eapply (for_each_keeps P); [|exact E1]. intros st1 m st2. cbv beta zeta.
    destruct (_parse_value_dict (group m 2)); [|done]. by intros [= <-]. }
  assert (s1 = reframe s1 init) as Hs1.
  { injection H1 as Hm Hs. destruct s1. simpl in *. by subst. }
  cbn [mbind option_bind]. rewrite Hs1 at 1.
  rewrite _parse_messages_and_signals_reframe.
  destruct (_parse_messages_and_signals content init) as [st0|]; [|done].
  cbn [fmap option_fmap option_map mbind option_bind].
  destruct (_parse_signal_val_entries _ _) as [s3|] eqn:E3; [|done].
  assert (H3 : P s3 = P (reframe s1 st0)).
  { eapply (for_each_keeps P); [|exact E3]. intros st1 m st2. unfold signal_val_step.
    destruct (py_int (group m 1)); [|done]. simpl.
    destruct (_parse_value_dict (group m 3)); [|done]. by intros [= <-]. }
  cbn [mbind option_bind].
  destruct (_parse_env_var_val_entries _ _) as [s4|] eqn:E4; [|done].
  assert (H4 : P s4 = P s3).
  { eapply (for_each_keeps P); [|exact E4]. intros st1 m st2. unfold env_val_step.
    destruct (negb _); [|by intros [= <-]].
    destruct (_parse_value_dict (group m 2)); [|done]. by intros [= <-]. }
  cbn [mbind option_bind].
  rewrite _parse_comments_spec. cbn [mbind option_bind].
  intros E6.
  assert (H6 : P st = P (with_comments s4 (comments s4 ++ comment_records content)%list)).
  { eapply (for_each_keeps P); [|exact E6]. intros st1 m st2. unfold ba_step.
    destruct (ba_scope _) as [[[scope scope_id] value]|]; [|done]. by intros [= <-]. }
  exists st0. split; [done |].
  assert (P st = P st0) as [= ? ?]; [|done].
  rewrite H6. transitivity (P s4); [done |]. by rewrite H4, H3.
Qed.

(** ** The embedding on examples *)

Example py_int_ex1 : py_int "2147483748" = Some 2147483748. Proof. reflexivity. Qed.
Example py_int_ex2 : py_int "-12" = Some (-12). Proof. reflexivity. Qed.
Example py_int_ex3 : py_int "1_000" = Some 1000. Proof. reflexivity. Qed.
Example py_int_ex4 : py_int "foo" = None. Proof. reflexivity. Qed.
Example py_int_ex5 : py_int "" = None. Proof. reflexivity. Qed.
Example py_int_ex6 : py_int "1__0" = None. Proof. reflexivity. Qed.
Example py_str_ex : py_str 100 = "100" ∧ py_str (-5) = "-5" ∧ py_str 0 = "0".
Proof. repeat split; reflexivity. Qed.
Example py_hex_ex : py_hex 100 = "64" ∧ py_hex 255 = "FF" ∧ py_hex 0 = "0".
Proof. repeat split; reflexivity. Qed.
Example split_ex1 : split_max 2 "a b  c d " = ["a"; "b"; "c d "].
Proof. reflexivity. Qed.
Example split_ex2 : split_max 3 "SG_ 2147483748 SigA 5" = ["SG_"; "2147483748"; "SigA"; "5"].
Proof. reflexivity. Qed.
Example split_ex3 : split "  a b  " = ["a"; "b"] ∧ split_max 2 "a b  " = ["a"; "b"].
Proof. split; reflexivity. Qed.
Example strip_ex : strip "  a b  " = "a b" ∧ strip "   " = "".
Proof. split; reflexivity. Qed.

(** The name of a message runs up to the last colon of its token. *)
Example msg_pattern_ex :
  (λ m, (m_start m, m_end m, group m 1, group m 2, group m 3, group m 4))
    <$> finditer msg_pattern "x BO_ 5 a:b: 8 T y"
  = [(2%nat, 16%nat, "5", "a:b", "8", "T")].
Proof. vm_compute. reflexivity. Qed.

(** The lazy value text stops at the first terminator. *)
Example val_table_pattern_ex :
  (λ m, (group m 1, group m 2))
    <$> finditer val_table_pattern "VAL_TABLE_ T 0 x ; 1 y ;"
  = [("T", "0 x")].
Proof. vm_compute. reflexivity. Qed.

(** The multiplexing group takes part in a match or not. *)
Example sig_pattern_ex :
  (λ m, (group m 1, m_groups m !! 2%nat, group m 12))
    <$> finditer sig_pattern
          ("SG_ A m3M : 0|8@1+ (1,0) [0|255] " ++ dq ++ dq ++ " E,F" ++ nl
           ++ "SG_ B : 8|8@0- (1,0) [0|255] " ++ dq ++ "V" ++ dq ++ " Vector__XXX")
  = [("A", Some "m3M", "E,F"); ("B", None, "Vector__XXX")].
Proof. vm_compute. reflexivity. Qed.

Example name_list_ex : name_list "E, F  G" = ["E"; "F"; "G"].
Proof. reflexivity. Qed.

(** * The claims *)

(** C1. Every raw identifier [raw] read from a message declaration is
    recorded normalised: from [0x80000000] on, the message has the
    identifier [raw - 0x80000000] and is marked extended; below, it has the
    identifier [raw] and is not marked extended. Extraction never raises, and
    the messages recorded are those of the declarations, in order. *)
Theorem message_ids_normalized content :
  ∃ self',
    _parse_messages_and_signals content init = Some self' ∧
    Forall2
      (λ m msg,
         ∃ raw, py_int (group m 1) = Some raw ∧
           (0x80000000 ≤ raw →
              Msg.id msg = raw - 0x80000000 ∧ Msg.is_extended msg = true) ∧
           (raw < 0x80000000 →
              Msg.id msg = raw ∧ Msg.is_extended msg = false))
      (finditer msg_pattern content) (messages self').
Proof.
  destruct (_parse_messages_and_signals_spec content) as (self' & Hp & HF & _).
  exists self'. split; [done |].
  eapply Forall2_impl; [exact HF |].
  intros m msg (raw & Hraw & _ & Hid & Hext). exists raw. split; [done |].
  by apply normalize_id_spec.
Qed.

Example message_ids_normalized_ex :
  (messages <$> _parse_messages_and_signals (msg100_line ++ nl ++ msgext_line) init)
  = Some [Msg.mk 100 "0x64" "Msg1" 8 "ECU1" false "";
          Msg.mk 100 "0x64" "MsgX" 8 "ECU1" true ""].
Proof. vm_compute. reflexivity. Qed.

(** C2 fails on the code. In [cut_msg_text] the declaration of message 200
    has no transmitter of its own, and the message pattern takes the
    keyword of the signal on the next line for it. The message loop records
    the messages 100 and 200, from declarations that start at the offsets 0
    and 21, and gives each a signal list; the signal starts at offset 38,
    after both. The backwards search of the signal loop runs on the text cut
    at offset 38, where the declaration of 200 stops short of a transmitter,
    and finds 100 only: the signal is stored under 100 and the list of 200,
    the latest message declared before the signal, stays empty. *)
Theorem signal_misses_latest_message :
  ((λ m, (m_start m, m_end m, group m 1, group m 4))
     <$> finditer msg_pattern cut_msg_text)
  = [(0%nat, 20%nat, "100", "ECU1"); (21%nat, 41%nat, "200", "SG_")] ∧
  (m_start <$> finditer sig_pattern cut_msg_text) = [38%nat] ∧
  ((λ m, (m_start m, group m 1))
     <$> finditer msg_pattern (take_str 38 cut_msg_text))
  = [(0%nat, "100")] ∧
  ((λ self, Msg.id <$> messages self)
     <$> _parse_messages_and_signals cut_msg_text init)
  = Some [100; 200] ∧
  (signals <$> _parse_messages_and_signals cut_msg_text init)
  = Some {[100 := [sigA 100]; 200 := []]} ∧
  (signals ∘ Full.core <$> Full.parse cut_msg_text Full.init)
  = Some {[100 := [sigA 100]; 200 := []]}.
Proof. split_and!; vm_compute; reflexivity. Qed.

(** What the backwards search does find. For every text and every match of
    the signal pattern such that the text before it, [content[:sig_pos]],
    holds a match of the message pattern, the last such match is a match
    of the message pattern in the whole text, at the same offset, before
    the signal; and extraction stores the signal built from the signal
    match under the normalised identifier of that message, and under no
    other key. In the text with the declarations of messages 100 and 200
    followed by a signal, the signal is stored under 200 and the list of
    100 stays empty. *)
Theorem signal_joins_message_found :
  (∀ content m mm,
     m ∈ finditer sig_pattern content →
     last (finditer msg_pattern (take_str (m_start m) content)) = Some mm →
     (m_start mm < m_start m)%nat ∧
     (∃ m', m' ∈ finditer msg_pattern content ∧
            m_start m' = m_start mm ∧ group m' 1 = group mm 1) ∧
     ∃ raw start_bit length self' sigs,
       py_int (group mm 1) = Some raw ∧
       py_int (group m 3) = Some start_bit ∧
       py_int (group m 4) = Some length ∧
       _parse_messages_and_signals content init = Some self' ∧
       signals self' !! normalize_id raw = Some sigs ∧
       signal_of_match m start_bit length (normalize_id raw) ∈ sigs ∧
       ∀ k sigs', k ≠ normalize_id raw → signals self' !! k = Some sigs' →
         signal_of_match m start_bit length (normalize_id raw) ∉ sigs') ∧
  (signals <$> _parse_messages_and_signals two_msgs_text init)
  = Some {[100 := []; 200 := [sigA 200]]}.
Proof.
  split; [|vm_compute; reflexivity].
  intros content m mm Hm Hlast.
  destruct (prefix_msg_in_text content (m_start m) mm) as [Hpos Hfull];
    [eapply last_Some_elem_of, Hlast |].
  split; [exact Hpos |]. split; [exact Hfull |].
  destruct (last_msg_id_Some _ _ _ Hlast) as (raw & Hraw & _ & Hid).
  destruct (message_loop content (finditer msg_pattern content) init)
    as (s1 & msgs & H1 & HF & _ & Hdom & Hin & _); [done |].
  assert (Hkey : normalize_id raw ∈ dom (signals s1)).
  { rewrite Hdom. apply elem_of_union_r.
    eapply found_msg_id_is_key; [eapply last_Some_elem_of, Hlast | done..]. }
  assert (Hwk1 : well_keyed content (signals s1)).
  { intros k sigs s Hk Hs.
    assert (k ∈ msg_ids msgs) as Hkin.
    { apply elem_of_dom_2 in Hk. rewrite Hdom in Hk. set_solver. }
    rewrite (Hin _ Hkin) in Hk. injection Hk as <-. by apply elem_of_nil in Hs. }
  destruct (list_elem_of_split _ _ Hm) as (l1 & l2 & Hl).
  assert (Hl1 : ∀ x, x ∈ l1 → x ∈ finditer sig_pattern content).
  { intros x Hx. rewrite Hl. apply elem_of_app. by left. }
  assert (Hl2 : ∀ x, x ∈ l2 → x ∈ finditer sig_pattern content).
  { intros x Hx. rewrite Hl. apply elem_of_app. right. by right. }
  destruct (signal_loop content l1 s1 Hl1 Hwk1) as (sa & Ha & (_ & Hdoma & _) & Hwka).
  destruct (signal_step_spec content sa m Hm) as (sb & len & Hsb & Hlen & Hstep).
  rewrite Hid in Hstep.
  rewrite <- Hdoma in Hkey. apply elem_of_dom in Hkey as [sigsa Hsigsa].
  rewrite Hsigsa in Hstep.
  set (sig := signal_of_match m sb len (normalize_id raw)) in *.
  set (stb := with_signals sa (<[normalize_id raw := (sigsa ++ [sig])%list]> (signals sa))) in *.
  assert (Hwkb : well_keyed content (signals stb)).
  { apply well_keyed_append; [done | done |]. by exists m, sb, len. }
  destruct (signal_loop content l2 stb Hl2 Hwkb) as (sc & Hc & (_ & _ & Hgrow & _) & Hwkc).
  destruct (Hgrow (normalize_id raw) (sigsa ++ [sig])%list) as [more Hmore].
  { simpl. apply lookup_insert_eq. }
  exists raw, sb, len, sc, ((sigsa ++ [sig]) ++ more)%list.
  split_and!; try done.
  - unfold _parse_messages_and_signals. rewrite H1. cbn [mbind option_bind].
    rewrite Hl, for_each_app, Ha. cbn [mbind option_bind for_each].
    rewrite Hstep. cbn [mbind option_bind]. exact Hc.
  - apply elem_of_app. left. apply elem_of_app. right. by left.
  - intros k sigs' Hne Hk Hs.
    destruct (Hwkc k sigs' sig Hk Hs) as (m' & sb' & len' & _ & _ & E).
    apply (f_equal Sig.msg_id) in E. simpl in E. congruence.
Qed.

Lemma signal_joins_message_found_ex :
  (m_start two_msgs_last < m_start two_msgs_sig)%nat ∧
  (∃ m', m' ∈ finditer msg_pattern two_msgs_text ∧
         m_start m' = m_start two_msgs_last ∧ group m' 1 = group two_msgs_last 1) ∧
  ∃ raw start_bit length self' sigs,
    py_int (group two_msgs_last 1) = Some raw ∧
    py_int (group two_msgs_sig 3) = Some start_bit ∧
    py_int (group two_msgs_sig 4) = Some length ∧
    _parse_messages_and_signals two_msgs_text init = Some self' ∧
    signals self' !! normalize_id raw = Some sigs ∧
    signal_of_match two_msgs_sig start_bit length (normalize_id raw) ∈ sigs ∧
    ∀ k sigs', k ≠ normalize_id raw → signals self' !! k = Some sigs' →
      signal_of_match two_msgs_sig start_bit length (normalize_id raw) ∉ sigs'.
Proof.
  apply (proj1 signal_joins_message_found
           two_msgs_text two_msgs_sig two_msgs_last).
  - vm_compute. left.
  - vm_compute. reflexivity.
Defined.

(** C3, as stated, fails: the entry does not give the scope identifier
    [4:SigA]. *)
Lemma ba_sg_entry_not_4 :
  (ba_assignments <$> _parse_ba_assignments ba_sg_line init)
  ≠ Some [("SG", "4:SigA", "Prop", "5")].
Proof. vm_compute. discriminate. Qed.

(** C3, amended. The raw identifier 2147483748 is [0x80000064], so the
    entry gives the scope [SG], the scope identifier [100:SigA], the
    attribute name [Prop] and the value [5], whatever the parser holds; the
    scope identifier [4:SigA] is what the raw identifier [0x80000004], that
    is 2147483652, gives. *)
Theorem ba_sg_entry_normalized :
  (∀ self, _parse_ba_assignments ba_sg_line self
           = Some (with_ba_assignments self
                     (ba_assignments self ++ [("SG", "100:SigA", "Prop", "5")])%list)) ∧
  normalize_id 2147483748 = 100 ∧
  (∀ self, _parse_ba_assignments ba_sg4_line self
           = Some (with_ba_assignments self
                     (ba_assignments self ++ [("SG", "4:SigA", "Prop", "5")])%list)) ∧
  normalize_id 0x80000004 = 4.
Proof. split_and!; try done; intros self; vm_compute; reflexivity. Qed.

Lemma item_le_total : Total item_le.
Proof. intros a b. unfold item_le. lia. Qed.

(** C4. The declaration parses to the mapping of 0 to [Off] and 1 to [On];
    the pair formatter writes that mapping as [0:qOffq 1:qOnq], so parsing
    the declaration and formatting the table gives this text; and the
    formatter writes the items of any mapping in the order of their keys. *)
Theorem value_table_parse_format :
  (value_tables <$> _parse_value_tables val_table_line init)
  = Some {["Tbl" := {[0 := "Off"; 1 := "On"]}]} ∧
  format_pairs {[0 := "Off"; 1 := "On"]}
  = "0:" ++ dq ++ "Off" ++ dq ++ " 1:" ++ dq ++ "On" ++ dq ∧
  (self ← _parse_value_tables val_table_line init;
   format_pairs <$> value_tables self !! "Tbl")
  = Some ("0:" ++ dq ++ "Off" ++ dq ++ " 1:" ++ dq ++ "On" ++ dq) ∧
  (∀ d : gmap Z string,
     Sorted Z.le ((merge_sort item_le (map_to_list d)).*1) ∧
     merge_sort item_le (map_to_list d) ≡ₚ map_to_list d).
Proof.
  split; [vm_compute; reflexivity |]. split; [vm_compute; reflexivity |].
  split; [vm_compute; reflexivity |].
  intros d. split.
  - pose proof item_le_total.
    assert (Hs : Sorted item_le (merge_sort item_le (map_to_list d)))
      by apply (Sorted_merge_sort item_le).
    induction Hs as [|a l Hs IH Hhd]; simpl; constructor; [done |].
    destruct Hhd; simpl; constructor. done.
  - apply merge_sort_Permutation.
Qed.

(** C5. In a text whose numerals [int()] takes ([within_int_limit]), a
    signal declaration with no message declaration in the text before it is
    discarded: its turn of the loop leaves every parser state as it is,
    without raising; the whole extraction does not raise; and every signal
    of the resulting model was built from a declaration for which the
    backwards search found the message it is stored under. The turn of the
    loop reads the start bit and the length with [int()] before it searches
    for the message, so a signal whose start bit or length has more than
    [int_max_str_digits] digits does make parsing fail, orphan or not. *)
Theorem orphan_signal_discarded content m :
  within_int_limit content →
  m ∈ finditer sig_pattern content →
  finditer msg_pattern (take_str (m_start m) content) = [] →
  (∀ self, signal_step content self m = Some self) ∧
  ∃ self',
    _parse_messages_and_signals content init = Some self' ∧
    ∀ k sigs s, signals self' !! k = Some sigs → s ∈ sigs →
      ∃ m' start_bit length,
        m' ∈ finditer sig_pattern content ∧
        finditer msg_pattern (take_str (m_start m') content) ≠ [] ∧
        s = signal_of_match m' start_bit length k.
Proof.
  intros _ Hm Hnone. split.
  - intros self. destruct (signal_step_spec content self m Hm) as (sb & len & _ & _ & ->).
    by rewrite last_msg_id_None.
  - destruct (_parse_messages_and_signals_spec content) as (self' & Hp & _ & _ & Hwk).
    exists self'. split; [done |]. intros k sigs s Hk Hs.
    destruct (Hwk k sigs s Hk Hs) as (m' & sb & len & Hm' & Hlast & ->).
    exists m', sb, len. split; [done |]. split; [|done].
    intros Hnil. by rewrite (last_msg_id_None _ _ Hnil) in Hlast.
Qed.

Lemma orphan_signal_discarded_witness :
  (∀ self, signal_step orphan_text self orphan_match = Some self) ∧
  (signals <$> _parse_messages_and_signals orphan_text init) = Some {[100 := []]}.
Proof.
  destruct (orphan_signal_discarded orphan_text orphan_match) as [Hstep _].
  - apply Nat.leb_le. vm_compute. reflexivity.
  - vm_compute. left.
  - vm_compute. reflexivity.
  - split; [exact Hstep |]. vm_compute. reflexivity.
Defined.



Example val_entries_ex :
  let text := "VAL_ 2147483748 SigA 0 " ++ dq ++ "Off" ++ dq ++ " ;" ++ nl
              ++ "VAL_ Env 1 " ++ dq ++ "On" ++ dq ++ " ;" in
  ∃ self', parse text init = Some self' ∧
    signal_value_tables self' = {[(100, "SigA") := {[0 := "Off"]}]} ∧
    env_var_value_tables self' = {["Env" := {[1 := "On"]}]}.
Proof. eexists. split_and!; vm_compute; reflexivity. Qed.

(** A match of the general pattern runs to the next semicolon and can hold
    a match of the signal pattern that starts later: the pairs of the signal
    entry are then stored under the signal and under the variable. *)
Example val_entries_overlap_ex :
  ((λ m, (m_start m, group m 1, group m 2))
     <$> finditer signal_val_pattern overlap_val_line)
  = [(9%nat, "100", "SigA")] ∧
  ((λ m, (m_start m, group m 1)) <$> finditer env_val_pattern overlap_val_line)
  = [(0%nat, "Env")] ∧
  ∃ self', parse overlap_val_line init = Some self' ∧
    signal_value_tables self' = {[(100, "SigA") := {[0 := "Off"]}]} ∧
    env_var_value_tables self' = {["Env" := {[0 := "Off"]}]}.
Proof. split_and!; [vm_compute; reflexivity..|]. eexists. split_and!; vm_compute; reflexivity. Qed.

Lemma last_value_snoc k ms m :
  last_value k (ms ++ [m])
  = if decide (py_int (group m 1) = Some k) then Some (group m 2)
    else last_value k ms.
Proof.
  induction ms as [|m' ms IH]; simpl.
  - done.
  - rewrite IH. destruct (decide (py_int (group m 1) = Some k)); [done |].
    done.
Qed.

(** C7. The pair parser takes negative keys; it never raises; and a key of
    the resulting mapping reads as the value of the last pair of the text
    that has this key. *)
Theorem value_dict_last_wins :
  _parse_value_dict pairs_text = Some {[-5 := "Neg"; 3 := "b"]} ∧
  ∀ values_str,
    ∃ d, _parse_value_dict values_str = Some d ∧
         ∀ k, d !! k = last_value k (finditer value_pair_pattern values_str).
Proof.
  split; [vm_compute; reflexivity |]. apply _parse_value_dict_spec.
Qed.

(** C8. The comment pass never raises and appends records that are a
    function of the text alone: no field of the parser, so no message, is
    consulted. The line gives the comment record of type [BO], target [100]
    and text [hello] whatever the parser holds; the record is there when no
    message was declared in the text and when message 100 was. *)
Theorem message_comment_needs_no_message :
  (∀ content self,
     _parse_comments content self
     = Some (with_comments self (comments self ++ comment_records content)%list)) ∧
  comment_records cm_line = [("BO", "100", "hello")] ∧
  (∀ self, _parse_comments cm_line self
           = Some (add_comment self ("BO", "100", "hello"))) ∧
  (∃ self', parse cm_line init = Some self' ∧
            messages self' = [] ∧ comments self' = [("BO", "100", "hello")]) ∧
  (∃ self', parse (msg100_line ++ nl ++ cm_line) init = Some self' ∧
            Msg.id <$> messages self' = [100] ∧
            comments self' = [("BO", "100", "hello")]).
Proof.
  split; [apply _parse_comments_spec |].
  split; [vm_compute; reflexivity |].
  split; [intros self; vm_compute; reflexivity |].
  split; eexists; (split; [vm_compute; reflexivity |]); split; reflexivity.
Qed.

(** C9. Parsing is not total: on a signal-scoped attribute assignment whose
    identifier token is not a decimal numeral, or is missing, the conversion
    of the token raises and the extractor, hence the whole parse, is
    aborted, also when well-formed entries surround the malformed one. *)
Theorem ba_assignment_can_raise :
  py_int "foo" = None ∧ py_int "" = None ∧
  (∀ self, _parse_ba_assignments ba_foo_line self = None) ∧
  (∀ self, _parse_ba_assignments ba_noid_line self = None) ∧
  (∀ self, _parse_ba_assignments (ba_sg_line ++ nl ++ ba_foo_line ++ nl ++ ba_sg_line) self
           = None) ∧
  parse ba_foo_line init = None ∧
  parse ba_noid_line init = None.
Proof. split_and!; try done; intros self; vm_compute; reflexivity. Qed.

(** C10. After message-and-signal extraction on any text, the keys of the
    signals dictionary are exactly the normalised identifiers of the
    extracted messages, and every stored signal carries the key it is stored
    under as its message identifier, which is therefore one of them. *)
Theorem signal_keys_are_message_ids content :
  ∃ self',
    _parse_messages_and_signals content init = Some self' ∧
    dom (signals self') = list_to_set (Msg.id <$> messages self') ∧
    ∀ k sigs s, signals self' !! k = Some sigs → s ∈ sigs →
      Sig.msg_id s = k ∧
      Sig.msg_id s ∈ (list_to_set (Msg.id <$> messages self') : gset Z).
Proof.
  destruct (_parse_messages_and_signals_spec content) as (self' & Hp & _ & Hdom & Hwk).
  exists self'. split; [done |]. split; [done |].
  intros k sigs s Hk Hs.
  destruct (Hwk k sigs s Hk Hs) as (m' & sb & len & _ & _ & ->). simpl.
  split; [done |]. apply elem_of_dom_2 in Hk. by rewrite Hdom in Hk.
Qed.

(** * Further properties *)

(** ** Loops that cannot raise *)

Lemma for_each_foldl {A S : Type} (f : S → A → S) (body : S → A → option S) l st :
  (∀ st a, a ∈ l → body st a = Some (f st a)) →
  for_each l body st = Some (foldl f st l).
Proof.
  revert st. induction l as [|a l IH]; intros st H; simpl; [done|].
  rewrite H by left. simpl. apply IH. intros st' b Hb. apply H. by right.
Qed.

Lemma dict_of_spec values_str : _parse_value_dict values_str = Some (dict_of values_str).
Proof.
  unfold dict_of. destruct (_parse_value_dict_spec values_str) as (d & -> & _). done.
Qed.

Lemma int_of_digits w : digits w → py_int w = Some (int_of w) ∧ 0 ≤ int_of w.
Proof.
  intros H. unfold int_of. destruct (py_int_digits w H) as (z & -> & Hz). done.
Qed.

(** ** The passes one by one *)

Lemma nodes_closed content :
  Full._parse_nodes content Full.init
  = Some (Full.mk init [] (nodes_of content) [] ∅ [] [] ∅).
Proof.
  unfold Full._parse_nodes, nodes_of.
  destruct (search nodes_pattern content) as [m|]; [|done].
  destruct (decide _) as [|Hn]; [done|].
  apply dec_stable in Hn. rewrite Hn. done.
Qed.

Lemma note_all_nub {A K : Type} `{EqDecision K} (key : A → K) l keys :
  note_all key l keys = (keys ++ filter (λ k, k ∉ keys) (nub (key <$> l)))%list.
Proof.
  unfold note_all. revert keys. induction l as [|a l IH]; intros keys; simpl.
  - by rewrite app_nil_r.
  - rewrite IH. unfold note_key. destruct (decide (key a ∈ keys)) as [Hin|Hin].
    + rewrite filter_cons_False by (intros ?; done). f_equal.
      rewrite list_filter_filter. apply list_filter_iff. intros k. split; [|tauto].
      intros Hk. split; [done|]. intros ->. done.
    + rewrite filter_cons_True by done. rewrite <- app_assoc. simpl. do 2 f_equal.
      rewrite list_filter_filter. apply list_filter_iff. intros k.
      rewrite elem_of_app, list_elem_of_singleton. tauto.
Qed.

Lemma note_all_nil {A K : Type} `{EqDecision K} (key : A → K) l :
  note_all key l [] = nub (key <$> l).
Proof.
  rewrite note_all_nub. simpl. induction (nub (key <$> l)) as [|k ks IH]; [done|].
  rewrite filter_cons_True by apply not_elem_of_nil. by f_equal.
Qed.

Lemma value_tables_closed content self :
  Full._parse_value_tables content self
  = Some (Full.mk
            (with_value_tables (Full.core self)
               (assign_all table_name_of table_of (finditer val_table_pattern content)
                  (value_tables (Full.core self))))
            (note_all table_name_of (finditer val_table_pattern content)
               (Full.value_tables_keys self))
            (Full.nodes self) (Full.ba_defs self) (Full.extra_transmitters self)
            (Full.extra_transmitters_keys self) (Full.env_vars self)
            (Full.signal_value_types self)).
Proof.
  unfold Full._parse_value_tables.
  rewrite (for_each_foldl (λ self m, Full.set_value_table (group m 1) (dict_of (group m 2)) self)).
  2:{ intros st m _. cbv beta zeta. by rewrite dict_of_spec. }
  f_equal. unfold assign_all, note_all.
  generalize (finditer val_table_pattern content). intros l. revert self.
  induction l as [|m l IH]; intros [[] ? ? ? ? ? ? ?]; simpl; [done|].
  rewrite IH. done.
Qed.

Lemma signal_val_closed content self :
  _parse_signal_val_entries content self
  = Some (with_signal_value_tables self
            (assign_all signal_key_of (λ m, dict_of (group m 3))
               (finditer signal_val_pattern content) (signal_value_tables self))).
Proof.
  unfold _parse_signal_val_entries.
  rewrite (for_each_foldl (λ self m, with_signal_value_tables self
            (<[signal_key_of m := dict_of (group m 3)]> (signal_value_tables self)))).
  2:{ intros st m Hm. unfold signal_val_step.
      destruct (int_of_digits _ (signal_val_group_digits _ _ Hm)) as [-> _].
      simpl. by rewrite dict_of_spec. }
  f_equal. unfold assign_all.
  generalize (finditer signal_val_pattern content). intros l. revert self.
  induction l as [|m l IH]; intros []; simpl; [done|].
  rewrite IH. done.
Qed.

Lemma env_val_closed content self :
  _parse_env_var_val_entries content self
  = Some (with_env_var_value_tables self
            (assign_all table_name_of table_of
               (filter (λ m, isdigit (group m 1) = false) (finditer env_val_pattern content))
               (env_var_value_tables self))).
Proof.
  unfold _parse_env_var_val_entries.
  rewrite (for_each_foldl (λ self m,
            if isdigit (group m 1) then self
            else with_env_var_value_tables self
                   (<[group m 1 := dict_of (group m 2)]> (env_var_value_tables self)))).
  2:{ intros st m _. unfold env_val_step.
      destruct (isdigit (group m 1)); simpl; [done|]. by rewrite dict_of_spec. }
  f_equal. unfold assign_all.
  generalize (finditer env_val_pattern content). intros l. revert self.
  induction l as [|m l IH]; intros []; simpl; [done|].
  destruct (isdigit (group m 1)) eqn:E.
  - rewrite filter_cons_False by (rewrite E; done). apply IH.
  - rewrite filter_cons_True by done. rewrite IH. done.
Qed.

Lemma ba_defs_closed content self :
  Full._parse_ba_defs content self
  = Some (Full.mk (Full.core self) (Full.value_tables_keys self) (Full.nodes self)
            (Full.ba_defs self ++ (Full.ba_def_of_match <$> finditer ba_def_pattern content))%list
            (Full.extra_transmitters self) (Full.extra_transmitters_keys self)
            (Full.env_vars self) (Full.signal_value_types self)).
Proof.
  unfold Full._parse_ba_defs.
  generalize (finditer ba_def_pattern content). intros l. revert self.
  induction l as [|m l IH]; intros []; simpl.
  - by rewrite app_nil_r.
  - rewrite IH. simpl. by rewrite <- app_assoc.
Qed.

Lemma ba_step_rec self m :
  ba_step self m
  = (λ r, with_ba_assignments self (ba_assignments self ++ [r])%list) <$> ba_rec_of m.
Proof.
  unfold ba_step, ba_rec_of. destruct (ba_scope _) as [[[? ?] ?]|]; done.
Qed.

Lemma ba_closed content self :
  _parse_ba_assignments content self
  = (λ recs, with_ba_assignments self (ba_assignments self ++ recs)%list)
      <$> mapM ba_rec_of (finditer ba_pattern content).
Proof.
  unfold _parse_ba_assignments.
  generalize (finditer ba_pattern content). intros l. revert self.
  induction l as [|m l IH]; intros self; simpl.
  - destruct self; simpl. by rewrite app_nil_r.
  - rewrite ba_step_rec. destruct (ba_rec_of m) as [r|]; simpl; [|done].
    rewrite IH. destruct (mapM ba_rec_of l) as [recs|]; simpl; [|done].
    destruct self; simpl. by rewrite <- app_assoc.
Qed.

Lemma extra_tx_group_digits content m :
  m ∈ finditer extra_tx_pattern content → digits (group m 1).
Proof.
  apply (finditer_group digits 1); [|done].
  cbv [captures_ok extra_tx_pattern rseq foldr plus star].
  split_and!; try exact I; intros ? ? ? ? HM Hn;
    first [discriminate Hn | by eapply Matches_plus_digit].
Qed.

Lemma sig_valtype_group_digits content m :
  m ∈ finditer sig_valtype_pattern content → digits (group m 1) ∧ digits (group m 3).
Proof.
  intros Hm. split.
  - revert Hm. apply (finditer_group digits 1); [|done].
    cbv [captures_ok sig_valtype_pattern rseq foldr plus star].
    split_and!; try exact I; intros ? ? ? ? HM Hn;
      first [discriminate Hn | by eapply Matches_plus_digit].
  - revert Hm. apply (finditer_group digits 3); [|done].
    cbv [captures_ok sig_valtype_pattern rseq foldr plus star].
    split_and!; try exact I; intros ? ? ? ? HM Hn;
      first [discriminate Hn | by eapply Matches_plus_digit].
Qed.

Lemma extra_tx_closed content self :
  Full._parse_extra_transmitters content self
  = Some (Full.mk (Full.core self) (Full.value_tables_keys self) (Full.nodes self)
            (Full.ba_defs self)
            (assign_all tx_id_of tx_names_of (finditer extra_tx_pattern content)
               (Full.extra_transmitters self))
            (note_all tx_id_of (finditer extra_tx_pattern content)
               (Full.extra_transmitters_keys self))
            (Full.env_vars self) (Full.signal_value_types self)).
Proof.
  unfold Full._parse_extra_transmitters.
  rewrite (for_each_foldl (λ self m,
            Full.mk (Full.core self) (Full.value_tables_keys self) (Full.nodes self)
              (Full.ba_defs self)
              (<[tx_id_of m := tx_names_of m]> (Full.extra_transmitters self))
              (note_key (tx_id_of m) (Full.extra_transmitters_keys self))
              (Full.env_vars self) (Full.signal_value_types self))).
  2:{ intros st m Hm. unfold Full.extra_tx_step.
      destruct (int_of_digits _ (extra_tx_group_digits _ _ Hm)) as [-> _]. done. }
  f_equal. unfold assign_all, note_all.
  generalize (finditer extra_tx_pattern content). intros l. revert self.
  induction l as [|m l IH]; intros []; simpl; [done|].
  rewrite IH. done.
Qed.

Lemma env_vars_closed content self :
  Full._parse_env_vars content self
  = Some (Full.mk (Full.core self) (Full.value_tables_keys self) (Full.nodes self)
            (Full.ba_defs self) (Full.extra_transmitters self)
            (Full.extra_transmitters_keys self)
            (Full.env_vars self
             ++ (Full.env_var_of_match <$> finditer env_var_pattern content))%list
            (Full.signal_value_types self)).
Proof.
  unfold Full._parse_env_vars.
  generalize (finditer env_var_pattern content). intros l. revert self.
  induction l as [|m l IH]; intros []; simpl.
  - by rewrite app_nil_r.
  - rewrite IH. simpl. by rewrite <- app_assoc.
Qed.

Lemma sig_valtype_closed content self :
  Full._parse_signal_value_types content self
  = Some (Full.mk (Full.core self) (Full.value_tables_keys self) (Full.nodes self)
            (Full.ba_defs self) (Full.extra_transmitters self)
            (Full.extra_transmitters_keys self) (Full.env_vars self)
            (assign_all signal_key_of (λ m, int_of (group m 3))
               (finditer sig_valtype_pattern content) (Full.signal_value_types self))).
Proof.
  unfold Full._parse_signal_value_types.
  rewrite (for_each_foldl (λ self m,
            Full.mk (Full.core self) (Full.value_tables_keys self) (Full.nodes self)
              (Full.ba_defs self) (Full.extra_transmitters self)
              (Full.extra_transmitters_keys self) (Full.env_vars self)
              (<[signal_key_of m := int_of (group m 3)]> (Full.signal_value_types self)))).
  2:{ intros st m Hm. unfold Full.sig_valtype_step.
      destruct (sig_valtype_group_digits _ _ Hm) as [H1 H3].
      destruct (int_of_digits _ H1) as [-> _].
      destruct (int_of_digits _ H3) as [-> _]. done. }
  f_equal. unfold assign_all.
  generalize (finditer sig_valtype_pattern content). intros l. revert self.
  induction l as [|m l IH]; intros []; simpl; [done|].
  rewrite IH. done.
Qed.

(** ** The passes together *)

Lemma messages_and_signals_closed content vt :
  _parse_messages_and_signals content (with_value_tables init vt)
  = Some (let st0 := default init (_parse_messages_and_signals content init) in
          mkDbcParser (messages st0) (signals st0) vt ∅ ∅ [] []).
Proof.
  change (with_value_tables init vt) with (reframe (with_value_tables init vt) init).
  rewrite _parse_messages_and_signals_reframe.
  destruct (_parse_messages_and_signals_spec content) as (st0 & -> & _). done.
Qed.

Ltac next_pass :=
  cbn [fmap option_fmap option_map mbind option_bind Full.core Full.with_core
       Full.value_tables_keys Full.nodes Full.ba_defs Full.extra_transmitters
       Full.extra_transmitters_keys Full.env_vars Full.signal_value_types].

Lemma full_parse_closed content : Full.parse content Full.init = parsed content.
Proof.
  unfold Full.parse, parsed, Full.lift.
  rewrite nodes_closed. next_pass.
  rewrite value_tables_closed. next_pass.
  rewrite messages_and_signals_closed. next_pass.
  rewrite signal_val_closed. next_pass.
  rewrite env_val_closed. next_pass.
  rewrite _parse_comments_spec. next_pass.
  rewrite ba_defs_closed. next_pass.
  rewrite ba_closed.
  destruct (mapM ba_rec_of (finditer ba_pattern content)) as [recs|]; next_pass;
    [|done].
  rewrite extra_tx_closed. next_pass.
  rewrite env_vars_closed. next_pass.
  rewrite sig_valtype_closed.
  cbn. rewrite !note_all_nil. done.
Qed.

(** ** Splitting at whitespace *)

Lemma words_lstrip s : words (lstrip_with is_space s) = words s.
Proof.
  induction s as [|c s IH]; simpl; [done|].
  destruct (is_space c) eqn:E; [done|]. simpl. by rewrite E.
Qed.

Lemma span_not_length p s :
  (String.length (span_not p s).2 ≤ String.length s)%nat.
Proof.
  induction s as [|c s IH]; simpl; [done|].
  destruct (p c); simpl; [done|].
  destruct (span_not p s) as [tok rest]. simpl in *. lia.
Qed.

Lemma at_gap_span s : at_gap s = true → span_not is_space s = ("", s).
Proof. destruct s as [|d s]; simpl; [done|]. by intros ->. Qed.

Lemma at_gap_false s :
  at_gap s = false → ∃ d s', s = String d s' ∧ is_space d = false.
Proof. destruct s as [|d s]; simpl; [done|]. eauto. Qed.

Lemma words_cons c s :
  words (String c s)
  = if is_space c then words s
    else if at_gap s then String c "" :: words s
    else match words s with
         | t :: ts => String c t :: ts
         | [] => [String c ""]
         end.
Proof. done. Qed.

Lemma words_span c s :
  is_space c = false →
  words (String c s)
  = (span_not is_space (String c s)).1 :: words (span_not is_space (String c s)).2.
Proof.
  revert c. induction s as [|d s IH]; intros c Hc.
  { simpl. rewrite Hc. done. }
  rewrite words_cons, Hc. cbn [span_not at_gap]. rewrite Hc.
  destruct (is_space d) eqn:Hd; [done|].
  rewrite (IH d Hd). cbn [span_not]. rewrite Hd.
  destruct (span_not is_space s) as [tok rest]. done.
Qed.

Lemma split_ws_words f n s :
  (String.length s ≤ f)%nat → (String.length s ≤ n)%nat → split_ws f n s = words s.
Proof.
  revert n s. induction f as [|f IH]; intros n s Hf Hn.
  - destruct s; [|simpl in Hf; lia]. by destruct n.
  - rewrite <- words_lstrip.
    assert (Hl : (String.length (lstrip_with is_space s) ≤ String.length s)%nat).
    { clear. induction s as [|c s IH]; simpl; [done|]. destruct (is_space c); simpl; lia. }
    assert (Hh : stops is_space (lstrip_with is_space s)).
    { clear. induction s as [|c s IH]; simpl; [done|].
      destruct (is_space c) eqn:E; [done|]. done. }
    cbn [split_ws]. destruct (lstrip_with is_space s) as [|c s1] eqn:E1; [done|].
    simpl in Hh. destruct n as [|n]; [simpl in *; lia|].
    rewrite (words_span c s1 Hh).
    pose proof (span_not_length is_space (String c s1)) as Hlen.
    destruct (span_not is_space (String c s1)) as [tok rest] eqn:Es.
    assert (Hlt : (String.length rest < String.length (String c s1))%nat).
    { simpl in Es. rewrite Hh in Es. destruct (span_not is_space s1) as [t r] eqn:E2.
      injection Es as <- <-. pose proof (span_not_length is_space s1) as H2.
      rewrite E2 in H2. simpl in *. lia. }
    simpl. f_equal. apply IH; simpl in *; lia.
Qed.

Lemma split_words s : split s = words s.
Proof. by apply split_ws_words. Qed.

Lemma rstrip_with_head p s c r :
  rstrip_with p s = String c r → ∃ s', s = String c s'.
Proof.
  destruct s as [|d s]; simpl; [done|].
  destruct (rstrip_with p s); [destruct (p d)|]; intros [= <- <-]; eauto.
Qed.

Lemma at_gap_rstrip s :
  rstrip_with is_space s ≠ "" → at_gap (rstrip_with is_space s) = at_gap s.
Proof.
  destruct (rstrip_with is_space s) as [|c r] eqn:E; [done|]. intros _.
  destruct (rstrip_with_head _ _ _ _ E) as [s' ->]. done.
Qed.

Lemma words_rstrip s : words (rstrip_with is_space s) = words s.
Proof.
  induction s as [|c s IH]; [done|]. cbn [rstrip_with].
  destruct (rstrip_with is_space s) as [|d r] eqn:E.
  - simpl in IH. destruct (is_space c) eqn:Hc; simpl; rewrite Hc; [done|].
    rewrite <- IH. by destruct (at_gap s).
  - cbn [words]. destruct (is_space c); [done|].
    rewrite <- IH. rewrite <- (at_gap_rstrip s) by (rewrite E; done). by rewrite E.
Qed.

Lemma words_strip s : words (strip s) = words s.
Proof. unfold strip, strip_with. by rewrite words_rstrip, words_lstrip. Qed.

Lemma words_chars (p : ascii → bool) s :
  forallb_str p s = true → Forall (λ w, forallb_str p w = true) (words s).
Proof.
  induction s as [|c s IH]; simpl; [constructor|].
  intros [Hc Hs]%andb_prop. specialize (IH Hs).
  destruct (is_space c); [done|].
  destruct (at_gap s).
  - constructor; [simpl; by rewrite Hc|done].
  - destruct (words s) as [|t ts].
    + constructor; [simpl; by rewrite Hc|done].
    + inversion IH; subst. constructor; [simpl; by rewrite Hc|done].
Qed.

(** Every word is a non-empty run of characters that are not whitespace. *)
Lemma words_nonspace s : Forall (run nonspace) (words s).
Proof.
  induction s as [|c s IH]; simpl; [constructor|].
  destruct (is_space c) eqn:Hc; [done|].
  assert (Hr : ∀ t, forallb_str nonspace t = true → run nonspace (String c t)).
  { intros t Ht. split; [done|]. simpl. unfold nonspace at 1. by rewrite Hc. }
  destruct (at_gap s).
  - constructor; [by apply Hr|done].
  - destruct (words s) as [|t ts].
    + constructor; [by apply Hr|done].
    + inversion IH as [|? ? [_ Ht] Hts]; subst. constructor; [by apply Hr|done].
Qed.

Lemma strip_word w : forallb_str nonspace w = true → strip w = w.
Proof.
  intros H. unfold strip, strip_with.
  assert (lstrip_with is_space w = w) as ->.
  { destruct w as [|c w]; [done|]. simpl in *. apply andb_prop in H as [Hc _].
    unfold nonspace in Hc. apply negb_true_iff in Hc. by rewrite Hc. }
  by apply rstrip_with_none.
Qed.

Lemma stripped_words l : Forall (run nonspace) l → stripped l = l.
Proof.
  unfold stripped. induction 1 as [|w l [Hne Hw] _ IH]; [done|].
  rewrite filter_cons_True by (by rewrite strip_word). simpl.
  rewrite strip_word by done. by f_equal.
Qed.

(** The strip and the filter of the comprehension change nothing. *)
Lemma stripped_split s : stripped (split s) = words s.
Proof. rewrite split_words. apply stripped_words, words_nonspace. Qed.

Lemma name_list_words s : name_list s = words (replace_char "," " " s).
Proof. apply stripped_split. Qed.

Lemma words_app_word w s :
  forallb_str nonspace w = true → w ≠ "" → at_gap s = true →
  words (w ++ s) = w :: words s.
Proof.
  induction w as [|c w IH]; [done|]. intros [Hc Hw]%andb_prop _ Hs.
  unfold nonspace in Hc. apply negb_true_iff in Hc. simpl. rewrite Hc.
  destruct w as [|d w].
  - simpl. by rewrite Hs.
  - assert (at_gap (String d w ++ s) = false) as ->.
    { simpl in *. apply andb_prop in Hw as [Hd _]. unfold nonspace in Hd.
      by apply negb_true_iff in Hd. }
    by rewrite IH.
Qed.

Lemma join_cons sep x y l : join sep (x :: y :: l) = x ++ sep ++ join sep (y :: l).
Proof. done. Qed.

Lemma words_join l :
  Forall (run nonspace) l → words (join " " l) = l.
Proof.
  induction 1 as [|w l [Hne Hw] Hl IH]; [done|].
  destruct l as [|w' l].
  - change (join " " [w]) with w. transitivity (words (w ++ "")).
    { by rewrite str_app_nil_r. }
    by rewrite words_app_word.
  - rewrite join_cons, words_app_word by done. f_equal. apply IH.
Qed.

Lemma replace_char_app a b s t :
  replace_char a b (s ++ t) = replace_char a b s ++ replace_char a b t.
Proof. induction s as [|c s IH]; simpl; [done|]. by rewrite IH. Qed.

Lemma replace_char_none a b s :
  forallb_str (λ c, negb (ascii_eqb a c)) s = true → replace_char a b s = s.
Proof.
  induction s as [|c s IH]; simpl; [done|]. intros [Hc Hs]%andb_prop.
  apply negb_true_iff in Hc. rewrite Hc. by rewrite IH.
Qed.

Lemma replace_comma_join l :
  Forall (run name_char) l → replace_char "," " " (join "," l) = join " " l.
Proof.
  induction 1 as [|w l [Hne Hw] Hl IH]; [done|].
  assert (Hrw : replace_char "," " " w = w).
  { apply replace_char_none. revert Hw. apply forallb_str_impl.
    intros c. unfold name_char. intros [_ ?]%andb_prop. done. }
  destruct l as [|w' l]; [done|].
  rewrite !join_cons, !replace_char_app, Hrw, IH. done.
Qed.

Lemma name_char_nonspace w : run name_char w → run nonspace w.
Proof.
  intros [Hne Hw]. split; [done|]. revert Hw. apply forallb_str_impl.
  intros c. unfold name_char. by intros [? _]%andb_prop.
Qed.

(** Every name of a comma-separated list is a non-empty run of characters
    that are neither whitespace nor commas. *)
Lemma name_list_names s : Forall (run name_char) (name_list s).
Proof.
  rewrite name_list_words.
  assert (H1 : Forall (run nonspace) (words (replace_char "," " " s)))
    by apply words_nonspace.
  assert (H2 : Forall (λ w, forallb_str (λ c, negb (ascii_eqb "," c)) w = true)
                 (words (replace_char "," " " s))).
  { apply words_chars. clear. induction s as [|c s IH]; [done|].
    cbn [replace_char forallb_str]. rewrite IH, andb_true_r.
    destruct (ascii_eqb "," c) eqn:E; [done|]. by rewrite E. }
  induction H1 as [|w l [Hne Hw] _ IH]; [constructor|].
  inversion H2 as [|? ? Hc Hl]; subst. constructor; [|by apply IH].
  split; [done|]. clear -Hw Hc. induction w as [|c w IH]; [done|]. simpl in *.
  apply andb_prop in Hw as [? ?]. apply andb_prop in Hc as [? ?].
  unfold name_char at 1. rewrite IH by done. by repeat (apply andb_true_intro; split).
Qed.

Lemma name_list_join l : Forall (run name_char) l → name_list (join "," l) = l.
Proof.
  intros H. rewrite name_list_words, replace_comma_join by done.
  apply words_join. eapply Forall_impl; [done|]. apply name_char_nonspace.
Qed.

Lemma words_replace_strip s :
  words (replace_char "," " " (strip s)) = words (replace_char "," " " s).
Proof.
  assert (Hsp : ∀ c, is_space c = true →
                     is_space (if ascii_eqb "," c then " "%char else c) = true).
  { intros c Hc. by destruct (ascii_eqb "," c). }
  unfold strip, strip_with. transitivity (words (replace_char "," " " (lstrip_with is_space s))).
  - generalize (lstrip_with is_space s). clear s. intros s.
    induction s as [|c s IH]; [done|]. cbn [rstrip_with].
    destruct (rstrip_with is_space s) as [|d r] eqn:E.
    + simpl in IH. cbn [replace_char]. rewrite words_cons, <- IH.
      destruct (is_space c) eqn:Hc.
      * rewrite Hsp by done. done.
      * cbn [replace_char]. rewrite words_cons. cbn [replace_char at_gap words].
        destruct (is_space _); [done|]. by destruct (at_gap _).
    + cbn [replace_char]. rewrite !words_cons, <- IH.
      destruct (rstrip_with_head _ _ _ _ E) as [s' ->]. done.
  - induction s as [|c s IH]; [done|]. cbn [lstrip_with].
    destruct (is_space c) eqn:Hc; [|done].
    rewrite IH. cbn [replace_char]. rewrite words_cons, Hsp by done. done.
Qed.

(** ** When [parse] raises *)

Lemma startswith_app s t : startswith s t = true ↔ ∃ r, s = t ++ r.
Proof.
  unfold startswith. destruct (strip_prefix t s) as [r|] eqn:E.
  - apply strip_prefix_Some in E. split; [eauto|done].
  - split; [done|]. intros [r ->]. by rewrite strip_prefix_app in E.
Qed.

Lemma ba_scope_None rest :
  ba_scope rest = None
  ↔ startswith rest "SG_" = true ∧ py_int (part (split_max 3 rest) 1) = None.
Proof.
  unfold ba_scope.
  destruct (startswith rest "SG_") eqn:ESG.
  - apply startswith_app in ESG as [r ->].
    change (startswith ("SG_" ++ r) "BU_") with false.
    change (startswith ("SG_" ++ r) "BO_") with false. cbv iota.
    destruct (py_int _); simpl; split; try done. by intros [_ ?].
  - destruct (startswith rest "BU_"), (startswith rest "BO_"), (startswith rest "EV_");
      split; try done; by intros [? _].
Qed.

Lemma ba_rec_of_None m :
  ba_rec_of m = None
  ↔ startswith (strip (group m 2)) "SG_" = true
    ∧ py_int (part (split_max 3 (strip (group m 2))) 1) = None.
Proof.
  rewrite <- ba_scope_None. unfold ba_rec_of.
  destruct (ba_scope _) as [[[? ?] ?]|]; done.
Qed.

Lemma mapM_None_iff {A B : Type} (f : A → option B) l :
  mapM f l = None ↔ ∃ a, a ∈ l ∧ f a = None.
Proof.
  induction l as [|a l IH]; simpl.
  - split; [done|]. by intros (a & Ha%elem_of_nil & _).
  - destruct (f a) as [b|] eqn:E; simpl.
    + destruct (mapM f l) as [bs|]; simpl.
      * split; [done|]. intros (a' & [->|Ha']%elem_of_cons & Hf); [congruence|].
        destruct IH as [_ IH]. discriminate IH. eauto.
      * split; [|done]. intros _. destruct IH as [IH _].
        destruct (IH eq_refl) as (a' & Ha' & Hf). exists a'. split; [by right|done].
    + split; [|done]. intros _. exists a. split; [by left|done].
Qed.

(** X1. On a text whose numerals [int()] takes ([within_int_limit]),
    [parse] raises exactly when the text holds an attribute assignment
    whose text after the attribute name starts with [SG_] and whose second
    word is missing or is no integer literal: no other pass and no other
    assignment can raise. (A numeral of more than [int_max_str_digits]
    digits makes [int()] raise wherever a pass reads it.) *)
Theorem full_parse_raises_iff content :
  within_int_limit content →
  (Full.parse content Full.init = None
   ↔ ∃ m, m ∈ finditer ba_pattern content
          ∧ startswith (strip (group m 2)) "SG_" = true
          ∧ py_int (part (split_max 3 (strip (group m 2))) 1) = None).
Proof.
  intros _. rewrite full_parse_closed. unfold parsed.
  destruct (mapM ba_rec_of (finditer ba_pattern content)) as [recs|] eqn:E; simpl.
  - split; [done|]. intros (m & Hm & Hbad). apply ba_rec_of_None in Hbad.
    assert (mapM ba_rec_of (finditer ba_pattern content) = None) as Hn
      by (apply mapM_None_iff; eauto).
    congruence.
  - split; [|done]. intros _. apply mapM_None_iff in E as (m & Hm & Hbad).
    apply ba_rec_of_None in Hbad. eauto.
Qed.

Lemma full_parse_raises_iff_witness : Full.parse ba_foo_line Full.init = None.
Proof.
  apply (full_parse_raises_iff ba_foo_line).
  - apply Nat.leb_le. vm_compute. reflexivity.
  - exists (default (Build_Match 0 0 ∅) (head (finditer ba_pattern ba_foo_line))).
    split_and!; vm_compute; [left | reflexivity..].
Defined.

(** ** The first six passes within the whole parser *)

Lemma nodes_frame content self :
  ∃ self', Full._parse_nodes content self = Some self' ∧
           Full.core self' = Full.core self ∧
           Full.value_tables_keys self' = Full.value_tables_keys self.
Proof.
  unfold Full._parse_nodes.
  destruct (search nodes_pattern content) as [m|]; [|by eexists].
  destruct (decide _); by eexists.
Qed.

(** X2. On a text whose numerals [int()] takes, each of the five passes
    for nodes, attribute definitions, further transmitters, environment
    variables and signal value types returns, from any parser state, and
    leaves the fields of the six other passes as they are: messages,
    signals, the three kinds of value tables, comments, attribute
    assignments and the order of the value tables. *)
Theorem further_passes_frame content self pass :
  within_int_limit content →
  pass ∈ [Full._parse_nodes; Full._parse_ba_defs; Full._parse_extra_transmitters;
          Full._parse_env_vars; Full._parse_signal_value_types] →
  ∃ self', pass content self = Some self' ∧
           Full.core self' = Full.core self ∧
           Full.value_tables_keys self' = Full.value_tables_keys self.
Proof.
  intros _ Hpass.
  repeat (apply elem_of_cons in Hpass as [-> | Hpass]).
  - apply nodes_frame.
  - rewrite ba_defs_closed. by eexists.
  - rewrite extra_tx_closed. by eexists.
  - rewrite env_vars_closed. by eexists.
  - rewrite sig_valtype_closed. by eexists.
  - by apply elem_of_nil in Hpass.
Qed.

Lemma further_passes_frame_witness :
  ∃ self', Full._parse_signal_value_types sample_dbc sample_parser = Some self' ∧
           Full.core self' = Full.core sample_parser ∧
           Full.value_tables_keys self' = Full.value_tables_keys sample_parser.
Proof.
  apply (further_passes_frame sample_dbc sample_parser Full._parse_signal_value_types).
  - apply Nat.leb_le. vm_compute. reflexivity.
  - do 4 right. left.
Defined.

Lemma core_value_tables_closed content self :
  _parse_value_tables content self
  = Some (with_value_tables self
            (assign_all table_name_of table_of (finditer val_table_pattern content)
               (value_tables self))).
Proof.
  unfold _parse_value_tables.
  rewrite (for_each_foldl (λ self m, with_value_tables self
            (<[group m 1 := dict_of (group m 2)]> (value_tables self)))).
  2:{ intros st m _. cbv beta zeta. by rewrite dict_of_spec. }
  f_equal. unfold assign_all.
  generalize (finditer val_table_pattern content). intros l. revert self.
  induction l as [|m l IH]; intros []; simpl; [done|].
  rewrite IH. done.
Qed.

Lemma parse_closed content :
  parse content init = Full.core <$> parsed content.
Proof.
  unfold parse, parsed.
  rewrite core_value_tables_closed. cbn [mbind option_bind].
  rewrite messages_and_signals_closed. cbn [mbind option_bind].
  rewrite signal_val_closed. cbn [mbind option_bind].
  rewrite env_val_closed. cbn [mbind option_bind].
  rewrite _parse_comments_spec. cbn [mbind option_bind].
  rewrite ba_closed.
  destruct (mapM ba_rec_of (finditer ba_pattern content)) as [recs|]; done.
Qed.

(** The six passes of the first part, run on their own in the order of
    [parse], give the fields that [Full.parse] gives them. *)
Lemma full_parse_core content :
  Full.core <$> Full.parse content Full.init = parse content init.
Proof. by rewrite full_parse_closed, parse_closed. Qed.

(** ** What a successful [parse] returns *)

Lemma full_parse_inv content p :
  Full.parse content Full.init = Some p →
  ∃ recs st0,
    mapM ba_rec_of (finditer ba_pattern content) = Some recs ∧
    _parse_messages_and_signals content init = Some st0 ∧
    p = Full.mk
          (mkDbcParser (messages st0) (signals st0) (value_tables_of content)
             (signal_value_tables_of content) (env_var_value_tables_of content)
             (comment_records content) recs)
          (nub (table_name_of <$> finditer val_table_pattern content))
          (nodes_of content)
          (Full.ba_def_of_match <$> finditer ba_def_pattern content)
          (assign_all tx_id_of tx_names_of (finditer extra_tx_pattern content) ∅)
          (nub (tx_id_of <$> finditer extra_tx_pattern content))
          (Full.env_var_of_match <$> finditer env_var_pattern content)
          (assign_all signal_key_of (λ m, int_of (group m 3))
             (finditer sig_valtype_pattern content) ∅).
Proof.
  rewrite full_parse_closed. unfold parsed.
  destruct (mapM ba_rec_of (finditer ba_pattern content)) as [recs|]; [|done].
  destruct (_parse_messages_and_signals_spec content) as (st0 & Hst0 & _).
  rewrite Hst0. simpl. intros [= <-]. eauto.
Qed.

(** ** Signals by message *)

Lemma signal_loop_exact content l self :
  (∀ m, m ∈ l → m ∈ finditer sig_pattern content) →
  ∃ self',
    for_each l (signal_step content) self = Some self' ∧
    messages self' = messages self ∧
    ∀ k, signals self' !! k
         = (λ sigs, sigs ++ (signal_of k
                              <$> filter (λ m, last_msg_id content (m_start m) = Some k) l))%list
             <$> signals self !! k.
Proof.
  revert self. induction l as [|m l IH]; intros self Hl.
  { exists self. split_and!; [done..|]. intros k. simpl.
    destruct (signals self !! k); simpl; [|done]. by rewrite app_nil_r. }
  destruct (signal_step_spec content self m) as (sb & len & Hsb & Hlen & Hstep).
  { apply Hl. by left. }
  assert (Hsb' : int_of (group m 3) = sb) by (unfold int_of; by rewrite Hsb).
  assert (Hlen' : int_of (group m 4) = len) by (unfold int_of; by rewrite Hlen).
  cbn [for_each]. rewrite Hstep. cbn [mbind option_bind].
  match goal with
  | |- context [for_each l _ ?s] => destruct (IH s) as (self' & Hfor & Hmsgs & Hsigs)
  end.
  { intros m' Hm'. apply Hl. by right. }
  exists self'. split; [done|].
  destruct (last_msg_id content (m_start m)) as [id|] eqn:Elast.
  - destruct (signals self !! id) as [sigs|] eqn:Eid.
    + split; [by rewrite Hmsgs|]. intros k. rewrite Hsigs. cbn [signals with_signals].
      destruct (decide (k = id)) as [->|Hne].
      * rewrite lookup_insert_eq, Eid. simpl.
        rewrite filter_cons_True by done. simpl. rewrite <- app_assoc. simpl.
        unfold signal_of at 2. by rewrite Hsb', Hlen'.
      * rewrite lookup_insert_ne by done.
        rewrite filter_cons_False by congruence. done.
    + split; [done|]. intros k. rewrite Hsigs.
      destruct (decide (k = id)) as [->|Hne].
      * by rewrite Eid.
      * rewrite filter_cons_False by congruence. done.
  - split; [done|]. intros k. rewrite Hsigs.
    rewrite filter_cons_False by congruence. done.
Qed.

Lemma signals_exact content st0 k :
  _parse_messages_and_signals content init = Some st0 →
  signals st0 !! k
  = if decide (k ∈ msg_ids (messages st0)) then
      Some (signal_of k <$> declared_under content k)
    else None.
Proof.
  unfold _parse_messages_and_signals. intros H.
  destruct (message_loop content (finditer msg_pattern content) init)
    as (s1 & msgs & Hs1 & _ & Hm1 & _ & Hin & Hout & _); [done|].
  rewrite Hs1 in H. cbn [mbind option_bind] in H.
  destruct (signal_loop_exact content (finditer sig_pattern content) s1)
    as (s2 & Hs2 & Hm2 & Hsig); [done|].
  rewrite Hs2 in H. injection H as <-.
  rewrite Hsig, Hm2, Hm1. simpl.
  destruct (decide (k ∈ msg_ids msgs)) as [Hk|Hk].
  - by rewrite (Hin k Hk).
  - by rewrite (Hout k Hk).
Qed.

(** X3. After a successful [parse] the signals stored under the identifier
    of a message are built from exactly the matches of the signal pattern
    for which the backwards search finds that identifier, that is, for
    which the last match of the message pattern within the text before the
    signal, [content[:sig_pos]], has it; they stand in the order of the
    text, each once. Identifiers of no message have no entry. *)
Theorem signals_in_declaration_order content p k :
  Full.parse content Full.init = Some p →
  signals (Full.core p) !! k
  = if decide (k ∈ msg_ids (messages (Full.core p))) then
      Some (signal_of k <$> declared_under content k)
    else None.
Proof.
  intros (recs & st0 & _ & Hst0 & ->)%full_parse_inv. simpl.
  by apply signals_exact.
Qed.

Lemma signals_in_declaration_order_witness :
  signals (Full.core sample_parser) !! 100 = Some [sample_signal] ∧
  signals (Full.core sample_parser) !! 300 = None.
Proof.
  split.
  - rewrite (signals_in_declaration_order sample_dbc sample_parser 100).
    + vm_compute. reflexivity.
    + vm_compute. reflexivity.
  - rewrite (signals_in_declaration_order sample_dbc sample_parser 300).
    + vm_compute. reflexivity.
    + vm_compute. reflexivity.
Defined.

(** ** Where the backwards search finds the latest message

    The search runs on the text cut at the signal. A message declaration
    of the whole text that ends before the signal is a declaration of the
    cut text too; one that runs across the start of the signal is cut
    short, and is found at most with another end. *)

Lemma length_take_str_min n s :
  String.length (take_str n s) = Nat.min n (String.length s).
Proof. revert s. induction n as [|n IH]; intros [|c s]; simpl; auto. Qed.

Lemma msg_pattern_in_patterns : msg_pattern ∈ patterns.
Proof. unfold patterns. set_solver. Qed.

Lemma scan_bounds r skip pos s m :
  r ∈ patterns → m ∈ scan r skip pos s →
  (pos + skip ≤ m_start m)%nat ∧ (m_start m < m_end m)%nat ∧
  (m_end m ≤ pos + String.length s)%nat.
Proof.
  intros Hr (j & rest & Hj & Hm & -> & ->)%scan_elem.
  apply (patterns_consume _ _ _ _ Hr) in Hm.
  rewrite length_drop_str in *. lia.
Qed.

(** The scan reports its matches from left to right. *)
Lemma scan_sorted r skip pos s :
  StronglySorted (λ a b, (m_start a < m_start b)%nat) (scan r skip pos s).
Proof.
  revert skip pos. induction s as [|c s IH]; intros skip pos; simpl; [constructor|].
  destruct skip as [|n]; [|apply IH].
  destruct (match_at r (String c s)) as [[rest g]|]; [|apply IH].
  constructor; [apply IH|]. apply Forall_forall.
  intros m (j & rest' & _ & _ & -> & _)%scan_elem. simpl. lia.
Qed.

Lemma scan_same_start r skip pos s m m' :
  m ∈ scan r skip pos s → m' ∈ scan r skip pos s → m_start m = m_start m' →
  m_groups m = m_groups m'.
Proof.
  intros (j & rest & _ & Hm & Hs & _)%scan_elem
         (j' & rest' & _ & Hm' & Hs' & _)%scan_elem E.
  assert (j = j') as -> by lia. congruence.
Qed.

Lemma sorted_last_max {A : Type} (f : A → nat) (l : list A) x y :
  StronglySorted (λ a b, (f a < f b)%nat) l →
  last l = Some y → x ∈ l → (f x ≤ f y)%nat.
Proof.
  induction 1 as [|a l Hs IH Hall]; [done|].
  intros Hlast [->|Hx]%elem_of_cons.
  - destruct l as [|b l]; [by injection Hlast as ->|].
    rewrite last_cons_cons in Hlast. apply last_Some_elem_of in Hlast.
    rewrite Forall_forall in Hall. specialize (Hall _ Hlast). lia.
  - destruct l as [|b l]; [by apply elem_of_nil in Hx|].
    rewrite last_cons_cons in Hlast. by apply IH.
Qed.

(** A match of [msg_pattern] at the head of a text that ends before the
    appended text [t] is a match of the text before [t], with the same end
    and the same identifier. *)
Lemma msg_match_restrict s t r0 g' :
  match_at msg_pattern (s ++ t) = Some (r0 ++ t, g') →
  ∃ g, match_at msg_pattern s = Some (r0, g) ∧ g !! 1%nat = g' !! 1%nat.
Proof.
  intros Hfull.
  destruct (rmatch_sound _ _ _ _ _ Hfull) as (s' & g'' & HM & [= -> ->]).
  pose proof (Matches_trunc _ _ _ _ _ HM s r0 t eq_refl eq_refl) as HM'.
  destruct (rmatch_complete _ _ _ _ _ (λ s' g, Some (s', g)) HM') as [[rest g] Hx];
    [done |].
  change (match_at msg_pattern s = Some (rest, g)) in Hx.
  apply msg_match_at_shape in Hfull as (q & Hq & Hs & Hst & Hg').
  rewrite <- msg_then_app in Hs. apply str_app_inv_tail in Hs.
  pose proof Hx as Hx'.
  apply msg_match_at_shape in Hx' as (p & Hp & Hs' & Hst' & Hg).
  assert (Hr0 : stops nonspace r0).
  { destruct r0; [done|]. exact Hst. }
  assert (rest = r0) as ->.
  { eapply (msg_unique_rest p q); [done | done | | done | done].
    by rewrite <- Hs', <- Hs. }
  exists g. split; [done|]. rewrite Hg, Hg'. f_equal.
  rewrite Hs in Hs'.
  by destruct (msg_unique_id q p _ _ Hq Hp Hs') as (_ & -> & _).
Qed.

(** Every message declaration that the scan of a text with more text
    appended finds and that ends before the appended text is found, at the
    same place and with the same identifier, by the scan of the text
    itself. *)
Lemma scan_msg_restrict s t skip pos m' :
  m' ∈ scan msg_pattern skip pos (s ++ t) →
  (m_end m' ≤ pos + String.length s)%nat →
  ∃ m, m ∈ scan msg_pattern skip pos s ∧
       m_start m = m_start m' ∧ m_end m = m_end m' ∧ group m 1 = group m' 1.
Proof.
  revert skip pos. induction s as [|c s IH]; intros skip pos.
  - intros Hin Hend. exfalso.
    apply (scan_bounds _ _ _ _ _ msg_pattern_in_patterns) in Hin. simpl in Hend. lia.
  - change (String c s ++ t) with (String c (s ++ t)). cbn [scan].
    destruct skip as [|n].
    2:{ intros Hin Hend. apply IH; [done|]. simpl in Hend. lia. }
    change (String c (s ++ t)) with (String c s ++ t).
    destruct (match_at msg_pattern (String c s ++ t)) as [[rest' g']|] eqn:E'.
    + destruct (decide (String.length t ≤ String.length rest')%nat) as [Hle|Hgt].
      * pose proof E' as Hshape.
        apply msg_match_at_shape in Hshape as (q & Hq & Hs & _ & _).
        rewrite msg_then_body, <- str_app_assoc in Hs. symmetry in Hs.
        destruct (suffix_split _ _ _ _ Hs Hle) as (r0 & -> & Hs0).
        destruct (msg_match_restrict _ _ _ _ E') as (g & -> & Hg).
        replace (String.length (String c s ++ t) - String.length (r0 ++ t))%nat
          with (String.length (String c s) - String.length r0)%nat
          by (rewrite !str_length_app; lia).
        intros [->|Hin]%elem_of_cons Hend.
        -- eexists. split; [by left|]. split_and!; [done..|].
           unfold group. simpl. by rewrite Hg.
        -- destruct (IH _ _ Hin) as (m & Hm & Hgm); [simpl in Hend; lia|].
           exists m. split; [by right|done].
      * intros Hin Hend. exfalso.
        assert (Hlen : (String.length rest' < String.length (String c s ++ t))%nat)
          by (eapply patterns_consume; [apply msg_pattern_in_patterns | done]).
        rewrite str_length_app in Hlen.
        apply elem_of_cons in Hin as [->|Hin].
        -- simpl in Hend. rewrite str_length_app in Hend. simpl in *. lia.
        -- apply (scan_bounds _ _ _ _ _ msg_pattern_in_patterns) in Hin.
           rewrite !str_length_app in Hin. simpl in *. lia.
    + intros Hin Hend.
      destruct (IH _ _ Hin) as (m & Hm & Hgm); [simpl in Hend; lia|].
      exists m. split; [|done].
      destruct (match_at msg_pattern (String c s)) as [[rest g]|] eqn:E; [|done].
      destruct (msg_match_extend _ t _ _ E) as (? & ? & E2 & _). congruence.
Qed.

(** A message declaration of the whole text that ends at or before offset
    [pos] is among those the backwards search from [pos] goes through. *)
Lemma text_msg_in_prefix content pos m' :
  m' ∈ finditer msg_pattern content → (m_end m' ≤ pos)%nat →
  ∃ mm, mm ∈ finditer msg_pattern (take_str pos content) ∧
        m_start mm = m_start m' ∧ m_end mm = m_end m' ∧ group mm 1 = group m' 1.
Proof.
  intros Hin Hend. unfold finditer in *.
  rewrite <- (take_drop pos content) in Hin.
  apply scan_msg_restrict in Hin; [done|].
  pose proof (scan_bounds _ _ _ _ _ msg_pattern_in_patterns Hin) as (_ & _ & Hb).
  rewrite take_drop in Hb. rewrite length_take_str_min. lia.
Qed.

(** X23. The association rule of the signals holds wherever no message
    declaration is cut by the signal. Take a text whose numerals [int()]
    takes, a match [m] of the signal pattern and a match [m0] of the
    message pattern in the whole text that starts before it, such that
    every match of the message pattern in the whole text that starts before
    the signal starts no later than [m0] and ends at or before the start of
    the signal. Then extraction returns and the signal built from [m] is
    stored under the normalised identifier of [m0], the latest message
    declared before it, and under no other key. *)
Theorem signal_joins_latest_message_unless_cut content m m0 :
  within_int_limit content →
  m ∈ finditer sig_pattern content →
  m0 ∈ finditer msg_pattern content →
  (m_start m0 < m_start m)%nat →
  (∀ m', m' ∈ finditer msg_pattern content → (m_start m' < m_start m)%nat →
         (m_start m' ≤ m_start m0)%nat ∧ (m_end m' ≤ m_start m)%nat) →
  ∃ raw self' sigs,
    py_int (group m0 1) = Some raw ∧
    _parse_messages_and_signals content init = Some self' ∧
    signals self' !! normalize_id raw = Some sigs ∧
    signal_of (normalize_id raw) m ∈ sigs ∧
    ∀ k sigs', k ≠ normalize_id raw → signals self' !! k = Some sigs' →
      signal_of (normalize_id raw) m ∉ sigs'.
Proof.
  intros _ Hm Hm0 Hlt Hall.
  destruct (Hall m0 Hm0 Hlt) as [_ Hend0].
  destruct (text_msg_in_prefix content (m_start m) m0 Hm0 Hend0)
    as (mm0 & Hmm0 & Hs0 & _ & Hg0).
  destruct (last (finditer msg_pattern (take_str (m_start m) content)))
    as [mm|] eqn:Hlast.
  2:{ apply last_None in Hlast. rewrite Hlast in Hmm0. by apply elem_of_nil in Hmm0. }
  pose proof (sorted_last_max m_start _ mm0 mm (scan_sorted _ _ _ _) Hlast Hmm0) as Hle.
  destruct (prefix_msg_in_text content (m_start m) mm)
    as (Hpos & m1 & Hm1 & Hs1 & Hg1); [by eapply last_Some_elem_of|].
  destruct (Hall m1 Hm1) as [Hle1 _]; [lia|].
  assert (Hg : group mm 1 = group m0 1).
  { rewrite <- Hg1. unfold group.
    rewrite (scan_same_start _ _ _ _ m1 m0 Hm1 Hm0); [done|lia]. }
  destruct (proj1 signal_joins_message_found content m mm Hm Hlast)
    as (_ & _ & raw & sb & len & self' & sigs & Hraw & Hsb & Hlen & Hp & Hk & Hin & Hout).
  exists raw, self', sigs. rewrite <- Hg.
  assert (Hsig : signal_of (normalize_id raw) m
                 = signal_of_match m sb len (normalize_id raw)).
  { unfold signal_of, int_of. by rewrite Hsb, Hlen. }
  rewrite Hsig. done.
Qed.

Lemma signal_joins_latest_message_unless_cut_witness :
  ∃ raw self' sigs,
    py_int (group two_msgs_latest 1) = Some raw ∧
    _parse_messages_and_signals two_msgs_text init = Some self' ∧
    signals self' !! normalize_id raw = Some sigs ∧
    signal_of (normalize_id raw) two_msgs_sig ∈ sigs ∧
    ∀ k sigs', k ≠ normalize_id raw → signals self' !! k = Some sigs' →
      signal_of (normalize_id raw) two_msgs_sig ∉ sigs'.
Proof.
  apply (signal_joins_latest_message_unless_cut
           two_msgs_text two_msgs_sig two_msgs_latest).
  - apply Nat.leb_le. vm_compute. reflexivity.
  - vm_compute. left.
  - vm_compute. right. left.
  - vm_compute. lia.
  - intros m' Hm' _. vm_compute in Hm'.
    repeat (apply elem_of_cons in Hm' as [-> | Hm']);
      [vm_compute; lia.. | by apply elem_of_nil in Hm'].
Defined.

(** ** Nodes *)

(** X4. After a successful [parse] the node list is the whitespace split of
    the text that the first match of the [BU_:] pattern captures (the strip
    calls and the filter of the comprehension change nothing), it is empty
    when the pattern matches nowhere, and every node name is a non-empty run
    of characters that are not whitespace. *)
Theorem nodes_are_words content p :
  Full.parse content Full.init = Some p →
  Full.nodes p = match search nodes_pattern content with
                 | Some m => split (group m 1)
                 | None => []
                 end
  ∧ Forall (run nonspace) (Full.nodes p).
Proof.
  intros (recs & st0 & _ & _ & ->)%full_parse_inv. cbn [Full.nodes].
  unfold nodes_of. destruct (search nodes_pattern content) as [m|]; [|done].
  rewrite stripped_split, words_strip, split_words.
  split; [done|]. apply words_nonspace.
Qed.

Lemma nodes_are_words_witness :
  Full.nodes sample_parser = ["ECU1"; "ECU2"]
  ∧ Forall (run nonspace) (Full.nodes sample_parser).
Proof.
  destruct (nodes_are_words sample_dbc sample_parser) as [H1 H2].
  - vm_compute. reflexivity.
  - split; [|exact H2]. rewrite H1. vm_compute. reflexivity.
Defined.

(** ** Receivers *)

Lemma join_names_nonspace l :
  Forall (run name_char) l → forallb_str nonspace (join "," l) = true.
Proof.
  induction 1 as [|w l [_ Hw] Hl IH]; [done|].
  assert (Hw' : forallb_str nonspace w = true).
  { revert Hw. apply forallb_str_impl. intros c. unfold name_char.
    by intros [? _]%andb_prop. }
  destruct l as [|w' l]; [done|].
  rewrite join_cons, !forallb_str_app, Hw', IH. done.
Qed.

Lemma name_list_strip s : name_list (strip s) = name_list s.
Proof. by rewrite !name_list_words, words_replace_strip. Qed.

(** X5. The receivers of every stored signal are in canonical form: the
    names of the declaration joined by commas, without whitespace, and
    reading the stored text again as a list of names and joining it gives
    the stored text back. *)
Theorem receivers_canonical content p k sigs s :
  Full.parse content Full.init = Some p →
  signals (Full.core p) !! k = Some sigs → s ∈ sigs →
  (∃ m, m ∈ finditer sig_pattern content ∧
        Sig.receivers s = join "," (name_list (group m 12))) ∧
  forallb_str nonspace (Sig.receivers s) = true ∧
  join "," (name_list (Sig.receivers s)) = Sig.receivers s.
Proof.
  intros (recs & st0 & _ & Hst0 & ->)%full_parse_inv. cbn [Full.core signals].
  intros Hk Hs.
  destruct (_parse_messages_and_signals_spec content) as (st0' & Hst0' & _ & _ & Hwk).
  rewrite Hst0 in Hst0'. injection Hst0' as <-.
  destruct (Hwk k sigs s Hk Hs) as (m & sb & len & Hm & _ & ->).
  cbn [Sig.receivers signal_of_match]. rewrite name_list_strip.
  split; [eauto|]. split.
  - apply join_names_nonspace, name_list_names.
  - by rewrite name_list_join by apply name_list_names.
Qed.

Lemma receivers_canonical_witness :
  Sig.receivers sample_signal = "ECU1,ECU2" ∧
  forallb_str nonspace (Sig.receivers sample_signal) = true ∧
  join "," (name_list (Sig.receivers sample_signal)) = Sig.receivers sample_signal.
Proof.
  destruct (receivers_canonical sample_dbc sample_parser 100
              [sample_signal] sample_signal) as (_ & H).
  - vm_compute. reflexivity.
  - vm_compute. reflexivity.
  - left.
  - split; [vm_compute; reflexivity|]. exact H.
Defined.

(** ** Writing an integer and reading it back *)

Lemma uint_string_digits d :
  forallb_str is_digit (DecimalString.NilEmpty.string_of_uint d) = true.
Proof. induction d; simpl; done. Qed.

Lemma int_body_uint d acc b :
  d ≠ Decimal.Nil ∨ b = true →
  int_body (DecimalString.NilEmpty.string_of_uint d) acc b = Some (uint_acc d acc).
Proof.
  revert acc b. induction d as [ |d IH|d IH|d IH|d IH|d IH|d IH|d IH|d IH|d IH|d IH];
    intros acc b Hb; cbn [DecimalString.NilEmpty.string_of_uint uint_acc int_body].
  { destruct Hb as [? | ->]; done. }
  all: change (is_digit _) with true; cbv iota; unfold digit_val;
    match goal with
    | |- context [Z.of_N (code ?c)] =>
        let v := eval vm_compute in (Z.of_N (code c)) in
        change (Z.of_N (code c)) with v
    end;
    rewrite IH by (by right); f_equal; f_equal; lia.
Qed.

Lemma uint_acc_pos d p : Z.pos (Pos.of_uint_acc d p) = uint_acc d (Z.pos p).
Proof.
  revert p. induction d; intros p; simpl; [done|..]; rewrite IHd; f_equal; lia.
Qed.

Lemma uint_acc_of_uint d : Z.of_uint d = uint_acc d 0.
Proof.
  unfold Z.of_uint. induction d; simpl; [done| |..]; try (by rewrite uint_acc_pos).
  done.
Qed.

Lemma py_int_uint d :
  py_int (DecimalString.NilZero.string_of_uint d) = Some (Z.of_uint d).
Proof.
  rewrite uint_acc_of_uint.
  assert (d = Decimal.Nil ∨ d ≠ Decimal.Nil) as [->|Hd]
    by (destruct d; [by left|by right..]); [done|].
  assert (DecimalString.NilZero.string_of_uint d
          = DecimalString.NilEmpty.string_of_uint d) as -> by (by destruct d).
  unfold py_int. rewrite strip_digits by apply uint_string_digits.
  rewrite <- (int_body_uint d 0 false) by (by left).
  destruct d; done.
Qed.

Lemma py_int_neg_uint d :
  d ≠ Decimal.Nil →
  py_int (String "-" (DecimalString.NilEmpty.string_of_uint d)) = Some (- Z.of_uint d).
Proof.
  intros Hd. rewrite uint_acc_of_uint. unfold py_int.
  assert (strip_with is_int_space (String "-" (DecimalString.NilEmpty.string_of_uint d))
          = String "-" (DecimalString.NilEmpty.string_of_uint d)) as ->.
  { change (strip_with is_int_space (String "-" ?x))
      with (rstrip_with is_int_space (String "-" x)).
    apply rstrip_with_none. cbn [forallb_str]. apply andb_true_iff. split; [done|].
    generalize (uint_string_digits d). apply forallb_str_impl.
    intros c Hc. by rewrite (digit_not_int_space _ Hc). }
  rewrite int_body_uint by (by left). done.
Qed.

Lemma to_uint_not_nil p : Pos.to_uint p ≠ Decimal.Nil.
Proof.
  intros H. pose proof (DecimalPos.Unsigned.of_to p) as Hp.
  rewrite H in Hp. discriminate Hp.
Qed.

(** [int(str(n))] is [n]. *)
Lemma py_int_py_str n : py_int (py_str n) = Some n.
Proof.
  unfold py_str. rewrite <- (DecimalZ.of_to n) at 2.
  destruct n as [|p|p]; [done| |].
  - apply py_int_uint.
  - cbn [Z.to_int DecimalString.NilZero.string_of_int Z.of_int].
    pose proof (to_uint_not_nil p) as Hp.
    assert (DecimalString.NilZero.string_of_uint (Pos.to_uint p)
            = DecimalString.NilEmpty.string_of_uint (Pos.to_uint p)) as ->
      by (by destruct (Pos.to_uint p)).
    by apply py_int_neg_uint.
Qed.

(** ** Comments *)

(** X6. The scope of every message comment is the decimal text of the
    normalised message identifier: [int()] reads it back as that identifier,
    which is not negative. *)
Theorem message_comment_scope_reads_back content p scope text :
  Full.parse content Full.init = Some p →
  ("BO", scope, text) ∈ comments (Full.core p) →
  ∃ m, m ∈ finditer cm_bo_pattern content ∧ text = group m 2 ∧
       py_int scope = Some (normalize_id (int_of (group m 1))) ∧
       0 ≤ normalize_id (int_of (group m 1)).
Proof.
  intros (recs & st0 & _ & _ & ->)%full_parse_inv. cbn [Full.core comments].
  unfold comment_records. rewrite !elem_of_app, !list_elem_of_fmap.
  intros [(m & [= -> ->] & Hm)|[(m & [=] & _)|[(m & [=] & _)|(m & [=] & _)]]].
  exists m. split_and!; [done..|apply py_int_py_str|].
  destruct (int_of_digits _ (cm_bo_group_digits _ _ Hm)) as [_ H0].
  unfold normalize_id, is_extended_id. destruct (Z.leb_spec 0x80000000 (int_of (group m 1))); lia.
Qed.

Lemma message_comment_scope_reads_back_witness :
  ∃ m, m ∈ finditer cm_bo_pattern sample_dbc ∧ "hello" = group m 2 ∧
       py_int "100" = Some (normalize_id (int_of (group m 1))) ∧
       0 ≤ normalize_id (int_of (group m 1)).
Proof.
  apply (message_comment_scope_reads_back sample_dbc sample_parser "100" "hello").
  - vm_compute. reflexivity.
  - vm_compute. left.
Defined.

(** ** Message identifiers *)

Lemma recorded_in_range m msg content :
  m ∈ finditer msg_pattern content → message_of_match m = Some msg →
  0 ≤ Msg.id msg ∧ 0 ≤ Msg.dlc msg ∧
  (Msg.is_extended msg = false → Msg.id msg < 0x80000000) ∧
  (Msg.is_extended msg = true → 0x80000000 ≤ int_of (group m 1)) ∧
  Msg.id_hex msg = "0x" ++ py_hex (Msg.id msg).
Proof.
  intros Hm. unfold message_of_match.
  destruct (msg_group_digits _ _ Hm) as [H1 H3].
  destruct (int_of_digits _ H1) as [-> Hr]. destruct (int_of_digits _ H3) as [-> Hd].
  simpl. intros [= <-]. simpl. unfold normalize_id, is_extended_id.
  destruct (Z.leb_spec 0x80000000 (int_of (group m 1))); split_and!; try done; lia.
Qed.

Lemma messages_in_range content st0 msg :
  _parse_messages_and_signals content init = Some st0 →
  msg ∈ messages st0 →
  0 ≤ Msg.id msg ∧ 0 ≤ Msg.dlc msg ∧
  (Msg.is_extended msg = false → Msg.id msg < 0x80000000) ∧
  Msg.id_hex msg = "0x" ++ py_hex (Msg.id msg).
Proof.
  intros Hst0.
  destruct (_parse_messages_and_signals_spec content) as (st0' & Hst0' & Hrec & _).
  rewrite Hst0 in Hst0'. injection Hst0' as <-.
  intros (i & Hi)%list_elem_of_lookup.
  destruct (Forall2_lookup_r _ _ _ _ _ Hrec Hi) as (m & Hm & (raw & _ & Hmsg & _)).
  apply list_elem_of_lookup_2 in Hm.
  destruct (recorded_in_range m msg content Hm Hmsg) as (? & ? & ? & _ & ?). done.
Qed.

(** X7. After a successful [parse] no message has a negative identifier or
    a negative DLC, a message that is not flagged as extended has an
    identifier below 0x80000000, and the hexadecimal text of a message is
    that of its identifier. *)
Theorem message_ids_in_range content p msg :
  Full.parse content Full.init = Some p →
  msg ∈ messages (Full.core p) →
  0 ≤ Msg.id msg ∧ 0 ≤ Msg.dlc msg ∧
  (Msg.is_extended msg = false → Msg.id msg < 0x80000000) ∧
  Msg.id_hex msg = "0x" ++ py_hex (Msg.id msg).
Proof.
  intros (recs & st0 & _ & Hst0 & ->)%full_parse_inv. cbn [Full.core messages].
  by apply (messages_in_range content).
Qed.

Lemma message_ids_in_range_witness :
  0 ≤ 200 ∧ 0 ≤ 8 ∧ (true = false → 200 < 0x80000000) ∧ "0xC8" = "0x" ++ py_hex 200.
Proof.
  apply (message_ids_in_range sample_dbc sample_parser
           (Msg.mk 200 "0xC8" "Msg2" 8 "ECU2" true "")).
  - vm_compute. reflexivity.
  - vm_compute. right. left.
Defined.

(** ** Dictionaries filled by assignment *)

Section Assign.
Context {A K V : Type} `{Countable K}.
Implicit Types (key : A → K) (val : A → V) (l : list A) (d : gmap K V).

Lemma assign_all_lookup key val l d k :
  assign_all key val l d !! k
  = match last_with key l k with
    | Some a => Some (val a)
    | None => d !! k
    end.
Proof.
  unfold assign_all, last_with. revert d. induction l as [|a l IH]; intros d; [done|].
  cbn [foldl]. rewrite IH. destruct (decide (key a = k)) as [Hk|Hk].
  - rewrite filter_cons_True by done. rewrite last_cons.
    destruct (last (filter _ l)); [done|]. by rewrite Hk, lookup_insert_eq.
  - rewrite filter_cons_False by done. by rewrite lookup_insert_ne.
Qed.

Lemma last_with_Some key l k :
  k ∈ key <$> l → ∃ a, last_with key l k = Some a ∧ a ∈ l ∧ key a = k.
Proof.
  intros (a & -> & Ha)%list_elem_of_fmap. unfold last_with.
  assert (Hin : a ∈ filter (λ a', key a' = key a) l) by (by apply list_elem_of_filter).
  destruct (last (filter (λ a', key a' = key a) l)) as [b|] eqn:E.
  - exists b. split; [done|]. apply last_Some_elem_of in E.
    by apply list_elem_of_filter in E as [? ?].
  - apply last_None in E. rewrite E in Hin. by apply elem_of_nil in Hin.
Qed.

Lemma last_with_elem key l k a : last_with key l k = Some a → a ∈ l ∧ key a = k.
Proof.
  unfold last_with. intros E%last_Some_elem_of.
  by apply list_elem_of_filter in E as [? ?].
Qed.

Lemma nub_elem (l : list K) k : k ∈ nub l ↔ k ∈ l.
Proof.
  induction l as [|x l IH]; simpl; [done|].
  rewrite !elem_of_cons, list_elem_of_filter, IH.
  destruct (decide (k = x)); tauto.
Qed.

Lemma nub_NoDup (l : list K) : NoDup (nub l).
Proof.
  induction l as [|x l IH]; simpl; constructor.
  - rewrite list_elem_of_filter. tauto.
  - by apply NoDup_filter.
Qed.

(** The items of a dictionary filled by assignments: one for every key, in
    the order of the first assignment to the key, with the value of the
    last. *)
Lemma items_assign_all key val l (dflt : V) :
  items (assign_all key val l ∅) (nub (key <$> l))
  = (λ k, (k, default dflt (val <$> last_with key l k))) <$> nub (key <$> l).
Proof.
  unfold items.
  assert (Hall : ∀ k, k ∈ nub (key <$> l) → k ∈ key <$> l) by (intros k; apply nub_elem).
  induction (nub (key <$> l)) as [|k ks IH]; [done|].
  cbn [omap list_omap fmap list_fmap]. rewrite assign_all_lookup.
  destruct (last_with_Some key l k) as (a & -> & _); [apply Hall; by left|].
  simpl. f_equal. apply IH. intros k' Hk'. apply Hall. by right.
Qed.

Lemma assign_all_empty key val l : assign_all key val l ∅ = ∅ ↔ l = [].
Proof.
  split; [|by intros ->]. destruct l as [|a l]; [done|]. intros He.
  assert (Hl : assign_all key val (a :: l) ∅ !! key a = None) by (by rewrite He).
  rewrite assign_all_lookup in Hl.
  destruct (last_with_Some key (a :: l) (key a)) as (b & Hb & _).
  { rewrite fmap_cons. by left. }
  by rewrite Hb in Hl.
Qed.
End Assign.

(** ** Value tables *)

(** X8. The data rows of the ValueTables sheet: one row for every table
    name of the text, in the order in which the names are first declared,
    with the values of the last declaration of the name. *)
Theorem value_tables_sheet_rows content p :
  Full.parse content Full.init = Some p →
  tail (value_tables_sheet p)
  = (λ name, [Text name; Text (format_pairs (last_table content name))])
      <$> nub (table_name_of <$> finditer val_table_pattern content).
Proof.
  intros (recs & st0 & _ & _ & ->)%full_parse_inv.
  unfold value_tables_sheet. cbn [tail Full.core Full.value_tables_keys value_tables].
  unfold value_tables_of. rewrite (items_assign_all _ _ _ ∅).
  rewrite <- list_fmap_compose. done.
Qed.

Lemma value_tables_sheet_rows_witness :
  tail (value_tables_sheet sample_parser)
  = [[Text "Tbl"; Text ("0:" ++ dq ++ "Off" ++ dq ++ " 1:" ++ dq ++ "On" ++ dq)]].
Proof.
  rewrite (value_tables_sheet_rows sample_dbc sample_parser).
  - vm_compute. reflexivity.
  - vm_compute. reflexivity.
Defined.

(** X9. In the stores of signal value tables, of value tables of
    environment variables and of signal value types the last entry for a
    key wins, and a key without an entry is absent. *)
Theorem last_entry_wins content p :
  Full.parse content Full.init = Some p →
  (∀ key, signal_value_tables (Full.core p) !! key
          = (λ m, dict_of (group m 3))
              <$> last_with signal_key_of (finditer signal_val_pattern content) key) ∧
  (∀ name, env_var_value_tables (Full.core p) !! name
           = table_of
               <$> last_with table_name_of
                     (filter (λ m, isdigit (group m 1) = false)
                        (finditer env_val_pattern content)) name) ∧
  (∀ key, Full.signal_value_types p !! key
          = (λ m, int_of (group m 3))
              <$> last_with signal_key_of (finditer sig_valtype_pattern content) key).
Proof.
  intros (recs & st0 & _ & _ & ->)%full_parse_inv.
  cbn [Full.core Full.signal_value_types signal_value_tables env_var_value_tables].
  unfold signal_value_tables_of, env_var_value_tables_of.
  split_and!; intros k; rewrite assign_all_lookup;
    by match goal with |- context [last_with ?f ?l k] => destruct (last_with f l k) end.
Qed.

Lemma last_entry_wins_witness :
  signal_value_tables (Full.core sample_parser) !! (100, "SigA")
  = Some {[ 0 := "Off"; 1 := "On" ]}.
Proof.
  destruct (last_entry_wins sample_dbc sample_parser) as (H & _ & _).
  - vm_compute. reflexivity.
  - rewrite H. vm_compute. reflexivity.
Defined.

(** ** Further transmitters *)

Lemma tx_id_nonneg content m : m ∈ finditer extra_tx_pattern content → 0 ≤ tx_id_of m.
Proof.
  intros Hm. destruct (int_of_digits _ (extra_tx_group_digits _ _ Hm)) as [_ H0].
  unfold tx_id_of, normalize_id, is_extended_id.
  destruct (Z.leb_spec 0x80000000 (int_of (group m 1))); lia.
Qed.

(** X10. The data rows of the ExtraTransmitters sheet: one row for every
    normalised message identifier with a [BO_TX_BU_] entry, in the order of
    the first entries, with the names of the last entry joined by commas.
    No identifier is negative, every name is a non-empty run of characters
    that are neither whitespace nor commas, and reading the cell again as a
    list of names gives the names back. *)
Theorem extra_transmitters_sheet_rows content p :
  Full.parse content Full.init = Some p →
  tail (extra_transmitters_sheet p)
  = (λ k, [Text ("0x" ++ py_hex k); Text (join "," (last_transmitters content k))])
      <$> nub (tx_id_of <$> finditer extra_tx_pattern content) ∧
  ∀ k, k ∈ nub (tx_id_of <$> finditer extra_tx_pattern content) →
       0 ≤ k ∧ Forall (run name_char) (last_transmitters content k) ∧
       name_list (join "," (last_transmitters content k)) = last_transmitters content k.
Proof.
  intros (recs & st0 & _ & _ & ->)%full_parse_inv. split.
  - unfold extra_transmitters_sheet.
    cbn [tail Full.extra_transmitters Full.extra_transmitters_keys].
    rewrite (items_assign_all _ _ _ []), <- list_fmap_compose. done.
  - intros k Hk. rewrite nub_elem in Hk.
    assert (Hn : Forall (run name_char) (last_transmitters content k)).
    { unfold last_transmitters.
      destruct (last_with tx_id_of _ k); simpl; [apply name_list_names|constructor]. }
    split_and!; [|done|by apply name_list_join].
    apply list_elem_of_fmap in Hk as (m & -> & Hm). by eapply tx_id_nonneg.
Qed.

Lemma extra_transmitters_sheet_rows_witness :
  tail (extra_transmitters_sheet sample_parser) = [[Text "0x64"; Text "ECU2,ECU1"]].
Proof.
  destruct (extra_transmitters_sheet_rows sample_dbc sample_parser) as [H _].
  - vm_compute. reflexivity.
  - rewrite H. vm_compute. reflexivity.
Defined.

(** ** The Signals sheet *)

Lemma sorted_keys_spec (sg : gmap Z (list Sig.t)) :
  StronglySorted Z.lt (sorted_keys sg) ∧ NoDup (sorted_keys sg) ∧
  ∀ k, k ∈ sorted_keys sg ↔ k ∈ dom sg.
Proof.
  unfold sorted_keys.
  assert (Hperm : merge_sort Z.le (elements (dom sg)) ≡ₚ elements (dom sg))
    by apply merge_sort_Permutation.
  assert (Hnd : NoDup (merge_sort Z.le (elements (dom sg)))).
  { rewrite Hperm. apply NoDup_elements. }
  assert (Hss : StronglySorted Z.le (merge_sort Z.le (elements (dom sg)))).
  { apply StronglySorted_merge_sort; [apply _|]. intros x y. lia. }
  split_and!; [|done|].
  - revert Hnd Hss. generalize (merge_sort Z.le (elements (dom sg))). intros l.
    induction l as [|x l IH]; intros Hnd Hss; [constructor|].
    apply NoDup_cons in Hnd as [Hx Hnd]. inversion Hss as [|? ? Hs Hall]; subst.
    constructor; [by apply IH|]. rewrite Forall_forall in Hall |- *.
    intros y Hy. specialize (Hall y Hy). assert (x ≠ y) by (intros ->; done). lia.
  - intros k. rewrite Hperm. apply elem_of_elements.
Qed.

Lemma last_msg_id_is_key content pos k msgs :
  last_msg_id content pos = Some k →
  Forall2 recorded (finditer msg_pattern content) msgs →
  k ∈ msg_ids msgs.
Proof.
  unfold last_msg_id. intros Hl Hrec.
  destruct (last (finditer msg_pattern (take_str pos content))) as [mm|] eqn:E; [|done].
  simpl in Hl. destruct (py_int (group mm 1)) as [raw|] eqn:Eraw; [|done].
  injection Hl as <-. apply last_Some_elem_of in E.
  by eapply found_msg_id_is_key.
Qed.

Section Count.
Context {A B K : Type} `{EqDecision K}.
Implicit Types (key : A → option K) (f : K → A → B) (ks : list K) (l : list A).

Lemma length_bind_cons key f ks a l :
  NoDup ks →
  length (ks ≫= λ k, f k <$> filter (λ a', key a' = Some k) (a :: l))
  = (length (ks ≫= λ k, f k <$> filter (λ a', key a' = Some k) l)
     + match key a with
       | Some k0 => if decide (k0 ∈ ks) then 1 else 0
       | None => 0
       end)%nat.
Proof.
  induction 1 as [|k ks Hk Hnd IH].
  { simpl. destruct (key a) as [k0|]; [|done].
    destruct (decide (k0 ∈ [])) as [Hin|]; [by apply elem_of_nil in Hin|done]. }
  cbn [mbind list_bind]. rewrite !length_app, IH, !length_fmap.
  destruct (key a) as [k0|] eqn:Ek.
  - destruct (decide (k0 = k)) as [->|Hne].
    + rewrite filter_cons_True by done.
      rewrite (decide_False (P := k ∈ ks)) by done.
      rewrite (decide_True (P := k ∈ k :: ks)) by left. simpl. lia.
    + rewrite filter_cons_False by congruence.
      destruct (decide (k0 ∈ ks)) as [Hin|Hin].
      * rewrite (decide_True (P := k0 ∈ k :: ks)) by (by right). lia.
      * rewrite (decide_False (P := k0 ∈ k :: ks)); [lia|].
        rewrite elem_of_cons. tauto.
  - rewrite filter_cons_False by congruence. lia.
Qed.

Lemma length_bind_filter key f ks l :
  NoDup ks → (∀ a k, a ∈ l → key a = Some k → k ∈ ks) →
  length (ks ≫= λ k, f k <$> filter (λ a, key a = Some k) l)
  = length (filter (λ a, is_Some (key a)) l).
Proof.
  intros Hnd. induction l as [|a l IH]; intros Hall.
  { simpl. clear. induction ks as [|k ks IH]; [done|]. simpl. done. }
  rewrite length_bind_cons by done. rewrite IH by (intros a' k Ha'; apply Hall; by right).
  destruct (key a) as [k0|] eqn:Ek.
  - rewrite filter_cons_True by (rewrite Ek; eauto).
    rewrite decide_True by (eapply Hall; [by left|done]). simpl. lia.
  - rewrite filter_cons_False by (rewrite Ek; by intros [? ?]). lia.
Qed.
End Count.

(** X11. The data rows of the Signals sheet: the message identifiers in
    strictly ascending order, and under each identifier the matches of the
    signal pattern for which the backwards search finds it, in the order of
    the text. There are as many rows as the scan of the text has matches of
    the signal pattern for which the backwards search finds a message, that
    is, such that the text before the match, [content[:sig_pos]], holds a
    match of the message pattern. *)
Theorem signals_sheet_rows content p :
  Full.parse content Full.init = Some p →
  ∃ ks,
    StronglySorted Z.lt ks ∧
    (∀ k, k ∈ ks ↔ k ∈ msg_ids (messages (Full.core p))) ∧
    tail (signals_sheet p)
    = (ks ≫= λ k, (λ m, signal_row p k (signal_of k m)) <$> declared_under content k) ∧
    length (tail (signals_sheet p))
    = length (filter (λ m, is_Some (last_msg_id content (m_start m)))
                (finditer sig_pattern content)).
Proof.
  intros Hp. destruct (full_parse_inv _ _ Hp) as (recs & st0 & _ & Hst0 & Hpeq).
  destruct (_parse_messages_and_signals_spec content) as (st0' & Hst0' & Hrec & Hdom & _).
  rewrite Hst0 in Hst0'. injection Hst0' as <-.
  assert (Hcore : messages (Full.core p) = messages st0 ∧ signals (Full.core p) = signals st0)
    by (by rewrite Hpeq).
  destruct Hcore as [Hm Hs].
  destruct (sorted_keys_spec (signals (Full.core p))) as (Hsorted & Hnd & Hin).
  assert (Hrows : tail (signals_sheet p)
                  = (sorted_keys (signals (Full.core p))
                       ≫= λ k, (λ m, signal_row p k (signal_of k m))
                                  <$> declared_under content k)).
  { unfold signals_sheet, signal_rows. cbn [tail].
    apply Forall_bind_ext, Forall_forall. intros k Hk.
    rewrite Hs, (signals_exact content st0 k Hst0).
    apply Hin in Hk. rewrite Hs, Hdom in Hk.
    rewrite decide_True by done. simpl. by rewrite <- list_fmap_compose. }
  exists (sorted_keys (signals (Full.core p))). split_and!; [done| |done|].
  - intros k. by rewrite Hin, Hs, Hdom, Hm.
  - rewrite Hrows. apply length_bind_filter; [done|].
    intros m k _ Hk. apply Hin. rewrite Hs, Hdom. by eapply last_msg_id_is_key.
Qed.

Lemma signals_sheet_rows_witness :
  length (tail (signals_sheet sample_parser)) = 2%nat.
Proof.
  destruct (signals_sheet_rows sample_dbc sample_parser) as (ks & _ & _ & _ & H).
  - vm_compute. reflexivity.
  - rewrite H. vm_compute. reflexivity.
Defined.

(** X12. Every data row of the Signals sheet refers to a row of the
    Messages sheet: its MessageID cell is the MessageID cell of a message
    row. *)
Theorem signal_rows_reference_messages content p r :
  Full.parse content Full.init = Some p →
  r ∈ tail (signals_sheet p) →
  ∃ r', r' ∈ tail (messages_sheet p) ∧ head r = head r' ∧ is_Some (head r).
Proof.
  intros Hp. destruct (full_parse_inv _ _ Hp) as (recs & st0 & _ & Hst0 & Hpeq).
  destruct (_parse_messages_and_signals_spec content) as (st0' & Hst0' & Hrec & Hdom & _).
  rewrite Hst0 in Hst0'. injection Hst0' as <-.
  assert (Hcore : messages (Full.core p) = messages st0 ∧ signals (Full.core p) = signals st0)
    by (by rewrite Hpeq).
  destruct Hcore as [Hm Hs].
  unfold signals_sheet, signal_rows, messages_sheet. cbn [tail].
  rewrite list_elem_of_bind. intros (k & Hr & Hk).
  apply list_elem_of_fmap in Hr as (sig & -> & _).
  apply sorted_keys_spec in Hk. rewrite Hs, Hdom in Hk.
  unfold msg_ids in Hk. rewrite elem_of_list_to_set, list_elem_of_fmap in Hk.
  destruct Hk as (msg & -> & Hmsg).
  exists (message_row msg). split; [rewrite Hm; by apply list_elem_of_fmap_2|].
  split; [|by eexists].
  destruct (messages_in_range content st0 msg Hst0 Hmsg) as (_ & _ & _ & Hhex).
  cbn [head signal_row message_row]. by rewrite Hhex.
Qed.

Lemma signal_rows_reference_messages_witness :
  ∃ r', r' ∈ tail (messages_sheet sample_parser)
        ∧ Some (Text "0xC8") = head r' ∧ is_Some (Some (Text "0xC8")).
Proof.
  apply (signal_rows_reference_messages sample_dbc sample_parser
           (signal_row sample_parser 200
              (signal_of 200 (default (Build_Match 0 0 ∅)
                                (last (finditer sig_pattern sample_dbc)))))).
  - vm_compute. reflexivity.
  - vm_compute. right. left.
Defined.

(** ** Attribute assignments *)

Lemma rstrip_with_idem p s : rstrip_with p (rstrip_with p s) = rstrip_with p s.
Proof.
  induction s as [|c s IH]; [done|]. cbn [rstrip_with].
  destruct (rstrip_with p s) as [|d r] eqn:E.
  - destruct (p c) eqn:Hc; [done|]. simpl. by rewrite Hc.
  - change (rstrip_with p (String c (String d r)))
      with (match rstrip_with p (String d r) with
            | "" => if p c then "" else String c ""
            | String x y => String c (String x y)
            end).
    by rewrite IH.
Qed.

Lemma lstrip_with_stops p s : stops p (lstrip_with p s).
Proof. induction s as [|c s IH]; simpl; [done|]. by destruct (p c) eqn:E. Qed.

Lemma lstrip_with_id p s : stops p s → lstrip_with p s = s.
Proof. destruct s as [|c s]; simpl; [done|]. by intros ->. Qed.

Lemma rstrip_with_stops p s : stops p s → stops p (rstrip_with p s).
Proof.
  intros Hs. destruct (rstrip_with p s) as [|c r] eqn:E; [done|].
  destruct (rstrip_with_head _ _ _ _ E) as [s' ->]. done.
Qed.

Lemma strip_with_stops p s : stops p (strip_with p s).
Proof. apply rstrip_with_stops, lstrip_with_stops. Qed.

Lemma strip_with_idem p s : strip_with p (strip_with p s) = strip_with p s.
Proof.
  unfold strip_with at 1. rewrite lstrip_with_id by apply strip_with_stops.
  apply rstrip_with_idem.
Qed.

Lemma rstrip_with_last p s r c :
  rstrip_with p s = r ++ String c "" → p c = false.
Proof.
  revert r. induction s as [|a s IH]; intros r.
  { simpl. by destruct r. }
  cbn [rstrip_with]. destruct (rstrip_with p s) as [|d t] eqn:E.
  - destruct (p a) eqn:Ha; [by destruct r|].
    destruct r as [|b r]; [by intros [= <-]|]. intros [= _ Hr]. by destruct r.
  - destruct r as [|b r]; [done|]. intros [= _ Hr]. by eapply IH.
Qed.

Lemma mapM_Some_elem {A B : Type} (f : A → option B) l k b :
  mapM f l = Some k → b ∈ k → ∃ a, a ∈ l ∧ f a = Some b.
Proof.
  intros Hm%mapM_Some_1 (i & Hi)%list_elem_of_lookup.
  destruct (Forall2_lookup_r _ _ _ _ _ Hm Hi) as (a & Ha & Hf).
  exists a. split; [by eapply list_elem_of_lookup_2|done].
Qed.

(** X13. Every stored attribute assignment has one of the five scopes, an
    empty scope identifier when the scope is GLOBAL, and a value that
    neither starts nor ends with a double quote, so that stripping quotes
    again changes nothing. *)
Theorem ba_record_shape content p scope scope_id attr_name value :
  Full.parse content Full.init = Some p →
  (scope, scope_id, attr_name, value) ∈ ba_assignments (Full.core p) →
  scope ∈ ["BU"; "BO"; "SG"; "EV"; "GLOBAL"] ∧
  (scope = "GLOBAL" → scope_id = "") ∧
  strip_quotes value = value ∧
  (∀ r, value ≠ String quote r) ∧ (∀ r, value ≠ r ++ dq).
Proof.
  intros (recs & st0 & Hrecs & _ & ->)%full_parse_inv. cbn [Full.core ba_assignments].
  intros Hin. destruct (mapM_Some_elem _ _ _ _ Hrecs Hin) as (m & _ & Hm).
  unfold ba_rec_of in Hm.
  destruct (ba_scope (strip (group m 2))) as [[[sc id] v]|] eqn:Esc; [|done].
  simpl in Hm. injection Hm as -> -> _ <-.
  split_and!.
  - unfold ba_scope in Esc.
    repeat match type of Esc with
           | (if ?b then _ else _) = _ => destruct b
           | (_ ≫= _) = _ => destruct (py_int _); simpl in Esc
           end; try done; simplify_eq; set_solver.
  - intros ->. unfold ba_scope in Esc.
    repeat match type of Esc with
           | (if ?b then _ else _) = _ => destruct b
           | (_ ≫= _) = _ => destruct (py_int _); simpl in Esc
           end; try done; by simplify_eq.
  - apply strip_with_idem.
  - intros r Hr. pose proof (strip_with_stops (ascii_eqb quote) (strip v)) as Hs.
    unfold strip_quotes in Hr. rewrite Hr in Hs. done.
  - intros r Hr. unfold strip_quotes, strip_with in Hr.
    by apply rstrip_with_last in Hr.
Qed.

Lemma ba_record_shape_witness :
  "BO" ∈ ["BU"; "BO"; "SG"; "EV"; "GLOBAL"] ∧
  ("BO" = "GLOBAL" → "100" = "") ∧
  strip_quotes "50" = "50" ∧
  (∀ r, "50" ≠ String quote r) ∧ (∀ r, "50" ≠ r ++ dq).
Proof.
  apply (ba_record_shape sample_dbc sample_parser "BO" "100" "Cycle" "50").
  - vm_compute. reflexivity.
  - vm_compute. left.
Defined.

(** ** A text without keywords *)

Lemma forallb_str_drop p j s :
  forallb_str p s = true → forallb_str p (drop_str j s) = true.
Proof.
  revert s. induction j as [|j IH]; intros s; [done|].
  destruct s as [|c s]; [done|]. simpl. intros [_ Hs]%andb_prop. by apply IH.
Qed.

Lemma finditer_keyword kw r s :
  forallb_str not_us s = true → (∀ t, forallb_str not_us (kw ++ t) = false) →
  finditer (Cat (Lit kw) r) s = [].
Proof.
  intros Hs Hkw. destruct (finditer (Cat (Lit kw) r) s) as [|m l] eqn:E; [done|].
  assert (Hm : m ∈ finditer (Cat (Lit kw) r) s) by (rewrite E; left).
  apply finditer_Matches in Hm as (j & rest & _ & _ & HM).
  inversion HM as [| | | | | | | |? ? ? ? ? ? ? ? H1 H2|]; subst.
  pose proof (forallb_str_drop not_us j s Hs) as Hd.
  inversion H1; subst.
  match goal with Ht : _ ++ _ = drop_str j s |- _ => rewrite <- Ht, Hkw in Hd end.
  done.
Qed.

Ltac no_keyword H :=
  apply finditer_keyword; [exact H|];
  let t := fresh in intros t; cbn; rewrite ?andb_false_r; reflexivity.

(** X14. A text without any underscore holds no declaration: [parse]
    succeeds and leaves the parser as it was created, and the workbook has
    the four sheets Nodes, ValueTables, Messages and Signals with their
    header rows only. *)
Theorem text_without_underscore content :
  forallb_str not_us content = true →
  Full.parse content Full.init = Some Full.init ∧
  ∃ wb, create_excel_from_dbc content = Some wb ∧
        wb.*1 = ["Nodes"; "ValueTables"; "Messages"; "Signals"] ∧
        Forall (λ sh, length sh.2 = 1%nat) wb.
Proof.
  intros Hc.
  assert (Hp : Full.parse content Full.init = Some Full.init).
  { rewrite full_parse_closed. unfold parsed, nodes_of, search, value_tables_of,
      signal_value_tables_of, env_var_value_tables_of, comment_records,
      _parse_messages_and_signals.
    assert (finditer nodes_pattern content = []) as -> by no_keyword Hc.
    assert (finditer val_table_pattern content = []) as -> by no_keyword Hc.
    assert (finditer msg_pattern content = []) as -> by no_keyword Hc.
    assert (finditer sig_pattern content = []) as -> by no_keyword Hc.
    assert (finditer signal_val_pattern content = []) as -> by no_keyword Hc.
    assert (finditer env_val_pattern content = []) as -> by no_keyword Hc.
    assert (finditer cm_bo_pattern content = []) as -> by no_keyword Hc.
    assert (finditer cm_sg_pattern content = []) as -> by no_keyword Hc.
    assert (finditer cm_bu_pattern content = []) as -> by no_keyword Hc.
    assert (finditer cm_ev_pattern content = []) as -> by no_keyword Hc.
    assert (finditer ba_def_pattern content = []) as -> by no_keyword Hc.
    assert (finditer ba_pattern content = []) as -> by no_keyword Hc.
    assert (finditer extra_tx_pattern content = []) as -> by no_keyword Hc.
    assert (finditer env_var_pattern content = []) as -> by no_keyword Hc.
    assert (finditer sig_valtype_pattern content = []) as -> by no_keyword Hc.
    reflexivity. }
  split; [done|]. unfold create_excel_from_dbc. rewrite Hp.
  eexists. split; [reflexivity|]. split; [reflexivity|].
  repeat constructor.
Qed.

Lemma text_without_underscore_witness :
  Full.parse "VERSION 12" Full.init = Some Full.init.
Proof.
  destruct (text_without_underscore "VERSION 12") as [H _].
  - reflexivity.
  - exact H.
Defined.

(** ** Attribute definitions *)

Lemma finditer_captures (P : nat → string → Prop) r s m n w :
  captures_ok P r → m ∈ finditer r s → m_groups m !! n = Some w → P n w.
Proof.
  intros Hok (j & rest & _ & _ & HM)%finditer_Matches Hw.
  eapply (Matches_captures _ _ _ _ _ _ Hok HM); [|done].
  intros n' w'. by rewrite lookup_empty.
Qed.

Lemma ba_def_scope_raw content m w :
  m ∈ finditer ba_def_pattern content → m_groups m !! 1%nat = Some w →
  w ∈ ["BU_"; "BO_"; "SG_"; "EV_"].
Proof.
  intros Hm Hw.
  assert (Hok : captures_ok (λ n w, n = 1%nat → w ∈ ["BU_"; "BO_"; "SG_"; "EV_"])
                  ba_def_pattern); [|by eapply (finditer_captures _ _ _ _ _ _ Hok Hm Hw)].
  cbv [captures_ok ba_def_pattern rseq foldr plus star].
  split_and!; try exact I; intros ? ? ? ? HM Hn; try discriminate Hn.
  repeat match goal with
         | H : Matches (Alt _ _) _ _ _ _ |- _ => inversion H; subst; clear H
         | H : Matches (Lit _) _ _ _ _ |- _ => inversion H; subst; clear H
         end; rewrite consumed_app; set_solver.
Qed.

Lemma ba_def_scope_known content m :
  m ∈ finditer ba_def_pattern content →
  Full.ba_def_scope (default "" (m_groups m !! 1%nat))
  ∈ codes <$> ["GLOBAL"; "MESSAGE"; "NODE"; "SIGNAL"; "ENV"].
Proof.
  intros Hm. destruct (m_groups m !! 1%nat) as [w|] eqn:Ew.
  - pose proof (ba_def_scope_raw _ _ _ Hm Ew) as Hw.
    repeat (apply elem_of_cons in Hw as [->|Hw]); [..|by apply elem_of_nil in Hw];
      vm_compute; set_solver.
  - vm_compute. set_solver.
Qed.

(** X15. Every stored attribute definition has one of the five scopes
    GLOBAL, MESSAGE, NODE, SIGNAL and ENV. Its minimum and maximum are both
    empty unless the type, in upper case, is INT, HEX or FLOAT, and then
    both are words without whitespace; its enumeration is empty unless the
    type is ENUM. *)
Theorem ba_def_shape content p scope name type_str min_val max_val enum_vals :
  Full.parse content Full.init = Some p →
  (scope, name, type_str, min_val, max_val, enum_vals) ∈ Full.ba_defs p →
  scope ∈ codes <$> ["GLOBAL"; "MESSAGE"; "NODE"; "SIGNAL"; "ENV"] ∧
  (min_val = "" ∧ max_val = ""
   ∨ type_str ∈ codes <$> ["INT"; "HEX"; "FLOAT"]
     ∧ run nonspace min_val ∧ run nonspace max_val ∧ enum_vals = "") ∧
  (enum_vals = "" ∨ type_str = codes "ENUM").
Proof.
  intros (recs & st0 & _ & _ & ->)%full_parse_inv. cbn [Full.ba_defs].
  intros (m & Hrec & Hm)%list_elem_of_fmap. unfold Full.ba_def_of_match in Hrec.
  destruct (decide (upper (group m 3) ∈ [codes "INT"; codes "HEX"; codes "FLOAT"]))
    as [Hty|Hty].
  - destruct (decide (2 ≤ length (split (strip (group m 4))))%nat) as [Hlen|Hlen];
      injection Hrec as -> -> -> -> -> ->;
      (split; [by apply (ba_def_scope_known content)|]); (split; [|by left]).
    + right. rewrite split_words in *.
      pose proof (words_nonspace (strip (group m 4))) as Hw.
      destruct (words (strip (group m 4))) as [|a [|b l]]; [simpl in Hlen; lia..|].
      inversion Hw as [|? ? Ha Hl]; subst. inversion Hl; subst.
      split_and!; done.
    + by left.
  - destruct (decide (upper (group m 3) = codes "ENUM")) as [Hen|Hen];
      injection Hrec as -> -> -> -> -> ->;
      (split; [by apply (ba_def_scope_known content)|]); (split; [by left|]).
    + by right.
    + by left.
Qed.

Lemma ba_def_shape_witness :
  codes "MESSAGE" ∈ codes <$> ["GLOBAL"; "MESSAGE"; "NODE"; "SIGNAL"; "ENV"] ∧
  ("0" = "" ∧ "100" = ""
   ∨ codes "INT" ∈ codes <$> ["INT"; "HEX"; "FLOAT"]
     ∧ run nonspace "0" ∧ run nonspace "100" ∧ "" = "") ∧
  ("" = "" ∨ codes "INT" = codes "ENUM").
Proof.
  apply (ba_def_shape sample_dbc sample_parser (codes "MESSAGE") "Cycle" (codes "INT")
           "0" "100" "").
  - vm_compute. reflexivity.
  - vm_compute. left.
Defined.

(** ** The sheets of the workbook *)

Lemma mapM_nil_iff {A B : Type} (f : A → option B) l k :
  mapM f l = Some k → k = [] ↔ l = [].
Proof.
  intros Hm%mapM_Some_1%Forall2_length.
  destruct l, k; simpl in *; try lia; done.
Qed.

Lemma fmap_nil_iff {A B : Type} (f : A → B) l : f <$> l = [] ↔ l = [].
Proof. by destruct l. Qed.

Lemma optional_sheet_name (P Q : Prop) `{Decision P, Decision Q} (name : string)
    (sh : sheet) :
  (P ↔ Q) →
  (if decide P then [] else [(name, sh)]).*1 = if decide Q then [] else [name].
Proof. intros HPQ. destruct (decide P), (decide Q); tauto || done. Qed.

(** X16. The workbook starts with the sheets Nodes, ValueTables, Messages
    and Signals; each further sheet is present exactly when the text holds
    a declaration of its kind: a [BO_TX_BU_] entry, an [EV_] declaration,
    a [BA_DEF_] definition, a [BA_] assignment, a comment. *)
Theorem optional_sheets content wb :
  create_excel_from_dbc content = Some wb →
  wb.*1
  = (["Nodes"; "ValueTables"; "Messages"; "Signals"]
     ++ (if decide (finditer extra_tx_pattern content = []) then []
         else ["ExtraTransmitters"])
     ++ (if decide (finditer env_var_pattern content = []) then []
         else ["EnvironmentVariables"])
     ++ (if decide (finditer ba_def_pattern content = []) then [] else ["BA_DEF"])
     ++ (if decide (finditer ba_pattern content = []) then [] else ["BA"])
     ++ (if decide (comment_records content = []) then [] else ["Comments"]))%list.
Proof.
  unfold create_excel_from_dbc.
  destruct (Full.parse content Full.init) as [p|] eqn:Hp; [|done].
  intros [= <-]. apply full_parse_inv in Hp as (recs & st0 & Hrecs & _ & ->).
  unfold sheets.
  cbn [Full.core Full.extra_transmitters Full.env_vars Full.ba_defs ba_assignments comments].
  rewrite !fmap_app.
  rewrite (optional_sheet_name _ (finditer extra_tx_pattern content = []))
    by apply assign_all_empty.
  rewrite (optional_sheet_name _ (finditer env_var_pattern content = []))
    by apply fmap_nil_iff.
  rewrite (optional_sheet_name _ (finditer ba_def_pattern content = []))
    by apply fmap_nil_iff.
  rewrite (optional_sheet_name _ (finditer ba_pattern content = []))
    by apply (mapM_nil_iff _ _ _ Hrecs).
  rewrite (optional_sheet_name _ (comment_records content = [])) by done.
  done.
Qed.

Lemma optional_sheets_witness :
  (default [] (create_excel_from_dbc sample_dbc)).*1
  = ["Nodes"; "ValueTables"; "Messages"; "Signals"; "ExtraTransmitters";
     "EnvironmentVariables"; "BA_DEF"; "BA"; "Comments"].
Proof.
  rewrite (optional_sheets sample_dbc (default [] (create_excel_from_dbc sample_dbc))).
  - vm_compute. reflexivity.
  - vm_compute. reflexivity.
Defined.

(** ** The Messages sheet *)

Lemma message_of_match_spec content m :
  m ∈ finditer msg_pattern content → message_of_match m = Some (message_of m).
Proof.
  intros Hm. unfold message_of_match, message_of.
  destruct (msg_group_digits _ _ Hm) as [H1 H3].
  destruct (int_of_digits _ H1) as [-> _]. destruct (int_of_digits _ H3) as [-> _].
  done.
Qed.

Lemma recorded_messages content l msgs :
  (∀ m, m ∈ l → m ∈ finditer msg_pattern content) →
  Forall2 recorded l msgs → msgs = message_of <$> l.
Proof.
  intros Hl Hrec. induction Hrec as [|m msg l msgs (raw & _ & Hmsg & _) _ IH]; [done|].
  rewrite (message_of_match_spec content) in Hmsg by (apply Hl; left).
  injection Hmsg as <-. simpl. f_equal. apply IH. intros m' Hm'. apply Hl. by right.
Qed.

(** X17. The Messages sheet has one data row for every message
    declaration of the text, in the order of the text, also when two
    declarations have the same identifier; the row holds the hexadecimal
    text of the normalised identifier, the name, the DLC as a number, the
    transmitter and TRUE or FALSE for an identifier from 0x80000000 on. *)
Theorem messages_sheet_rows content p :
  Full.parse content Full.init = Some p →
  tail (messages_sheet p)
  = (λ m, let raw := int_of (group m 1) in
          [Text ("0x" ++ py_hex (normalize_id raw)); Text (group m 2);
           Int (int_of (group m 3)); Text (group m 4);
           Text (if is_extended_id raw then "TRUE" else "FALSE"); Text ""])
      <$> finditer msg_pattern content.
Proof.
  intros (recs & st0 & _ & Hst0 & ->)%full_parse_inv.
  destruct (_parse_messages_and_signals_spec content) as (st0' & Hst0' & Hrec & _).
  rewrite Hst0 in Hst0'. injection Hst0' as <-.
  unfold messages_sheet. cbn [tail Full.core messages].
  rewrite (recorded_messages content _ _ ltac:(done) Hrec), <- list_fmap_compose. done.
Qed.

Lemma messages_sheet_rows_witness :
  tail (messages_sheet sample_parser)
  = [[Text "0x64"; Text "Msg1"; Int 8; Text "ECU1"; Text "FALSE"; Text ""];
     [Text "0xC8"; Text "Msg2"; Int 8; Text "ECU2"; Text "TRUE"; Text ""]].
Proof.
  rewrite (messages_sheet_rows sample_dbc sample_parser).
  - vm_compute. reflexivity.
  - vm_compute. reflexivity.
Defined.

(** ** The EnvironmentVariables sheet *)

Lemma env_type_name t :
  default "INT" (env_types !! t)
  = if decide (t = "1") then "FLOAT" else if decide (t = "2") then "STRING" else "INT".
Proof.
  unfold env_types.
  destruct (decide (t = "0")) as [->|H0]; [done|].
  rewrite lookup_insert_ne by done.
  destruct (decide (t = "1")) as [->|H1]; [done|].
  rewrite lookup_insert_ne by done.
  destruct (decide (t = "2")) as [->|H2]; [done|].
  by rewrite lookup_singleton_ne.
Qed.

(** X18. The environment variables are stored one for every [EV_]
    declaration of the text, in the order of the text, and the data rows of
    the EnvironmentVariables sheet are theirs: the Type cell is FLOAT for
    the type code 1, STRING for the type code 2 and INT for every other
    code; minimum, maximum and the last group are stripped of surrounding
    whitespace. *)
Theorem env_vars_sheet_rows content p :
  Full.parse content Full.init = Some p →
  Full.env_vars p = Full.env_var_of_match <$> finditer env_var_pattern content ∧
  tail (env_vars_sheet p)
  = (λ m, [Text (group m 1);
           Text (if decide (group m 2 = "1") then "FLOAT"
                 else if decide (group m 2 = "2") then "STRING" else "INT");
           Text (strip (group m 3)); Text (strip (group m 4)); Text (group m 6);
           Text (group m 5); Text (strip (group m 9)); Text ""; Text ""])
      <$> finditer env_var_pattern content.
Proof.
  intros (recs & st0 & _ & _ & ->)%full_parse_inv. split; [done|].
  unfold env_vars_sheet. cbn [tail Full.env_vars].
  rewrite <- list_fmap_compose. apply list_fmap_ext. intros _ m _.
  unfold compose, env_var_row, Full.env_var_of_match. cbn [EnvVar.name EnvVar.type
    EnvVar.min EnvVar.max EnvVar.unit EnvVar.default EnvVar.access EnvVar.nodes].
  by rewrite env_type_name.
Qed.

Lemma env_vars_sheet_rows_witness :
  tail (env_vars_sheet sample_parser)
  = [[Text "Env1"; Text "INT"; Text "0"; Text "1"; Text "0"; Text "";
      Text "Vector__XXX"; Text ""; Text ""]].
Proof.
  destruct (env_vars_sheet_rows sample_dbc sample_parser) as [_ H].
  - vm_compute. reflexivity.
  - rewrite H. vm_compute. reflexivity.
Defined.

(** ** The Comments sheet *)

(** X19. The data rows of the Comments sheet are grouped by kind and not
    in the order of the text: the message comments first, then the signal
    comments, the node comments and the comments of environment variables,
    each group in the order of the text. *)
Theorem comments_sheet_rows content p :
  Full.parse content Full.init = Some p →
  tail (comments_sheet p)
  = (λ c, [Text c.1.1; Text c.1.2; Text c.2])
      <$> ((bo_comment <$> finditer cm_bo_pattern content)
           ++ (sg_comment <$> finditer cm_sg_pattern content)
           ++ (bu_comment <$> finditer cm_bu_pattern content)
           ++ (ev_comment <$> finditer cm_ev_pattern content))%list.
Proof.
  intros (recs & st0 & _ & _ & ->)%full_parse_inv.
  unfold comments_sheet. cbn [tail Full.core comments].
  apply list_fmap_ext. by intros _ [[? ?] ?] _.
Qed.

Lemma comments_sheet_rows_witness :
  tail (comments_sheet sample_parser) = [[Text "BO"; Text "100"; Text "hello"]].
Proof.
  rewrite (comments_sheet_rows sample_dbc sample_parser).
  - vm_compute. reflexivity.
  - vm_compute. reflexivity.
Defined.

(** ** Where the node names come from *)

(** A greedy repetition whose continuation accepts what follows the
    longest run takes the longest run. *)
Lemma rep_greedy_run {R : Type} cl lo w s (k : string → option R) :
  forallb_str (cmatch cl) w = true → stops (cmatch cl) s →
  (lo ≤ String.length w)%nat → is_Some (k s) →
  rep_greedy cl lo (w ++ s) k = k s.
Proof.
  intros Hw Hs Hlo [x Hx]. revert lo Hlo. induction w as [|a w IH]; intros lo Hlo.
  - simpl in Hlo. assert (lo = 0%nat) as -> by lia.
    change ("" ++ s) with s. destruct s as [|c s]; [done|].
    simpl in *. by rewrite Hs.
  - simpl in Hw. apply andb_prop in Hw as [Ha Hw].
    change (String a w ++ s) with (String a (w ++ s)). cbn [rep_greedy].
    rewrite Ha, (IH Hw) by (simpl in Hlo; lia). by rewrite Hx.
Qed.

Lemma lstrip_with_split p s :
  ∃ w, s = w ++ lstrip_with p s ∧ forallb_str p w = true.
Proof.
  induction s as [|c s (w & Hs & Hw)]; [by exists ""|]. simpl.
  destruct (p c) eqn:Hc; [|by exists ""].
  exists (String c w). simpl. rewrite Hc, Hw. split; [by f_equal|done].
Qed.

Lemma first_line_split s :
  ∃ rest, s = first_line s ++ rest ∧
          forallb_str (cmatch CDot) (first_line s) = true ∧ stops (cmatch CDot) rest.
Proof.
  unfold first_line. induction s as [|c s (rest & Hs & Hl & Hr)]; [by exists ""|].
  cbn [span_not]. destruct (ascii_eqb newline c) eqn:Hc.
  - exists (String c s). split_and!; [done..|]. unfold stops, cmatch. by rewrite Hc.
  - destruct (span_not (ascii_eqb newline) s) as [tok r]. cbn [fst] in *.
    exists rest. split_and!; [|cbn [forallb_str cmatch]; by rewrite Hc, Hl|done].
    change (String c tok ++ rest) with (String c (tok ++ rest)). by f_equal.
Qed.

Lemma words_blank s : forallb_str is_space s = true → words s = [].
Proof.
  induction s as [|c s IH]; [done|]. simpl. intros [Hc Hs]%andb_prop.
  rewrite Hc. by apply IH.
Qed.

(** What the matcher answers for [nodes_pattern]: after [BU_:] and any
    whitespace, newlines included, group 1 is the rest of the line that the
    first character other than whitespace starts; when only whitespace
    follows, group 1 is whitespace. *)
Lemma nodes_match_at_shape s rest g :
  match_at nodes_pattern s = Some (rest, g) →
  ∃ after, s = "BU_:" ++ after ∧
           words (default "" (g !! 1%nat))
           = words (first_line (lstrip_with is_space after)).
Proof.
  unfold match_at, nodes_pattern, rseq, plus, star. cbn [foldr rmatch].
  destruct (strip_prefix "BU_:" s) as [after|] eqn:E; [|done].
  apply strip_prefix_Some in E as ->. intros H. exists after. split; [done|].
  destruct (lstrip_with_split is_space after) as (w & Hafter & Hw).
  pose proof (lstrip_with_stops is_space after) as Hstop.
  destruct (lstrip_with is_space after) as [|c t] eqn:Et.
  - (* only whitespace follows *)
    rewrite str_app_nil_r in Hafter. subst w.
    apply rep_greedy_sound in H as (w1 & s1 & -> & _ & _ & H).
    apply rep_greedy_sound in H as (line & s2 & -> & _ & _ & [= <- <-]).
    rewrite lookup_insert_eq. simpl. rewrite consumed_app.
    rewrite !forallb_str_app in Hw.
    apply andb_prop in Hw as [_ [Hl _]%andb_prop]. by rewrite words_blank.
  - (* the longest run of whitespace, then the line *)
    simpl in Hstop.
    destruct (first_line_split (String c t)) as (r & Hline & Hdot & Hr).
    assert (Hne : (1 ≤ String.length (first_line (String c t)))%nat).
    { unfold first_line. cbn [span_not].
      assert (ascii_eqb newline c = false) as ->.
      { destruct (ascii_eqb newline c) eqn:Hc; [|done].
        apply ascii_eqb_eq in Hc as <-. done. }
      destruct (span_not (ascii_eqb newline) t). simpl. lia. }
    rewrite Hafter in H. rewrite rep_greedy_run in H; [|done|by simpl|simpl; lia|].
    + rewrite Hline in H at 1. rewrite rep_greedy_run in H by (done || by eexists).
      injection H as <- <-. rewrite lookup_insert_eq. simpl.
      rewrite Hline at 1. by rewrite consumed_app.
    + rewrite Hline at 1. rewrite rep_greedy_run by (done || by eexists). by eexists.
Qed.

(** X20. The node names are the words of the first line with text after
    [BU_:], which need not be the line of [BU_:] itself: at the first
    [BU_:] from which the pattern matches, the whitespace that follows,
    newlines included, is skipped, and the node list is the whitespace split
    of the text from there to the end of that line. After an empty node list
    the words of the next line with text become the nodes. *)
Theorem nodes_from_first_text_line content p m :
  Full.parse content Full.init = Some p →
  search nodes_pattern content = Some m →
  ∃ after,
    drop_str (m_start m) content = "BU_:" ++ after ∧
    Full.nodes p = split (first_line (lstrip_with is_space after)).
Proof.
  intros (recs & st0 & _ & _ & ->)%full_parse_inv Hm. cbn [Full.nodes].
  unfold nodes_of. rewrite Hm. unfold search in Hm.
  apply head_Some_elem_of, scan_elem in Hm as (j & rest & _ & Hmatch & Hstart & _).
  apply nodes_match_at_shape in Hmatch as (after & Hdrop & Hw).
  exists after. simpl in Hstart. rewrite Hstart. split; [done|].
  rewrite stripped_split, words_strip, split_words. done.
Qed.

Lemma nodes_from_first_text_line_witness :
  Full.nodes (default Full.init (Full.parse empty_nodes_dbc Full.init))
  = ["BO_"; "100"; "Msg1:"; "8"; "ECU1"].
Proof.
  destruct (nodes_from_first_text_line empty_nodes_dbc
              (default Full.init (Full.parse empty_nodes_dbc Full.init))
              (default (Build_Match 0 0 ∅) (search nodes_pattern empty_nodes_dbc)))
    as (after & Hafter & Hnodes).
  - vm_compute. reflexivity.
  - vm_compute. reflexivity.
  - rewrite Hnodes. apply (str_app_inv_head "BU_:") in Hafter. rewrite <- Hafter.
    vm_compute. reflexivity.
Defined.

(** ** The value table of a signal row *)

(** X21. The ValueTable cell, the last of a data row of the Signals sheet,
    holds the formatted values of the last [VAL_] entry of the text for the
    normalised message identifier and the signal name of the row, and is
    empty when the text has no such entry. *)
Theorem signal_row_value_table content p k sig :
  Full.parse content Full.init = Some p →
  last (signal_row p k sig)
  = Some (Text match last_with signal_key_of (finditer signal_val_pattern content)
                       (k, Sig.name sig) with
               | Some m => format_pairs (dict_of (group m 3))
               | None => ""
               end).
Proof.
  intros (recs & st0 & _ & _ & ->)%full_parse_inv.
  unfold signal_row. cbn [last Full.core signal_value_tables].
  unfold signal_value_tables_of. rewrite assign_all_lookup.
  by destruct (last_with _ _ _).
Qed.

Lemma signal_row_value_table_witness :
  last (signal_row sample_parser 100 sample_signal)
  = Some (Text ("0:" ++ dq ++ "Off" ++ dq ++ " 1:" ++ dq ++ "On" ++ dq)).
Proof.
  rewrite (signal_row_value_table sample_dbc sample_parser 100 sample_signal).
  - vm_compute. reflexivity.
  - vm_compute. reflexivity.
Defined.

(** ** Hexadecimal text *)

Lemma upper_hex_inj d d' :
  map_str upper_hex_digit (HexadecimalString.NilEmpty.string_of_uint d)
  = map_str upper_hex_digit (HexadecimalString.NilEmpty.string_of_uint d') →
  d = d'.
Proof.
  revert d'. induction d as [ |d IH|d IH|d IH|d IH|d IH|d IH|d IH|d IH|d IH|d IH
                              |d IH|d IH|d IH|d IH|d IH|d IH];
    intros [ |d'|d'|d'|d'|d'|d'|d'|d'|d'|d'|d'|d'|d'|d'|d'|d'];
    cbn [HexadecimalString.NilEmpty.string_of_uint map_str]; intros H;
    try discriminate H; try reflexivity;
    injection H as H; f_equal; by apply IH.
Qed.

Lemma to_hex_uint_not_nil n : N.to_hex_uint n ≠ Hexadecimal.Nil.
Proof.
  intros H. pose proof (HexadecimalN.Unsigned.of_to n) as Hn. rewrite H in Hn.
  destruct n; [done|]. discriminate Hn.
Qed.

(** The hexadecimal text determines the number it was written from. *)
Lemma py_hex_inj a b : 0 ≤ a → 0 ≤ b → py_hex a = py_hex b → a = b.
Proof.
  intros Ha Hb. unfold py_hex.
  destruct (Z.ltb_spec a 0), (Z.ltb_spec b 0); try lia.
  pose proof (to_hex_uint_not_nil (Z.to_N a)) as Hna.
  pose proof (to_hex_uint_not_nil (Z.to_N b)) as Hnb.
  assert (Hz : ∀ d, d ≠ Hexadecimal.Nil →
                    HexadecimalString.NilZero.string_of_uint d
                    = HexadecimalString.NilEmpty.string_of_uint d)
    by (by intros []).
  rewrite !Hz by done. intros Heq%upper_hex_inj%HexadecimalN.Unsigned.to_uint_inj. lia.
Qed.

(** X22. The MessageID cell determines the message identifier: two rows of
    the Messages sheet with the same MessageID cell belong to messages with
    the same identifier, and a row of the Signals sheet has the MessageID
    cell of a message only when it is written for the identifier of that
    message. *)
Theorem message_id_cell_identifies content p msg :
  Full.parse content Full.init = Some p →
  msg ∈ messages (Full.core p) →
  (∀ msg', msg' ∈ messages (Full.core p) →
     head (message_row msg') = head (message_row msg) → Msg.id msg' = Msg.id msg) ∧
  (∀ k sig, is_Some (signals (Full.core p) !! k) →
     head (signal_row p k sig) = head (message_row msg) → k = Msg.id msg).
Proof.
  intros Hp. destruct (full_parse_inv _ _ Hp) as (recs & st0 & _ & Hst0 & Hpeq).
  destruct (_parse_messages_and_signals_spec content) as (st0' & Hst0' & Hrec & Hdom & _).
  rewrite Hst0 in Hst0'. injection Hst0' as <-.
  assert (Hcore : messages (Full.core p) = messages st0 ∧ signals (Full.core p) = signals st0)
    by (by rewrite Hpeq).
  destruct Hcore as [-> ->]. intros Hmsg.
  destruct (messages_in_range content st0 msg Hst0 Hmsg) as (Hid & _ & _ & Hhex).
  split.
  - intros msg' Hmsg'.
    destruct (messages_in_range content st0 msg' Hst0 Hmsg') as (Hid' & _ & _ & Hhex').
    cbn [head message_row]. rewrite Hhex, Hhex'. intros [= H]. by apply py_hex_inj.
  - intros k sig Hk%elem_of_dom. rewrite Hdom in Hk.
    unfold msg_ids in Hk. rewrite elem_of_list_to_set, list_elem_of_fmap in Hk.
    destruct Hk as (msg' & -> & Hmsg').
    destruct (messages_in_range content st0 msg' Hst0 Hmsg') as (Hid' & _).
    cbn [head message_row signal_row]. rewrite Hhex. intros [= H]. by apply py_hex_inj.
Qed.

Lemma message_id_cell_identifies_witness :
  (∀ msg', msg' ∈ messages (Full.core sample_parser) →
     head (message_row msg') = head (message_row sample_message) →
     Msg.id msg' = 200) ∧
  (∀ k sig, is_Some (signals (Full.core sample_parser) !! k) →
     head (signal_row sample_parser k sig)
     = head (message_row sample_message) →
     k = 200).
Proof.
  apply (message_id_cell_identifies sample_dbc sample_parser sample_message).
  - vm_compute. reflexivity.
  - vm_compute. right. left.
Defined.
